(** * rptl: the Ren'Py translation rewriter of [scripts/rptl.py]

    A shallow embedding of the module [scripts.rptl] and the properties of
    its chunked reader, entry construction, per-entry edit, per-file pass and
    of the run [RenpyTranslation.__call__].

    Text is a list of characters.  A character is a code point below 256
    (type [ascii]); the classes [\s] and [\w] and [str.strip] follow the
    Unicode tables on that range.  A file's content is its decoded text, in
    which universal-newline reading has left the line feed as the only line
    end. *)

From Stdlib Require Import Ascii String List ZArith Lia Bool.
From stdpp Require Import base option list gmap strings.
Import ListNotations.

Local Open Scope list_scope.
Local Open Scope Z_scope.

(** ** Python strings *)

Abbreviation str := (list ascii).

Definition py (x : string) : str := list_ascii_of_string x.

(** [pyq] reads an apostrophe as a double quote, to write texts that hold
    string literals of the script language. *)
Definition pyq (x : string) : str :=
  map (fun c => if Ascii.eqb c "'"%char then ascii_of_nat 34 else c) (py x).

Definition LF : ascii := "010"%char.
Definition QUOTE : ascii := ascii_of_nat 34.
Definition PCT : ascii := "%"%char.
Definition BACKSLASH : ascii := "\"%char.

Definition chr_eqb (a b : ascii) : bool := Ascii.eqb a b.

Module Str.

  (** [len(s)] *)
Definition len (s : str) : Z := Z.of_nat (length s).

  (** [s.startswith(p)] *)
Fixpoint startswith (p s : str) : bool :=
    match p, s with
    | [], _ => true
    | _ :: _, [] => false
    | a :: p', b :: s' => chr_eqb a b && startswith p' s'
    end.

  (** The scan of [str.replace] for a non-empty needle: [skip] counts the
      characters of the occurrence just replaced that are still to be
      passed over, so occurrences are taken left to right and never
      overlap. *)
Fixpoint replace_scan (old new s : str) (skip : nat) : str :=
    match s with
    | [] => []
    | c :: s' =>
        match skip with
        | S k => replace_scan old new s' k
        | O =>
            if startswith old s
            then new ++ replace_scan old new s' (Nat.pred (length old))
            else c :: replace_scan old new s' O
        end
    end.

  (** [s.replace(old, new)], no count: every occurrence.  An empty [old]
      matches before every character and at the end. *)
Definition replace (old new s : str) : str :=
    match old with
    | [] => new ++ flat_map (fun c => c :: new) s
    | _ :: _ => replace_scan old new s O
    end.

  (** [sep.join(parts)] *)
Fixpoint join (sep : str) (parts : list str) : str :=
    match parts with
    | [] => []
    | [p] => p
    | p :: ps => p ++ sep ++ join sep ps
    end.

  (** [s.split(sep)] for a non-empty separator, with the same skip counter
      as [replace_scan]; [cur] is the piece being accumulated, reversed. *)
Fixpoint split_scan (sep s cur : str) (skip : nat) : list str :=
    match s with
    | [] => [rev cur]
    | c :: s' =>
        match skip with
        | S k => split_scan sep s' cur k
        | O =>
            if startswith sep s
            then rev cur :: split_scan sep s' [] (Nat.pred (length sep))
            else split_scan sep s' (c :: cur) O
        end
    end.

Definition split (sep s : str) : list str := split_scan sep s [] O.

  (** [str.isspace] on one character: U+0009..U+000D, U+001C..U+0020,
      U+0085, U+00A0. *)
Definition isspace (c : ascii) : bool :=
    let n := nat_of_ascii c in
    ((9 <=? n)%nat && (n <=? 13)%nat) || ((28 <=? n)%nat && (n <=? 32)%nat)
    || (n =? 133)%nat || (n =? 160)%nat.

  (** [ch.isalnum()] below U+0100. *)
Definition isalnum (c : ascii) : bool :=
    let n := nat_of_ascii c in
    ((48 <=? n)%nat && (n <=? 57)%nat) || ((65 <=? n)%nat && (n <=? 90)%nat)
    || ((97 <=? n)%nat && (n <=? 122)%nat)
    || (n =? 170)%nat || (n =? 178)%nat || (n =? 179)%nat || (n =? 181)%nat
    || (n =? 185)%nat || (n =? 186)%nat
    || ((188 <=? n)%nat && (n <=? 190)%nat)
    || ((192 <=? n)%nat && (n <=? 214)%nat)
    || ((216 <=? n)%nat && (n <=? 246)%nat)
    || ((248 <=? n)%nat && (n <=? 255)%nat).

Fixpoint lstrip_by (p : ascii -> bool) (s : str) : str :=
    match s with
    | [] => []
    | c :: s' => if p c then lstrip_by p s' else s
    end.

Definition rstrip_by (p : ascii -> bool) (s : str) : str :=
    rev (lstrip_by p (rev s)).

Definition strip_by (p : ascii -> bool) (s : str) : str :=
    rstrip_by p (lstrip_by p s).

  (** [s.strip()] *)
Definition strip (s : str) : str := strip_by isspace s.

  (** [s.strip(chars)] *)
Definition strip_chars (chars s : str) : str :=
    strip_by (fun c => existsb (chr_eqb c) chars) s.

  (** Truth value of a string: the empty string is false. *)
Definition truthy (s : str) : bool :=
    match s with [] => false | _ :: _ => true end.

End Str.

(** ** The fragment of [re] the module uses

    A backtracking matcher in continuation-passing style: alternatives are
    tried in the priority order of [re] (a greedy star takes the longest run
    first, a lazy one the shortest), and the first complete match wins.  The
    position in the subject is a zipper: [pre] holds the characters before
    it, nearest first, and [s] those from it on. *)

Module Re.

Inductive regex : Type :=
  | Eps
  | Chr (c : ascii)                       (* a literal character *)
  | Cls (p : ascii -> bool)               (* one character of a class *)
  | Star (p : ascii -> bool)              (* [p*], greedy *)
  | StarLazy (p : ascii -> bool)          (* [p*?] *)
  | Cat (r1 r2 : regex)
  | Group (name : string) (r : regex)     (* [(...)], [(?P<name>...)] *)
  | Backref (name : string)               (* [(?P=name)] *)
  | NotBehind (c : ascii)                 (* [(?<!c)] *)
  | NotAhead (c : ascii)                  (* [(?!c)] *)
  | Bol                                   (* [^] without MULTILINE *)
  | Eol.                                  (* [$] without MULTILINE *)

Definition env := list (string * str).

Fixpoint lookup (n : string) (g : env) : option str :=
    match g with
    | [] => None
    | (k, v) :: g' => if String.eqb n k then Some v else lookup n g'
    end.

  (** The text between an earlier position [pre] and a later one [pre']. *)
Definition captured (pre pre' : str) : str :=
    rev (take (length pre' - length pre)%nat pre').

Fixpoint strip_prefix (w s : str) : option str :=
    match w, s with
    | [], _ => Some s
    | _ :: _, [] => None
    | a :: w', b :: s' => if chr_eqb a b then strip_prefix w' s' else None
    end.

Section Matcher.
Context {R : Type}.

Fixpoint star_greedy (p : ascii -> bool) (pre s : str)
        (k : str -> str -> option R) : option R :=
      match s with
      | c :: s' =>
          if p c then
            match star_greedy p (c :: pre) s' k with
            | Some r => Some r
            | None => k pre s
            end
          else k pre s
      | [] => k pre s
      end.

Fixpoint star_lazy (p : ascii -> bool) (pre s : str)
        (k : str -> str -> option R) : option R :=
      match k pre s with
      | Some r => Some r
      | None =>
          match s with
          | c :: s' => if p c then star_lazy p (c :: pre) s' k else None
          | [] => None
          end
      end.

Fixpoint run (r : regex) (pre s : str) (g : env)
        (k : str -> str -> env -> option R) : option R :=
      match r with
      | Eps => k pre s g
      | Chr c =>
          match s with
          | x :: s' => if chr_eqb x c then k (x :: pre) s' g else None
          | [] => None
          end
      | Cls p =>
          match s with
          | x :: s' => if p x then k (x :: pre) s' g else None
          | [] => None
          end
      | Star p => star_greedy p pre s (fun pre' s' => k pre' s' g)
      | StarLazy p => star_lazy p pre s (fun pre' s' => k pre' s' g)
      | Cat r1 r2 => run r1 pre s g (fun pre' s' g' => run r2 pre' s' g' k)
      | Group n r1 =>
          run r1 pre s g
            (fun pre' s' g' => k pre' s' ((n, captured pre pre') :: g'))
      | Backref n =>
          match lookup n g with
          | Some w =>
              match strip_prefix w s with
              | Some s' => k (rev w ++ pre) s' g
              | None => None
              end
          | None => None
          end
      | NotBehind c =>
          match pre with
          | x :: _ => if chr_eqb x c then None else k pre s g
          | [] => k pre s g
          end
      | NotAhead c =>
          match s with
          | x :: _ => if chr_eqb x c then None else k pre s g
          | [] => k pre s g
          end
      | Bol => match pre with [] => k pre s g | _ :: _ => None end
      | Eol =>
          match s with
          | [] => k pre s g
          | [x] => if chr_eqb x LF then k pre s g else None
          | _ => None
          end
      end.
End Matcher.

  (** A match object: group 0 and the other groups. *)
Record Match := { whole : str; groups : env }.

  (** [m.group(name)]; a group that took no part is [None], here [[]]. *)
Definition group (m : Match) (n : string) : str :=
    default [] (lookup n (groups m)).

  (** [pattern.match] at the position [(pre, s)]. *)
Definition match_at (r : regex) (pre s : str) : option Match :=
    run r pre s []
      (fun pre' _ g => Some {| whole := captured pre pre'; groups := g |}).

  (** [pattern.finditer(s)]: matches left to right, not overlapping.  After
      a match of length [n > 0] the next [n - 1] characters are passed over.
      No pattern of this module matches the empty string (each holds a
      literal character); an empty match would be followed by a search from
      the next character. *)
Fixpoint scan (r : regex) (pre s : str) (skip : nat) : list Match :=
    match skip, s with
    | S k, c :: s' => scan r (c :: pre) s' k
    | S _, [] => []
    | O, _ =>
        match match_at r pre s with
        | Some m =>
            m :: match s with
                 | c :: s' => scan r (c :: pre) s' (Nat.pred (length (whole m)))
                 | [] => []
                 end
        | None =>
            match s with
            | c :: s' => scan r (c :: pre) s' O
            | [] => []
            end
        end
    end.

Definition finditer (r : regex) (s : str) : list Match := scan r [] s O.

  (** [pattern.sub(repl, s)] for a template [repl] without backslash. *)
Fixpoint sub_scan (r : regex) (repl pre s : str) (skip : nat) : str :=
    match skip, s with
    | S k, c :: s' => sub_scan r repl (c :: pre) s' k
    | S _, [] => []
    | O, _ =>
        match match_at r pre s with
        | Some m =>
            repl ++
            match s with
            | c :: s' =>
                match whole m with
                | [] => c :: sub_scan r repl (c :: pre) s' O
                | _ :: w => sub_scan r repl (c :: pre) s' (length w)
                end
            | [] => []
            end
        | None =>
            match s with
            | c :: s' => c :: sub_scan r repl (c :: pre) s' O
            | [] => []
            end
        end
    end.

Definition sub (r : regex) (repl s : str) : str := sub_scan r repl [] s O.

  (** [pattern.match(s)]: a match at the start of [s], as a truth value. *)
Definition matches (r : regex) (s : str) : bool :=
    match match_at r [] s with Some _ => true | None => false end.

  (** Building blocks. *)
Fixpoint lit (w : str) : regex :=
    match w with
    | [] => Eps
    | c :: w' => Cat (Chr c) (lit w')
    end.

Definition Plus (p : ascii -> bool) : regex := Cat (Cls p) (Star p).
Definition PlusLazy (p : ascii -> bool) : regex := Cat (Cls p) (StarLazy p).

Fixpoint seq (rs : list regex) : regex :=
    match rs with
    | [] => Eps
    | [r] => r
    | r :: rs' => Cat r (seq rs')
    end.

  (** [.]: any character but a newline. *)
Definition dot (c : ascii) : bool := negb (chr_eqb c LF).
  (** [\s] *)
Definition space (c : ascii) : bool := Str.isspace c.
  (** [[\w_]] *)
Definition word (c : ascii) : bool := Str.isalnum c || chr_eqb c "_"%char.

End Re.

(** ** Module constants *)

(** [PERCENT = re.compile(r'(?<!%)(%)(?!%)')] *)
Definition PERCENT : Re.regex :=
  Re.seq [Re.NotBehind PCT; Re.Group "1" (Re.Chr PCT); Re.NotAhead PCT].

Definition PRESERVE_FILES : gset str := {[ py "gui"; py "screens" ]}.

Definition PRESERVE_WORDS : gset str :=
  list_to_set (map py
    [ "About"; "After Choices"; "Auto"; "Back"; "Disable"; "Display";
      "Enter"; "Escape"; "Fullscreen"; "Help"; "History"; "Load";
      "Main Menu"; "Menu"; "No"; "Preference"; "Preferences"; "Prefs";
      "Q.Load"; "Q.Save"; "Quit"; "Return"; "Rollback Side"; "Save";
      "Skip"; "Space"; "Start"; "Tab"; "Transitions"; "Unseen Text";
      "Window"; "Yes" ]%string).

(** ** [TranslationMatch] *)

(** The dataclass without its [match] field, which nothing reads. *)
Record TranslationMatch := {
  full : str;
  head : str;
  src : str;
  dst : str;
}.

(** The constructor with [__post_init__]: [dst] is stored with every
    percent sign that stands alone doubled. *)
Definition mkTranslationMatch (full head src dst : str) : TranslationMatch :=
  {| full := full; head := head; src := src;
     dst := Re.sub PERCENT (py "%%") dst |}.

(** ** [Pattern] *)

(** The first pattern of [Pattern.translation]: the pair of an [old] and a
    [new] string.  Groups: [head], [src], the white space (3), [dst]. *)
Definition PATTERN_OLD_NEW : Re.regex :=
  Re.seq
    [ Re.Group "head"
        (Re.seq [ Re.lit (pyq "old '"); Re.Group "src" (Re.Star Re.dot);
                  Re.Chr QUOTE; Re.Group "3" (Re.Plus Re.space);
                  Re.lit (py "new ") ]);
      Re.Chr QUOTE; Re.Group "dst" (Re.Star Re.dot); Re.Chr QUOTE ].

(** The second pattern of [Pattern.translation]: a commented say statement
    and the statement of the same speaker under it.  Groups: [head], [char],
    [src], the white space (4), [dst]; the speaker is matched again by a
    back-reference. *)
Definition PATTERN_SAY : Re.regex :=
  Re.seq
    [ Re.Group "head"
        (Re.seq [ Re.lit (py "# "); Re.Group "char" (Re.Star Re.word);
                  Re.Star Re.space; Re.Chr QUOTE;
                  Re.Group "src" (Re.Star Re.dot); Re.Chr QUOTE;
                  Re.Group "4" (Re.Plus Re.space); Re.Backref "char";
                  Re.Chr " "%char ]);
      Re.Chr QUOTE; Re.Group "dst" (Re.Star Re.dot); Re.Chr QUOTE ].

(** [Pattern.character]: a call of [Character] with a string literal, the
    name (group 1) taken lazily up to the next double quote. *)
Definition PATTERN_CHARACTER : Re.regex :=
  Re.seq
    [ Re.Star Re.dot; Re.lit (pyq "Character('"); Re.Group "1" (Re.PlusLazy Re.dot);
      Re.Chr QUOTE; Re.Star Re.dot ].

(** The test of [_edit_side_by_side] on a character name: the source as a
    whole is one bracket pair, [^], an opening bracket, any run without a
    newline, a closing bracket, [$]. *)
Definition PATTERN_BRACKETED : Re.regex :=
  Re.seq [ Re.Bol; Re.Chr "["%char; Re.Star Re.dot; Re.Chr "]"%char; Re.Eol ].

Record Pattern := {
  translation : list Re.regex;
  character : Re.regex;
}.

Definition default_Pattern : Pattern :=
  {| translation := [PATTERN_OLD_NEW; PATTERN_SAY];
     character := PATTERN_CHARACTER |}.

(** [Pattern.iter_tl]: the matches of the first pattern, then those of the
    second, each made into a [TranslationMatch] from the groups [head],
    [src] and [dst].  The patterns of the module define these groups and
    every match fills them; for a pattern given by the caller that lacks
    one of them, [match.group] raises [IndexError], which is not modelled:
    what is stated of the entries of such patterns is stated of the matches
    alone. *)
Definition iter_tl (pat : Pattern) (text : str) : list TranslationMatch :=
  map (fun m => mkTranslationMatch (Re.whole m) (Re.group m "head")
                  (Re.group m "src") (Re.group m "dst"))
      (concat (map (fun p => Re.finditer p text) (translation pat))).

(** ** [RpyReader] *)

(** [for line in f]: the lines of a text, each with its newline. *)
Fixpoint readlines_from (cur s : str) : list str :=
  match s with
  | [] => match cur with [] => [] | _ :: _ => [rev cur] end
  | c :: s' =>
      if chr_eqb c LF then rev (c :: cur) :: readlines_from [] s'
      else readlines_from (c :: cur) s'
  end.

Definition readlines (s : str) : list str := readlines_from [] s.

(** [not line.strip()] *)
Definition blank (line : str) : bool := negb (Str.truthy (Str.strip line)).

(** [RpyReader.iter_chunk]: [lines] is the block being accumulated; a blank
    line closes it, and what is left at the end is yielded too, even when
    empty. *)
Fixpoint iter_chunk_from (lines : list str) (rest : list str) : list (list str) :=
  match rest with
  | [] => [lines]
  | line :: rest' =>
      let lines' := lines ++ [line] in
      if blank line then lines' :: iter_chunk_from [] rest'
      else iter_chunk_from lines' rest'
  end.

Definition iter_chunk (content : str) : list (list str) :=
  iter_chunk_from [] (readlines content).

(** [itertools.batched(it, n)] for [n >= 1]: [cur] is the batch being
    filled. *)
Fixpoint batched_from {A} (n : nat) (cur : list A) (l : list A) : list (list A) :=
  match l with
  | [] => match cur with [] => [] | _ :: _ => [cur] end
  | x :: l' =>
      let cur' := cur ++ [x] in
      if (length cur' =? n)%nat then cur' :: batched_from n [] l'
      else batched_from n cur' l'
  end.

Definition batched {A} (n : nat) (l : list A) : list (list A) :=
  batched_from n [] l.

(** [''.join(chain.from_iterable(lines))] for one batch of blocks. *)
Definition join_batch (blocks : list (list str)) : str := concat (concat blocks).

(** [RpyReader.__iter__] on the content of the file, for [n >= 1]. *)
Definition reader_chunks (n : nat) (content : str) : list str :=
  map join_batch (batched n (iter_chunk content)).
(** ** Paths and the file system *)

(** A [pathlib.Path] as the list of its components.  The path fields of
    [Paths] hold component lists too; a name is one component. *)
Abbreviation path := (list str).

Module PathLib.

  (** [p.name], empty for a path without components. *)
Definition name (p : path) : str := List.last p [].

  (** [p.parent] *)
Definition parent (p : path) : path := removelast p.

  (** [name.rfind('.')] *)
Fixpoint rfind_dot (s : str) (i : nat) (found : option nat) : option nat :=
    match s with
    | [] => found
    | c :: s' =>
        rfind_dot s' (S i) (if chr_eqb c "."%char then Some i else found)
    end.

  (** [p.suffix]: from the last dot of the name on, when that dot is neither
      the first nor the last character. *)
Definition suffix (p : path) : str :=
    let nm := name p in
    match rfind_dot nm O None with
    | Some i =>
        if ((0 <? i)%nat && (i <? length nm - 1)%nat)%bool then drop i nm else []
    | None => []
    end.

  (** [p.stem] *)
Definition stem (p : path) : str :=
    let nm := name p in
    match rfind_dot nm O None with
    | Some i =>
        if ((0 <? i)%nat && (i <? length nm - 1)%nat)%bool then take i nm else nm
    | None => nm
    end.

  (** [p.with_suffix(s)]; [None] is the [ValueError] on an empty name. *)
Definition with_suffix (p : path) (s : str) : option path :=
    match name p with
    | [] => None
    | nm => Some (parent p ++ [take (length nm - length (suffix p))%nat nm ++ s])
    end.

  (** [s.endswith(e)] on a name. *)
Definition endswith (e s : str) : bool := Str.startswith (rev e) (rev s).

  (** [d] is a proper ancestor of [p]. *)
Definition under (d p : path) : bool :=
    ((length d <? length p)%nat && bool_decide (take (length d) p = d))%bool.

End PathLib.

(** What a path holds: decoded text, or the archive [shutil.make_archive]
    wrote, with the text files it packed. *)
Inductive node : Type :=
| Text (content : str)
| Zip (members : list (path * str)).

Inductive exn : Type :=
| FileNotFoundError (p : path)
| NotADirectoryError (p : path)
| UnicodeDecodeError (p : path)
| ValueError.

Inductive event : Type :=
| EvArchive (p : path)
| EvWrite (p : path)
| EvUnlink (p : path).

(** The world of a run: the regular files, the directories that stand on
    their own (the empty ones among them), the value the cached property
    [characters] holds once computed, and the mutations done so far, latest
    first. *)
Record State := {
  fs : gmap path node;
  dirs : gset path;
  cache : option (gset str);
  log : list event;
}.

Inductive result (A : Type) : Type :=
| Ok (a : A)
| Raise (e : exn).
Arguments Ok {A} a.
Arguments Raise {A} e.

(** Computations on the world that may raise: the state reached is kept
    when an exception leaves. *)
Definition M (A : Type) : Type := State -> result A * State.

Definition ret {A} (a : A) : M A := fun st => (Ok a, st).
Definition raise {A} (e : exn) : M A := fun st => (Raise e, st).
Definition bind {A B} (c : M A) (k : A -> M B) : M B :=
  fun st =>
    match c st with
    | (Ok a, st') => k a st'
    | (Raise e, st') => (Raise e, st')
    end.

Global Instance M_ret : MRet M := @ret.
Global Instance M_bind : MBind M := fun A B k c => bind c k.

(** A [for] loop threading a value. *)
Fixpoint loop_fold {A B} (f : B -> A -> M B) (l : list A) (b : B) : M B :=
  match l with
  | [] => ret b
  | x :: l' => b' ← f b x; loop_fold f l' b'
  end.

Fixpoint loop_map {A B} (f : A -> M B) (l : list A) : M (list B) :=
  match l with
  | [] => ret []
  | x :: l' => y ← f x; ys ← loop_map f l'; ret (y :: ys)
  end.

Fixpoint loop_each {A} (l : list A) (f : A -> M unit) : M unit :=
  match l with
  | [] => ret tt
  | x :: l' => f x;; loop_each l' f
  end.

Module FS.

  (** [d.is_dir()]: the base of the paths is a directory; so is every
      directory of [dirs], and every proper ancestor of a file or of a
      directory of [dirs]. *)
Definition is_dir (d : path) (st : State) : bool :=
    bool_decide (d = [])
    || bool_decide (d ∈ dirs st)
    || existsb (PathLib.under d) (map fst (map_to_list (fs st)))
    || existsb (PathLib.under d) (elements (dirs st)).

  (** A file stands at [d] or above it, where a directory is needed: the
      system call on [d], or on a path below it, fails with [ENOTDIR]. *)
Definition blocked (d : path) (st : State) : bool :=
    existsb (fun k => bool_decide (is_Some (fs st !! take k d))) (seq 1 (length d)).

  (** [p.exists()]: a file or a directory. *)
Definition exists_ (p : path) : M bool :=
    fun st => (Ok (bool_decide (is_Some (fs st !! p)) || is_dir p st), st).

  (** [p.read_text('UTF-8')] *)
Definition read_text (p : path) : M str :=
    fun st =>
      match fs st !! p with
      | Some (Text t) => (Ok t, st)
      | Some (Zip _) => (Raise (UnicodeDecodeError p), st)
      | None => (Raise (FileNotFoundError p), st)
      end.

  (** [p.write_text(t, 'UTF-8')]: the file is opened for writing in its
      directory, which is not created: without that directory the call
      raises, [NotADirectoryError] when a file stands in its way and
      [FileNotFoundError] otherwise, and nothing is written.  The two calls
      of the module write to a path that was just read as a file, or that
      was just found not to exist. *)
Definition write_text (p : path) (t : str) : M unit :=
    fun st =>
      if is_dir (PathLib.parent p) st then
        (Ok tt, {| fs := <[p := Text t]> (fs st); dirs := dirs st;
                   cache := cache st; log := EvWrite p :: log st |})
      else if blocked (PathLib.parent p) st then (Raise (NotADirectoryError p), st)
      else (Raise (FileNotFoundError p), st).

  (** [p.unlink(missing_ok=True)] *)
Definition unlink (p : path) : M unit :=
    fun st =>
      match fs st !! p with
      | Some _ =>
          (Ok tt, {| fs := delete p (fs st); dirs := dirs st;
                     cache := cache st; log := EvUnlink p :: log st |})
      | None => (Ok tt, st)
      end.

Definition text_members (d : path) (m : gmap path node) : list (path * str) :=
    omap (fun '(p, n) =>
            match n with
            | Text t => if PathLib.under d p then Some (drop (length d) p, t) else None
            | Zip _ => None
            end)
         (map_to_list m).

  (** [shutil.make_archive(base_name, 'zip', root_dir)] (Python 3.12, the
      first with [itertools.batched]).  It starts with [os.stat(root_dir)]:
      a [root_dir] that is no directory makes it raise, [NotADirectoryError]
      when a file stands there or above, [FileNotFoundError] when nothing
      does, before anything is written.  Otherwise the archive is written
      next to [base_name], its name [base_name] with [.zip] appended; in the
      one call of the module [base_name] lies beside [root_dir], so the
      directory of the archive is there. *)
Definition make_archive (base : path) (root : path) : M unit :=
    fun st =>
      let z := PathLib.parent base ++ [PathLib.name base ++ py ".zip"] in
      if is_dir root st then
        (Ok tt, {| fs := <[z := Zip (text_members root (fs st))]> (fs st);
                   dirs := dirs st; cache := cache st;
                   log := EvArchive z :: log st |})
      else if blocked root st then (Raise (NotADirectoryError root), st)
      else (Raise (FileNotFoundError root), st).

  (** A file matches [d.rglob('*.rpy')]: it lies under [d] and its name ends
      in [.rpy]. *)
Definition rpy_under (d p : path) : bool :=
    PathLib.under d p && PathLib.endswith (py ".rpy") (PathLib.name p).

  (** [d.rglob('*.rpy')], in the order the file system gives. *)
Definition rglob_rpy (d : path) : M (list path) :=
    fun st =>
      (Ok (List.filter (rpy_under d) (map fst (map_to_list (fs st)))), st).

End FS.

(** ** Configuration *)

Record Paths := {
  tl : path;                      (* 'game/tl' *)
  script : option path;           (* 'game/script.rpy' *)
  characters_path : option path;  (* [Paths.characters] *)
  dev_mode_path : path;           (* [Paths.dev_mode], 'game/__dev_mode.rpy' *)
  backup : option str;            (* 'Backup' *)
}.

Record Preserve := {
  files : gset str;
  words : gset str;
}.

Record Config := {
  language : str;
  batch_size : Z;
  linebreak_threshold : Z;
  dev_mode : bool;
  dev_script : str;
  preserve : Preserve;
}.

Definition default_Paths : Paths :=
  {| tl := [py "game"; py "tl"];
     script := Some [py "game"; py "script.rpy"];
     characters_path := None;
     dev_mode_path := [py "game"; py "__dev_mode.rpy"];
     backup := Some (py "Backup") |}.

Definition default_Preserve : Preserve :=
  {| files := PRESERVE_FILES; words := PRESERVE_WORDS |}.

Definition DEV_SCRIPT : str := py "
init 9999 python:
    config.developer = True
    config.console = True

    if 'mousedown_5' not in config.keymap['dismiss']:
        config.keymap['dismiss'].append('mousedown_5')

    try:
        config.underlay[0].keymap['quickSave'] = QuickSave()
        config.keymap['quickSave'] = 'K_F5'
    except:
        pass

    try:
        config.underlay[0].keymap['quickLoad'] = QuickLoad()
        config.keymap['quickLoad'] = 'K_F9'
    except:
        pass
".

Definition default_Config : Config :=
  {| language := py "korean"; batch_size := 100; linebreak_threshold := 12;
     dev_mode := true; dev_script := DEV_SCRIPT; preserve := default_Preserve |}.

(** ** [RenpyTranslation] *)

Record RenpyTranslation := {
  root : path;                    (* the field [path] *)
  conf : Config;
  paths : Paths;
  pattern : Pattern;
}.

(** [a or b] on optional path strings: [None] and the empty string are
    false. *)
Definition or_path (a b : option path) : option path :=
  match a with
  | Some (_ :: _) => a
  | _ => match b with Some (_ :: _) => b | _ => None end
  end.

(** [self.conf.preserve.words] and [self.conf.preserve.files] *)
Definition preserve_words (self : RenpyTranslation) : gset str :=
  words (preserve (conf self)).
Definition preserve_files (self : RenpyTranslation) : gset str :=
  files (preserve (conf self)).

Section Rewriter.
Variable self : RenpyTranslation.

  (** The cached property [characters]: computed at the first access, from
      the files as they are then, and kept. *)
Definition characters : M (gset str) :=
    fun st =>
      match cache st with
      | Some cs => (Ok cs, st)
      | None =>
          let store (cs : gset str) : M (gset str) :=
            fun st' => (Ok cs, {| fs := fs st'; dirs := dirs st';
                                  cache := Some cs; log := log st' |}) in
          match or_path (characters_path (paths self)) (script (paths self)) with
          | None => store ∅ st
          | Some rpy =>
              let p := root self ++ rpy in
              (e ← FS.exists_ p;
               if negb e then raise (FileNotFoundError p)
               else
                 text ← FS.read_text p;
                 store (list_to_set
                          (map (fun m => Re.group m "1")
                               (Re.finditer (character (pattern self)) text)))) st
          end
      end.

  (** The formatted replacements. *)
Definition fmt_src (m : TranslationMatch) : str :=
    head m ++ [QUOTE] ++ src m ++ [QUOTE].
Definition fmt_paren (m : TranslationMatch) : str :=
    head m ++ [QUOTE] ++ src m ++ py " (" ++ dst m ++ py ")" ++ [QUOTE].
Definition fmt_bar (m : TranslationMatch) : str :=
    head m ++ [QUOTE] ++ src m ++ py "  |  " ++ dst m ++ [QUOTE].
Definition fmt_newline (s : str) (m : TranslationMatch) : str :=
    head m ++ [QUOTE] ++ s ++ [BACKSLASH; "n"%char] ++ dst m ++ [QUOTE].

  (** [m.src.replace('{w}', '').replace('{p}', ' / ')] *)
Definition unbreak (s : str) : str :=
    Str.replace (py "{p}") (py " / ") (Str.replace (py "{w}") [] s).

Definition _edit_side_by_side (text : str) (m : TranslationMatch) : M (option str) :=
    cs ← characters;
    if bool_decide (Str.strip_chars (py "[]") (src m) ∈ cs) then
      if Re.matches PATTERN_BRACKETED (src m)
      then ret (Some (Str.replace (full m) (fmt_src m) text))
      else ret (Some (Str.replace (full m) (fmt_paren m) text))
    else if Str.len (src m) <=? linebreak_threshold (conf self) then
      ret (Some (Str.replace (full m) (fmt_bar m) text))
    else
      let s := unbreak (src m) in
      if negb (Str.startswith s (dst m))
      then ret (Some (Str.replace (full m) (fmt_newline s m) text))
      else ret None.

  (** The guard at the head of [_edit]. *)
Definition noop_guard (m : TranslationMatch) : bool :=
    Str.startswith (src m) (dst m)
    || (Str.startswith (py "old:") (src m) && Str.startswith (py "new:") (dst m)).

Definition _edit (text : str) (m : TranslationMatch) (preserve : bool)
      : M (option str) :=
    if noop_guard m then ret None
    else if preserve
            || bool_decide (Str.strip_chars (py ".") (Str.strip (src m))
                            ∈ preserve_words self)
    then ret (Some (Str.replace (full m) (fmt_src m) text))
    else _edit_side_by_side text m.
End Rewriter.

Section Run.
Variable self : RenpyTranslation.

  (** One turn of the loop of [_rpy]: the text is rebound when [_edit]
      returns a string that is true, that is neither [None] nor empty. *)
Definition _rpy_step (preserve : bool) (text : str) (m : TranslationMatch) : M str :=
    t ← _edit self text m preserve;
    ret (match t with
         | Some t' => if Str.truthy t' then t' else text
         | None => text
         end).

  (** [_rpy]: the matches are those of the text as it came in; the edits
      are applied in turn to the text as it stands. *)
Definition _rpy (text : str) (preserve : bool) : M str :=
    loop_fold (_rpy_step preserve) (iter_tl (pattern self) text) text.

  (** [RpyReader(path, n)] iterated: [batched] refuses [n < 1] before the
      file is opened. *)
Definition RpyReader (p : path) (n : Z) : M (list str) :=
    if n <? 1 then raise ValueError
    else content ← FS.read_text p; ret (reader_chunks (Z.to_nat n) content).

  (** [rpy]: the rewritten text of one file. *)
Definition rpy (p : path) : M str :=
    let preserve := bool_decide (PathLib.stem p ∈ preserve_files self) in
    chunks ← RpyReader p (batch_size (conf self));
    texts ← loop_map (fun text => _rpy text preserve) chunks;
    ret (concat texts).

  (** The body of the loop of [__call__] for one file. *)
Definition rewrite_file (p : path) : M unit :=
    text ← rpy p;
    current ← FS.read_text p;
    if bool_decide (current ≠ text) then
      FS.write_text p text;;
      match PathLib.with_suffix p (py ".rpyc") with
      | Some c => FS.unlink c
      | None => raise ValueError
      end
    else ret tt.

Definition tl_dir : path := root self ++ tl (paths self).
Definition language_dir : path := tl_dir ++ [language (conf self)].

  (** The backup step of [__call__]. *)
Definition backup_step : M unit :=
    match backup (paths self) with
    | Some (c :: b) =>
        let base := tl_dir ++ [language (conf self) ++ c :: b] in
        match PathLib.with_suffix base (py ".zip") with
        | Some z =>
            e ← FS.exists_ z;
            if negb e then FS.make_archive base language_dir else ret tt
        | None => raise ValueError
        end
    | _ => ret tt
    end.

  (** The developer-mode step of [__call__]. *)
Definition dev_step : M unit :=
    if negb (dev_mode (conf self)) then ret tt
    else
      match PathLib.with_suffix (root self ++ dev_mode_path (paths self)) (py ".rpy") with
      | Some dev =>
          e ← FS.exists_ dev;
          if e : bool then ret tt : M unit
          else FS.write_text dev (dev_script (conf self))
      | None => raise ValueError
      end.

  (** [RenpyTranslation.__call__] *)
Definition call : M unit :=
    backup_step;;
    ps ← FS.rglob_rpy language_dir;
    match ps with
    | [] => raise (FileNotFoundError language_dir)
    | _ :: _ => loop_each ps rewrite_file;; dev_step
    end.
End Run.

(** ** Percent normalisation *)

Definition is_pct (o : option ascii) : bool :=
  match o with Some c => chr_eqb c PCT | None => false end.

(** The percent sign at index [i] of [s] stands alone: no percent sign just
    before it (where [prev] is the character before [s], if any) and none
    just after it. *)
Definition isolated_in (prev : option ascii) (s : str) (i : nat) : bool :=
  is_pct (s !! i)
  && negb (is_pct (match i with O => prev | S j => s !! j end))
  && negb (is_pct (s !! S i)).

Definition isolated (s : str) (i : nat) : bool := isolated_in None s i.

(** Every percent sign of [s] has a percent sign next to it. *)
Definition all_doubled (s : str) : Prop :=
  forall i, s !! i = Some PCT ->
    s !! S i = Some PCT \/ exists j, i = S j /\ s !! j = Some PCT.

(** What the substitution does, character by character. *)
Definition double_at (prev : option ascii) (s : str) : str :=
  concat (imap (fun i c => if isolated_in prev s i then [PCT; PCT] else [c]) s).

(** [PERCENT] matches at a position exactly when a percent sign stands
    alone there, and then it matches that one character. *)
Definition alone (pre s : str) : bool :=
  match s with
  | c :: s' =>
      chr_eqb c PCT && negb (is_pct (hd_error pre)) && negb (is_pct (hd_error s'))
  | [] => false
  end.


(** ** Replacement *)

(** The reading of the specification, [s.replace(old, new, 1)]: only the
    first occurrence is replaced. *)
Fixpoint replace_first (old new s : str) : str :=
  match s with
  | [] => []
  | c :: s' =>
      if Str.startswith old s then new ++ drop (length old) s
      else c :: replace_first old new s'
  end.

(** The replacements [_edit] can put in place of an entry. *)
Definition replacements (m : TranslationMatch) : list str :=
  [fmt_src m; fmt_paren m; fmt_bar m; fmt_newline (unbreak (src m)) m].

(** ** Frames *)

(** Nothing was written, deleted or archived between two states. *)
Definition same_files (st st' : State) : Prop :=
  fs st' = fs st /\ dirs st' = dirs st /\ log st' = log st.

(** A state that holds no value of [characters] yet; its directories are
    those of its files. *)
Definition fresh (m : gmap path node) : State :=
  {| fs := m; dirs := ∅; cache := None; log := [] |}.

(** The state with the archive [z] added. *)
Definition archived (z : path) (members : list (path * str)) (st : State) : State :=
  {| fs := <[z := Zip members]> (fs st); dirs := dirs st; cache := cache st;
     log := EvArchive z :: log st |}.

(** The state with the text [t] written to [p]. *)
Definition written (p : path) (t : str) (st : State) : State :=
  {| fs := <[p := Text t]> (fs st); dirs := dirs st; cache := cache st;
     log := EvWrite p :: log st |}.

(** The error of a system call that needs the directory [d] and does not
    find it, reported for the path [p]. *)
Definition no_directory (d p : path) (st : State) : exn :=
  if FS.blocked d st then NotADirectoryError p else FileNotFoundError p.

(** ** Entries that need the characters *)

(** The entry passes the guard and the preservation test of [_edit] and so
    reaches [_edit_side_by_side], whose first step reads [characters]. *)
Definition needs_characters (self : RenpyTranslation) (preserve : bool)
    (m : TranslationMatch) : bool :=
  negb (noop_guard m)
  && negb (preserve
           || bool_decide (Str.strip_chars (py ".") (Str.strip (src m))
                           ∈ preserve_words self)).

(** Some entry of some chunk of the file [p], read with the batch size of
    the configuration, needs the characters. *)
Definition file_needs_characters (self : RenpyTranslation) (p : path)
    (content : str) : bool :=
  existsb
    (fun chunk =>
       existsb (needs_characters self
                  (bool_decide (PathLib.stem p ∈ preserve_files self)))
         (iter_tl (pattern self) chunk))
    (reader_chunks (Z.to_nat (batch_size (conf self))) content).

(** ** The fixture of [tests/test_rptl.py] and small fixtures *)

Definition test_conf : Config :=
  {| language := py "korean"; batch_size := 100; linebreak_threshold := 10;
     dev_mode := true; dev_script := DEV_SCRIPT; preserve := default_Preserve |}.

Definition test_self : RenpyTranslation :=
  {| root := [py "tmp"]; conf := test_conf; paths := default_Paths;
     pattern := default_Pattern |}.

Definition SCRIPT : str := pyq "
# Characters
define c1 = Character('character1')
define c2 = Character('character2')
".

Definition RPY : str := pyq "
translate korean strings:

    # source.rpy:99
    old 's1'
    new 's2'

# source.rpy:65
translate korean abcdef:

    # c1 's3'
    c1 's4'

translate korean strings:

    # source.rpy:99
    old '[character1]'
    new '[character2]'

translate korean strings:

    # source.rpy:99
    old 'character1'
    new 'character2'

translate korean strings:

    # source.rpy:99
    old 'long{p}string{w}'
    new '%translated'
".

Definition script_path : path := [py "tmp"; py "game"; py "script.rpy"].
Definition tl_file (name : string) : path :=
  [py "tmp"; py "game"; py "tl"; py "korean"; py name].

Definition test_fs : gmap path node :=
  <[ script_path := Text SCRIPT ]>
    (<[ tl_file "gui.rpy" := Text RPY ]>
       (<[ tl_file "scenario.rpy" := Text RPY ]> ∅)).

(** A project with the script and one translation file. *)
Definition one_file (name : string) (content : str) : gmap path node :=
  <[ script_path := Text SCRIPT ]> (<[ tl_file name := Text content ]> ∅).

(** The characters of the test project. *)
Definition test_characters : gset str := {[ py "character1"; py "character2" ]}.

(** A state in which [characters] has been computed for the test project. *)
Definition warm (m : gmap path node) : State :=
  {| fs := m; dirs := ∅; cache := Some test_characters; log := [] |}.

(** [rt.characters == cs], false before the property is computed. *)
Definition characters_are (cs : gset str) (st : State) : bool :=
  match cache st with Some c => bool_decide (c = cs) | None => false end.

(** The text of a file, empty when there is none. *)
Definition text_at (p : path) (st : State) : str :=
  match fs st !! p with Some (Text t) => t | _ => [] end.

(** The same entry twice in one chunk. *)
Definition twice_text : str := pyq "    old 'a'
    new 'b'

    old 'a'
    new 'b'
".

Definition twice_entry : TranslationMatch :=
  mkTranslationMatch (pyq "old 'a'
    new 'b'") (pyq "old 'a'
    new ") (py "a") (py "b").

(** A source with a percent sign, left untranslated. *)
Definition percent_text : str := pyq "    old 'a%b'
    new 'a%b'
".

(** A translation that keeps the source and goes on. *)
Definition kept_text : str := pyq "    old 'a'
    new 'ab'
".

Definition kept_entry : TranslationMatch :=
  mkTranslationMatch (pyq "old 'a'
    new 'ab'") (pyq "old 'a'
    new ") (py "a") (py "ab").

(** A long source behind the marker of a raw entry. *)
Definition marker_text : str := pyq "    old 'old: long{p}string{w}'
    new 'new: x'
".

Definition marker_entry : TranslationMatch :=
  mkTranslationMatch (pyq "old 'old: long{p}string{w}'
    new 'new: x'") (pyq "old 'old: long{p}string{w}'
    new ") (py "old: long{p}string{w}") (py "new: x").

(** The long entry of the test fixture. *)
Definition long_text : str := pyq "    old 'long{p}string{w}'
    new '%translated'
".

Definition long_entry : TranslationMatch :=
  mkTranslationMatch (pyq "old 'long{p}string{w}'
    new '%translated'") (pyq "old 'long{p}string{w}'
    new ") (py "long{p}string{w}") (py "%translated").

(** ** Blocks *)

(** A block closed by a blank line: lines that are not blank, then one that
    is. *)
Definition closed_block (b : list str) : Prop :=
  exists ls l, b = ls ++ [l] /\ Forall (fun x => blank x = false) ls /\ blank l = true.

(** The block left open at the end of the file: no blank line in it. *)
Definition open_block (b : list str) : Prop :=
  Forall (fun x => blank x = false) b.

(** ** The pass, block by block *)

(** What [_edit] puts in place of the full match of [m] when the characters
    are [cs]; [None] when it returns [None]. *)
Definition replacement (self : RenpyTranslation) (cs : gset str) (preserve : bool)
    (m : TranslationMatch) : option str :=
  if noop_guard m then None
  else if preserve
          || bool_decide (Str.strip_chars (py ".") (Str.strip (src m))
                          ∈ preserve_words self)
  then Some (fmt_src m)
  else if bool_decide (Str.strip_chars (py "[]") (src m) ∈ cs) then
    if Re.matches PATTERN_BRACKETED (src m) then Some (fmt_src m)
    else Some (fmt_paren m)
  else if Str.len (src m) <=? linebreak_threshold (conf self) then Some (fmt_bar m)
  else if negb (Str.startswith (unbreak (src m)) (dst m))
  then Some (fmt_newline (unbreak (src m)) m)
  else None.

(** One turn of the loop of [_rpy], on the text alone. *)
Definition rewrite_step (self : RenpyTranslation) (cs : gset str) (preserve : bool)
    (text : str) (m : TranslationMatch) : str :=
  match replacement self cs preserve m with
  | Some new =>
      if Str.truthy (Str.replace (full m) new text)
      then Str.replace (full m) new text else text
  | None => text
  end.

(** What [_rpy] makes of a text when the characters are [cs]. *)
Definition rewritten (self : RenpyTranslation) (cs : gset str) (preserve : bool)
    (text : str) : str :=
  fold_left (rewrite_step self cs preserve) (iter_tl (pattern self) text) text.

(** The file rewritten block by block: what the pass gives with one block
    to a chunk. *)
Definition rewritten_by_block (self : RenpyTranslation) (cs : gset str) (p : path)
    (content : str) : str :=
  concat (map (rewritten self cs (bool_decide (PathLib.stem p ∈ preserve_files self)))
              (map (fun b => concat b) (iter_chunk content))).

(** The texts a block goes through while [_rpy] rewrites it on its own:
    the block as read, and the block after each of its entries in turn. *)
Definition versions (self : RenpyTranslation) (cs : gset str) (preserve : bool)
    (x : str) : list str :=
  map (fun k => fold_left (rewrite_step self cs preserve)
                  (take k (iter_tl (pattern self) x)) x)
      (seq 0 (S (length (iter_tl (pattern self) x)))).

Global Instance Match_eq_dec : EqDecision Re.Match.
Proof. solve_decision. Defined.

(** In a chunk made of the blocks [xs], each pattern finds the entries it
    finds in the blocks one by one: no entry lies across two blocks. *)
Definition found_by_block (pat : Pattern) (xs : list str) : bool :=
  forallb (fun r => bool_decide (Re.finditer r (concat xs)
                                 = concat (map (Re.finditer r) xs)))
          (translation pat).

(** [needle in s] *)
Fixpoint contains (needle s : str) : bool :=
  Str.startswith needle s
  || match s with [] => false | _ :: s' => contains needle s' end.

(** In a chunk made of the blocks [xs], the full text of an entry that
    [_edit] rewrites occurs in no block but its own, neither as the block is
    read nor as it stands after any of its own entries was rewritten. *)
Definition apart (self : RenpyTranslation) (cs : gset str) (preserve : bool)
    (xs : list str) : bool :=
  forallb
    (fun '(i, xi) =>
       forallb
         (fun m =>
            match replacement self cs preserve m with
            | None => true
            | Some _ =>
                forallb
                  (fun '(j, xj) =>
                     (i =? j)%nat
                     || forallb (fun v => negb (contains (full m) v))
                          (versions self cs preserve xj))
                  (imap pair xs)
            end)
         (iter_tl (pattern self) xi))
    (imap pair xs).

(** The texts of the blocks of a batch. *)
Definition block_texts (g : list (list str)) : list str :=
  map (fun b => concat b) g.

(** The file [content] read with the batch size [n]: in every chunk the
    entries are found block by block and stand apart. *)
Definition chunk_safe (self : RenpyTranslation) (cs : gset str) (p : path)
    (n : nat) (content : str) : bool :=
  forallb
    (fun g =>
       found_by_block (pattern self) (block_texts g)
       && apart self cs (bool_decide (PathLib.stem p ∈ preserve_files self))
            (block_texts g))
    (batched n (iter_chunk content)).

(** The configuration [self] with another batch size. *)
Definition set_batch_size (self : RenpyTranslation) (n : Z) : RenpyTranslation :=
  {| root := root self;
     conf := {| language := language (conf self); batch_size := n;
                linebreak_threshold := linebreak_threshold (conf self);
                dev_mode := dev_mode (conf self);
                dev_script := dev_script (conf self);
                preserve := preserve (conf self) |};
     paths := paths self; pattern := pattern self |}.

(** The test project with another batch size. *)
Definition with_batch_size (n : Z) : RenpyTranslation :=
  {| root := root test_self;
     conf := {| language := language test_conf; batch_size := n;
                linebreak_threshold := linebreak_threshold test_conf;
                dev_mode := dev_mode test_conf; dev_script := dev_script test_conf;
                preserve := preserve test_conf |};
     paths := paths test_self; pattern := pattern test_self |}.

(** An entry with a blank line between its two strings. *)
Definition gap_text : str := pyq "    old 'a'

    new 'b'
".

(** The text of the entry of the first block stands inside the entry of the
    second. *)
Definition inner_text : str := pyq "    old 'a'
    new 'b'

    old 'x' old 'a'
    new 'b'
".

(** ** Projects for the run *)

(** The language directory holds no translation script, only notes. *)
Definition notes_fs : gmap path node :=
  <[ script_path := Text SCRIPT ]> (<[ tl_file "notes.txt" := Text (py "todo") ]> ∅).

(** The test project without its script, the source of the characters. *)
Definition no_script_fs : gmap path node :=
  <[ tl_file "gui.rpy" := Text RPY ]> (<[ tl_file "scenario.rpy" := Text RPY ]> ∅).

Definition backup_zip : path := [py "tmp"; py "game"; py "tl"; py "koreanBackup.zip"].

(** A source with a percent sign. *)
Definition sale_text : str := pyq "    old '50% off'
    new 'sale'
".


(** ** Tactics *)

(** Membership in a concrete set, and the like, settled by evaluation. *)
Ltac decide_by_computing :=
  match goal with
  | |- ¬ ?P => apply (bool_decide_eq_false_1 P); vm_compute; reflexivity
  | |- ?P => apply (bool_decide_eq_true_1 P); vm_compute; reflexivity
  end.

(** ** Lines and blocks, as text *)

(** The characters are [cs] at every access from the state [st] on. *)
Definition knows (self : RenpyTranslation) (cs : gset str) (st : State) : Prop :=
  exists st1, characters self st = (Ok cs, st1).

(** A line with its line end, and a last line without one. *)
Definition line_lf (l : str) : Prop := exists b, l = b ++ [LF] /\ LF ∉ b.
Definition line_open (l : str) : Prop := l ≠ [] /\ LF ∉ l.

(** The lines of a file: each has its line end, but perhaps the last. *)
Definition lines_ok (L : list str) : Prop :=
  Forall (fun l => line_lf l \/ line_open l) L
  /\ forall L1 l L2, L = L1 ++ l :: L2 -> L2 ≠ [] -> line_lf l.

(** The lines of a block: only the last may be blank or lack its line
    end. *)
Definition block_ok (B : list str) : Prop :=
  Forall (fun l => line_lf l \/ line_open l) B
  /\ forall B1 l B2, B = B1 ++ l :: B2 -> B2 ≠ [] -> line_lf l /\ blank l = false.

(** Consecutive blocks of a file: each but the last ends at its blank line,
    which has its line end unless nothing follows it. *)
Inductive sep_ok : list (list str) -> Prop :=
| sep_ok_nil : sep_ok []
| sep_ok_one B : block_ok B -> sep_ok [B]
| sep_ok_cons ls l B' Bs :
    block_ok (ls ++ [l]) -> blank l = true ->
    line_lf l \/ concat (B' :: Bs) = [] ->
    sep_ok (B' :: Bs) -> sep_ok ((ls ++ [l]) :: B' :: Bs).

(** The text [x], followed by [rest], ends in a line of white space that
    stands at the start of [x] or after a line end, and that has its own
    line end unless [rest] is empty. *)
Definition closed_text (x rest : str) : Prop :=
  exists a l,
    x = a ++ l /\ (a = [] \/ exists a0, a = a0 ++ [LF])
    /\ l ≠ [] /\ Forall (fun c => Str.isspace c = true) l
    /\ ((exists l0, l = l0 ++ [LF]) \/ rest = []).

(** The texts of consecutive blocks. *)
Inductive separated : list str -> Prop :=
| separated_nil : separated []
| separated_one x : separated [x]
| separated_cons x x' xs :
    closed_text x (concat (x' :: xs)) -> separated (x' :: xs) ->
    separated (x :: x' :: xs).

(** A line of white space between two line ends is the end of [x]. *)
Definition no_inner_blank (x : str) : Prop :=
  forall u w v,
    x = u ++ [LF] ++ w ++ [LF] ++ v ->
    Forall (fun c => Str.isspace c = true) w -> v = [].

(** The full text of an entry of the module's patterns found in a block:
    it starts with a character that is no white space, ends with a quote,
    and holds no line of white space between two line ends. *)
Definition entry_text (f : str) : Prop :=
  (exists c f', f = c :: f' /\ Str.isspace c = false)
  /\ (exists f0, f = f0 ++ [QUOTE])
  /\ (forall a w b,
        f = a ++ [LF] ++ w ++ [LF] ++ b ->
        Forall (fun c => Str.isspace c = true) w -> False).

(** ** What a pattern matches

    The matcher read as a relation: at the position after [pre], the
    pattern takes the text [w], with [s] left after it, and turns the groups
    [g] into [g'].  The relation says which texts a pattern can take, not
    which of them the matcher prefers. *)
Inductive takes : Re.regex -> str -> str -> str -> Re.env -> Re.env -> Prop :=
| takes_Eps pre s g :
    takes Re.Eps pre [] s g g
| takes_Chr c pre s g :
    takes (Re.Chr c) pre [c] s g g
| takes_Cls p x pre s g :
    p x = true -> takes (Re.Cls p) pre [x] s g g
| takes_Star p w pre s g :
    Forall (fun x => p x = true) w -> takes (Re.Star p) pre w s g g
| takes_StarLazy p w pre s g :
    Forall (fun x => p x = true) w -> takes (Re.StarLazy p) pre w s g g
| takes_Cat r1 r2 pre w1 w2 s g g1 g2 :
    takes r1 pre w1 (w2 ++ s) g g1 ->
    takes r2 (rev w1 ++ pre) w2 s g1 g2 ->
    takes (Re.Cat r1 r2) pre (w1 ++ w2) s g g2
| takes_Group n r pre w s g g1 :
    takes r pre w s g g1 -> takes (Re.Group n r) pre w s g ((n, w) :: g1)
| takes_Backref n w pre s g :
    Re.lookup n g = Some w -> takes (Re.Backref n) pre w s g g
| takes_NotBehind c pre s g :
    hd_error pre ≠ Some c -> takes (Re.NotBehind c) pre [] s g g
| takes_NotAhead c pre s g :
    hd_error s ≠ Some c -> takes (Re.NotAhead c) pre [] s g g
| takes_Bol s g :
    takes Re.Bol [] [] s g g
| takes_Eol pre s g :
    s = [] \/ s = [LF] -> takes Re.Eol pre [] s g g.

(** The match [m] of [r] lies in [text], after [a] and before [b]. *)
Definition match_in (r : Re.regex) (text : str) (m : Re.Match) : Prop :=
  exists a b,
    text = a ++ Re.whole m ++ b
    /\ takes r (rev a) (Re.whole m) b [] (Re.groups m).

(** ** The anatomy of an entry *)

(** The head of an entry of the first pattern: [old], the quoted source,
    white space, [new] and a blank. *)
Definition old_new_head (m : TranslationMatch) : Prop :=
  exists ws,
    head m = py "old " ++ [QUOTE] ++ src m ++ [QUOTE] ++ ws ++ py "new "
    /\ ws ≠ [] /\ Forall (fun c => Str.isspace c = true) ws.

(** The head of an entry of the second pattern: the say statement in a
    comment, white space, the same speaker again and a blank. *)
Definition say_head (m : TranslationMatch) : Prop :=
  exists who sp ws,
    head m = py "# " ++ who ++ sp ++ [QUOTE] ++ src m ++ [QUOTE] ++ ws ++ who ++ py " "
    /\ Forall (fun c => Re.word c = true) who
    /\ Forall (fun c => Str.isspace c = true) sp
    /\ ws ≠ [] /\ Forall (fun c => Str.isspace c = true) ws.

(** Inversion of [takes] on a pattern given by its constructors. *)
Ltac takes_inv :=
  repeat match goal with
    | H : takes (Re.Cat _ _) _ _ _ _ _ |- _ => inversion H; subst; clear H
    | H : takes (Re.Group _ _) _ _ _ _ _ |- _ => inversion H; subst; clear H
    | H : takes (Re.Chr _) _ _ _ _ _ |- _ => inversion H; subst; clear H
    | H : takes (Re.Cls _) _ _ _ _ _ |- _ => inversion H; subst; clear H
    | H : takes (Re.Star _) _ _ _ _ _ |- _ => inversion H; subst; clear H
    | H : takes (Re.StarLazy _) _ _ _ _ _ |- _ => inversion H; subst; clear H
    | H : takes (Re.Backref _) _ _ _ _ _ |- _ => inversion H; subst; clear H
    | H : takes Re.Eps _ _ _ _ _ |- _ => inversion H; subst; clear H
    | H : takes Re.Bol _ _ _ _ _ |- _ => inversion H; subst; clear H
    | H : takes Re.Eol _ _ _ _ _ |- _ => inversion H; subst; clear H
    end.

(** ** Stripping *)

(** The text [w] is not empty and neither its first nor its last character
    is in the class [p]: stripping [p] leaves it whole. *)
Definition edges (p : ascii -> bool) (w : str) : Prop :=
  exists x y,
    hd_error w = Some x /\ hd_error (rev w) = Some y
    /\ p x = false /\ p y = false.

(** The classes stripped by [_edit] and [_edit_side_by_side]. *)
Definition is_period (c : ascii) : bool := existsb (chr_eqb c) (py ".").
Definition is_bracket (c : ascii) : bool := existsb (chr_eqb c) (py "[]").

(** Entries for the decisions of [_edit]. *)
Definition save_entry : TranslationMatch :=
  mkTranslationMatch (pyq "old ' ..Save. '
    new 'keep'") (pyq "old ' ..Save. '
    new ") (py " ..Save. ") (py "keep").

Definition name_entry : TranslationMatch :=
  mkTranslationMatch (pyq "old 'character1'
    new 'character2'") (pyq "old 'character1'
    new ") (py "character1") (py "character2").

Definition bracket_entry : TranslationMatch :=
  mkTranslationMatch (pyq "old '[character1]'
    new '[character2]'") (pyq "old '[character1]'
    new ") (py "[character1]") (py "[character2]").

Definition short_entry : TranslationMatch :=
  mkTranslationMatch (pyq "old 's1'
    new 's2'") (pyq "old 's1'
    new ") (py "s1") (py "s2").

(** ** What a run may write *)

(** The paths a run may create, write or delete: the backup archive, the
    translation scripts under the language directory and their compiled
    siblings, and the developer-mode file. *)
Definition may_touch (self : RenpyTranslation) (p : path) : Prop :=
  (exists b, backup (paths self) = Some b
             /\ p = tl_dir self ++ [language (conf self) ++ b ++ py ".zip"])
  \/ (exists q, FS.rpy_under (language_dir self) q = true
                /\ (p = q \/ PathLib.with_suffix q (py ".rpyc") = Some p))
  \/ PathLib.with_suffix (root self ++ dev_mode_path (paths self)) (py ".rpy") = Some p.

(** A project with a developer-mode file of the user's own. *)
Definition own_dev_fs : gmap path node :=
  <[ [py "tmp"; py "game"; py "__dev_mode.rpy"] := Text (py "mine") ]> test_fs.
(** * Properties *)

(** ** The percent substitution *)

Lemma captured_one (c : ascii) (pre : str) : Re.captured pre (c :: pre) = [c].
Proof.
  unfold Re.captured. simpl length.
  replace (S (length pre) - length pre)%nat with 1%nat by lia.
  reflexivity.
Qed.

Lemma isolated_in_S prev c s i :
  isolated_in prev (c :: s) (S i) = isolated_in (Some c) s i.
Proof. unfold isolated_in. destruct i; reflexivity. Qed.

Lemma double_at_cons prev c s :
  double_at prev (c :: s) =
  (if isolated_in prev (c :: s) 0 then [PCT; PCT] else [c]) ++ double_at (Some c) s.
Proof.
  unfold double_at. rewrite imap_cons. simpl concat.
  reflexivity.
Qed.

Lemma chr_eqb_eq a b : chr_eqb a b = true <-> a = b.
Proof. apply Ascii.eqb_eq. Qed.

Lemma match_at_PERCENT (pre s : str) :
  Re.match_at PERCENT pre s =
  if alone pre s
  then Some {| Re.whole := [PCT]; Re.groups := [("1"%string, [PCT])] |}
  else None.
Proof.
  unfold Re.match_at, PERCENT, alone.
  destruct s as [|c s]; [destruct pre as [|x pre]; cbn; [|destruct (chr_eqb x PCT)]; reflexivity|].
  cbn -[chr_eqb Re.captured]. rewrite captured_one.
  destruct pre as [|x pre]; [|cbn -[chr_eqb]; destruct (chr_eqb x PCT) eqn:Ex];
    (destruct (chr_eqb c PCT) eqn:Ec;
     [apply chr_eqb_eq in Ec; subst c;
      destruct s as [|y s]; [|cbn -[chr_eqb]; destruct (chr_eqb y PCT) eqn:Ey]|]);
    reflexivity.
Qed.

Lemma alone_isolated (pre : str) (c : ascii) (s : str) :
  alone pre (c :: s) = isolated_in (hd_error pre) (c :: s) 0.
Proof. unfold alone, isolated_in. destruct s; reflexivity. Qed.

(** [PERCENT.sub] from any position doubles the percent signs that stand
    alone and copies every other character. *)
Lemma sub_scan_PERCENT (s pre : str) :
  Re.sub_scan PERCENT (py "%%") pre s O = double_at (hd_error pre) s.
Proof.
  revert pre. induction s as [|c s IH]; intros pre.
  - unfold Re.sub_scan. rewrite match_at_PERCENT. reflexivity.
  - specialize (IH (c :: pre)). change (hd_error (c :: pre)) with (Some c) in IH.
    rewrite double_at_cons, <- alone_isolated, <- IH.
    unfold Re.sub_scan; fold Re.sub_scan. rewrite match_at_PERCENT.
    destruct (alone pre (c :: s)); reflexivity.
Qed.

Lemma sub_PERCENT (s : str) : Re.sub PERCENT (py "%%") s = double_at None s.
Proof. apply (sub_scan_PERCENT s []). Qed.

Lemma is_pct_true (o : option ascii) : is_pct o = true <-> o = Some PCT.
Proof.
  destruct o as [c|]; simpl; [|split; discriminate].
  rewrite chr_eqb_eq. split; congruence.
Qed.

Lemma is_pct_false (o : option ascii) : is_pct o = false <-> o ≠ Some PCT.
Proof.
  rewrite <- is_pct_true. destruct (is_pct o); split; congruence.
Qed.

Lemma concat_imap_singleton {A} (l : list A) :
  concat (imap (fun _ c => [c]) l) = l.
Proof.
  induction l as [|x l IH]; [reflexivity|].
  rewrite imap_cons. simpl. f_equal. exact IH.
Qed.

Lemma concat_imap_copy {A} (f : nat -> A -> list A) (l : list A) :
  (forall i x, l !! i = Some x -> f i x = [x]) -> concat (imap f l) = l.
Proof.
  intros H. rewrite (imap_ext f (fun _ c => [c]) l) by exact H.
  apply concat_imap_singleton.
Qed.

Lemma concat_imap_middle {A} (f : nat -> A -> list A) (l : list A) i x :
  l !! i = Some x ->
  concat (imap f l) =
  concat (imap f (take i l)) ++ f i x
    ++ concat (imap (fun n => f (S i + n)%nat) (drop (S i) l)).
Proof.
  intros H. rewrite <- (take_drop_middle l i x H) at 1.
  rewrite imap_app, imap_cons, concat_app. simpl concat.
  assert (Hlen : length (take i l) = i).
  { apply length_take_le. apply lookup_lt_Some in H. lia. }
  rewrite Hlen, Nat.add_0_r. do 2 f_equal. f_equal.
  apply imap_ext. intros j y _. simpl. f_equal. lia.
Qed.

(** No percent sign stands alone: the text is copied. *)
Lemma double_at_none prev (s : str) :
  (forall i, isolated_in prev s i = false) -> double_at prev s = s.
Proof.
  intros H. apply concat_imap_copy. intros i x _. rewrite H. reflexivity.
Qed.

(** One percent sign stands alone, at index [i]: it is doubled and the rest
    is copied. *)
Lemma double_at_single prev (s : str) i :
  isolated_in prev s i = true ->
  (forall j, j ≠ i -> isolated_in prev s j = false) ->
  double_at prev s = take i s ++ [PCT; PCT] ++ drop (S i) s.
Proof.
  intros Hi Hj.
  assert (Hl : s !! i = Some PCT).
  { unfold isolated_in in Hi. apply andb_true_iff in Hi as [Hi _].
    apply andb_true_iff in Hi as [Hi _]. apply is_pct_true, Hi. }
  unfold double_at. rewrite (concat_imap_middle _ s i PCT Hl), Hi.
  f_equal; [|f_equal].
  - apply concat_imap_copy. intros j y Hy.
    rewrite Hj; [reflexivity|].
    apply lookup_lt_Some in Hy. rewrite length_take in Hy. lia.
  - apply concat_imap_copy. intros j y _. rewrite Hj; [reflexivity|lia].
Qed.

(** Where no two percent signs are neighbours, each one stands alone. *)
Lemma isolated_when_apart (s : str) :
  (forall i, s !! i = Some PCT -> s !! S i ≠ Some PCT) ->
  forall i, isolated s i = is_pct (s !! i).
Proof.
  intros H i. unfold isolated, isolated_in.
  destruct (is_pct (s !! i)) eqn:E; [|reflexivity].
  apply is_pct_true in E. simpl.
  assert (E1 : is_pct (s !! S i) = false) by (apply is_pct_false, H, E).
  rewrite E1, andb_true_r.
  destruct i as [|j]; [reflexivity|].
  apply negb_true_iff, is_pct_false. intros Hj. exact (H j Hj E).
Qed.

Lemma double_at_apart (s : str) :
  (forall i, s !! i = Some PCT -> s !! S i ≠ Some PCT) ->
  double_at None s =
  flat_map (fun c => if chr_eqb c PCT then [PCT; PCT] else [c]) s.
Proof.
  intros H. unfold double_at.
  rewrite (imap_ext _ (fun _ c => if chr_eqb c PCT then [PCT; PCT] else [c]) s).
  - induction s as [|c s IH]; [reflexivity|].
    rewrite imap_cons. simpl. f_equal. apply IH.
    intros i. apply (H (S i)).
  - intros i x Hx. change (isolated_in None s i) with (isolated s i).
    rewrite (isolated_when_apart s H i), Hx. reflexivity.
Qed.

Lemma no_pct_not_isolated prev (s : str) :
  PCT ∉ s -> forall i, isolated_in prev s i = false.
Proof.
  intros H i. unfold isolated_in.
  destruct (is_pct (s !! i)) eqn:E; [|reflexivity].
  apply is_pct_true in E. exfalso. apply H.
  apply list_elem_of_lookup. exists i. exact E.
Qed.

(** Every entry that [iter_tl] yields went through the constructor. *)
Lemma iter_tl_constructed (pat : Pattern) (text : str) :
  Forall (fun m => exists raw, m = mkTranslationMatch (full m) (head m) (src m) raw)
         (iter_tl pat text).
Proof.
  unfold iter_tl. apply Forall_map, Forall_forall. intros m _.
  simpl. eexists. reflexivity.
Qed.

(** C5: when an entry is constructed, a translation whose only percent sign
    standing alone is at index [i] gets that sign doubled; a translation in
    which no percent sign stands alone (all are doubled already) is kept;
    a translation without a percent sign is kept.  The constructor does
    this whatever the other fields are, and every entry [iter_tl] yields is
    made by it. *)
Theorem percent_normalisation_on_construction (f h s d : str) :
  (forall i, isolated d i = true -> (forall j, j ≠ i -> isolated d j = false) ->
     dst (mkTranslationMatch f h s d) = take i d ++ [PCT; PCT] ++ drop (S i) d)
  /\ (all_doubled d -> dst (mkTranslationMatch f h s d) = d)
  /\ (PCT ∉ d -> dst (mkTranslationMatch f h s d) = d)
  /\ full (mkTranslationMatch f h s d) = f
  /\ head (mkTranslationMatch f h s d) = h
  /\ src (mkTranslationMatch f h s d) = s
  /\ (forall pat text,
        Forall (fun m => exists raw,
                  m = mkTranslationMatch (full m) (head m) (src m) raw)
               (iter_tl pat text)).
Proof.
  unfold mkTranslationMatch; simpl. rewrite sub_PERCENT.
  split; [|split; [|split]].
  - intros i Hi Hj. apply double_at_single; assumption.
  - intros H. apply double_at_none. intros i. unfold isolated_in.
    destruct (is_pct (d !! i)) eqn:E; [|reflexivity].
    apply is_pct_true in E. destruct (H i E) as [Hn|[j [-> Hp]]].
    + apply is_pct_true in Hn. rewrite Hn, andb_false_r. reflexivity.
    + apply is_pct_true in Hp. rewrite Hp. reflexivity.
  - intros H. apply double_at_none, no_pct_not_isolated, H.
  - repeat split. intros pat text. apply iter_tl_constructed.
Qed.

Lemma percent_normalisation_on_construction_witness :
  dst (mkTranslationMatch [] [] [] (py "%translated")) = py "%%translated"
  /\ dst (mkTranslationMatch [] [] [] (py "100%%")) = py "100%%"
  /\ dst (mkTranslationMatch [] [] [] (py "s2")) = py "s2".
Proof.
  split; [|split].
  - apply (proj1 (percent_normalisation_on_construction [] [] [] (py "%translated")) O).
    + reflexivity.
    + intros j Hj. destruct j as [|j]; [congruence|].
      do 11 (destruct j as [|j]; [reflexivity|]). reflexivity.
  - apply (proj1 (proj2 (percent_normalisation_on_construction [] [] [] (py "100%%")))).
    intros i H.
    do 5 (destruct i as [|i];
          [first [ discriminate H | left; reflexivity
                 | right; eexists; split; reflexivity ]|]).
    discriminate H.
  - apply (proj1 (proj2 (proj2 (percent_normalisation_on_construction [] [] [] (py "s2"))))).
    intros H. apply list_elem_of_In in H. simpl in H.
    destruct H as [H|[H|[]]]; discriminate H.
Defined.

(** C10: the constructor doubles every percent sign that stands alone, not
    only a single one, and copies every other character: the stored
    translation is the raw one with each such sign replaced by two.  When no
    two percent signs of the raw translation are neighbours, that is every
    percent sign of it. *)
Theorem percent_doubles_every_isolated (f h s d : str) :
  dst (mkTranslationMatch f h s d) =
    concat (imap (fun i c => if isolated d i then [PCT; PCT] else [c]) d)
  /\ ((forall i, d !! i = Some PCT -> d !! S i ≠ Some PCT) ->
      dst (mkTranslationMatch f h s d) =
        flat_map (fun c => if chr_eqb c PCT then [PCT; PCT] else [c]) d).
Proof.
  unfold mkTranslationMatch; simpl. rewrite sub_PERCENT. split.
  - reflexivity.
  - apply double_at_apart.
Qed.

Lemma percent_doubles_every_isolated_witness :
  dst (mkTranslationMatch [] [] [] (py "a% b%")) = py "a%% b%%".
Proof.
  apply (proj2 (percent_doubles_every_isolated [] [] [] (py "a% b%"))).
  intros i H.
  do 5 (destruct i as [|i]; [first [discriminate H | discriminate]|]).
  discriminate H.
Defined.

(** ** [str.startswith], [str.replace], [str.split] and [str.join] *)

Lemma startswith_app (p s : str) : Str.startswith p (p ++ s) = true.
Proof.
  induction p as [|a p IH]; [reflexivity|].
  simpl. unfold chr_eqb. rewrite Ascii.eqb_refl. exact IH.
Qed.

Lemma startswith_drop (p s : str) :
  Str.startswith p s = true -> s = p ++ drop (length p) s.
Proof.
  revert s. induction p as [|a p IH]; intros s H; [reflexivity|].
  destruct s as [|b s]; [discriminate H|].
  simpl in H. apply andb_true_iff in H as [Hab Hp].
  apply chr_eqb_eq in Hab. subst b. simpl. f_equal. apply IH, Hp.
Qed.

Lemma startswith_iff (p s : str) :
  Str.startswith p s = true <-> exists t, s = p ++ t.
Proof.
  split.
  - intros H. eexists. apply startswith_drop, H.
  - intros [t ->]. apply startswith_app.
Qed.

Lemma split_scan_nonempty (sep s cur : str) (skip : nat) :
  Str.split_scan sep s cur skip ≠ [].
Proof.
  revert cur skip. induction s as [|c s IH]; intros cur skip; simpl.
  - discriminate.
  - destruct skip; [destruct (Str.startswith sep (c :: s))|]; try discriminate; apply IH.
Qed.

Lemma join_cons (sep p : str) (ps : list str) :
  ps ≠ [] -> Str.join sep (p :: ps) = p ++ sep ++ Str.join sep ps.
Proof. destruct ps; [congruence|reflexivity]. Qed.

(** [s.replace(old, new)] is [new.join(s.split(old))]. *)
Lemma replace_scan_join (old new s cur : str) (skip : nat) :
  Str.join new (Str.split_scan old s cur skip) =
  rev cur ++ Str.replace_scan old new s skip.
Proof.
  revert cur skip. induction s as [|c s IH]; intros cur skip; simpl.
  - rewrite app_nil_r. reflexivity.
  - destruct skip as [|k]; [|apply IH].
    destruct (Str.startswith old (c :: s)).
    + rewrite join_cons by apply split_scan_nonempty.
      rewrite IH. reflexivity.
    + rewrite IH. simpl. rewrite <- app_assoc. reflexivity.
Qed.

(** [old.join(s.split(old))] is [s]: the pieces are what lies between the
    occurrences. *)
Lemma split_scan_join (old s cur : str) (skip : nat) :
  old ≠ [] ->
  Str.join old (Str.split_scan old s cur skip) = rev cur ++ drop skip s.
Proof.
  intros Hold. revert cur skip. induction s as [|c s IH]; intros cur skip; simpl.
  - rewrite drop_nil, app_nil_r. reflexivity.
  - destruct skip as [|k]; [|apply IH].
    destruct (Str.startswith old (c :: s)) eqn:E.
    + rewrite join_cons by apply split_scan_nonempty.
      rewrite IH. simpl. f_equal.
      apply startswith_drop in E.
      destruct old as [|a old]; [congruence|].
      simpl in E. simpl. symmetry. exact E.
    + rewrite IH. simpl. rewrite <- app_assoc. reflexivity.
Qed.

Lemma replace_join_split (old new s : str) :
  old ≠ [] -> Str.replace old new s = Str.join new (Str.split old s).
Proof.
  intros H. unfold Str.split. rewrite replace_scan_join.
  destruct old; [congruence|reflexivity].
Qed.

Lemma join_split (old s : str) :
  old ≠ [] -> Str.join old (Str.split old s) = s.
Proof. intros H. unfold Str.split. rewrite split_scan_join by exact H. reflexivity. Qed.

(** ** Files and directories *)

Lemma In_keys (m : gmap path node) (p : path) :
  In p (map fst (map_to_list m)) <-> is_Some (m !! p).
Proof.
  rewrite in_map_iff. split.
  - intros [[q n] [<- H]]. apply list_elem_of_In, elem_of_map_to_list in H.
    exists n. exact H.
  - intros [n H]. exists (p, n). split; [reflexivity|].
    apply list_elem_of_In, elem_of_map_to_list. exact H.
Qed.



(** What lies under a directory makes it one. *)
Lemma under_is_dir (d p : path) st :
  is_Some (fs st !! p) -> PathLib.under d p = true -> FS.is_dir d st = true.
Proof.
  intros Hp Hu. unfold FS.is_dir.
  assert (E : existsb (PathLib.under d) (map fst (map_to_list (fs st))) = true).
  { apply existsb_exists. exists p. split; [apply In_keys, Hp|exact Hu]. }
  rewrite E, orb_true_r. reflexivity.
Qed.

(** ** The matcher finds only what the pattern takes *)

Lemma captured_app (w pre : str) : Re.captured pre (rev w ++ pre) = w.
Proof.
  unfold Re.captured. rewrite length_app, length_rev.
  replace (length w + length pre - length pre)%nat with (length (rev w))
    by (rewrite length_rev; lia).
  rewrite take_app_length. apply rev_involutive.
Qed.

Lemma star_greedy_sound {R} p (s pre : str) (k : str -> str -> option R) res :
  Re.star_greedy p pre s k = Some res ->
  exists w s', s = w ++ s' /\ Forall (fun x => p x = true) w
               /\ k (rev w ++ pre) s' = Some res.
Proof.
  revert pre. induction s as [|c s IH]; intros pre; simpl.
  - intros H. exists [], []. repeat split; [constructor|exact H].
  - destruct (p c) eqn:Ep.
    + destruct (Re.star_greedy p (c :: pre) s k) as [r|] eqn:E.
      * intros [= ->]. destruct (IH _ E) as (w & s' & -> & Hw & Hk).
        exists (c :: w), s'. repeat split.
        -- constructor; assumption.
        -- simpl. rewrite <- app_assoc. exact Hk.
      * intros H. exists [], (c :: s). repeat split; [constructor|exact H].
    + intros H. exists [], (c :: s). repeat split; [constructor|exact H].
Qed.

Lemma star_lazy_sound {R} p (s pre : str) (k : str -> str -> option R) res :
  Re.star_lazy p pre s k = Some res ->
  exists w s', s = w ++ s' /\ Forall (fun x => p x = true) w
               /\ k (rev w ++ pre) s' = Some res.
Proof.
  revert pre. induction s as [|c s IH]; intros pre; simpl.
  - destruct (k pre []) eqn:E; [|discriminate].
    intros [= ->]. exists [], []. repeat split; [constructor|exact E].
  - destruct (k pre (c :: s)) eqn:E.
    + intros [= ->]. exists [], (c :: s). repeat split; [constructor|exact E].
    + destruct (p c) eqn:Ep; [|discriminate].
      intros H. destruct (IH _ H) as (w & s' & -> & Hw & Hk).
      exists (c :: w), s'. repeat split.
      * constructor; assumption.
      * simpl. rewrite <- app_assoc. exact Hk.
Qed.

Lemma strip_prefix_sound (w s s' : str) :
  Re.strip_prefix w s = Some s' -> s = w ++ s'.
Proof.
  revert s. induction w as [|a w IH]; intros s; simpl.
  - intros [= ->]. reflexivity.
  - destruct s as [|b s]; [discriminate|].
    destruct (chr_eqb a b) eqn:E; [|discriminate].
    apply chr_eqb_eq in E. subst b. intros H. f_equal. apply IH, H.
Qed.

(** Whatever the matcher returns came through its continuation, called
    after a text the pattern takes. *)
Lemma run_sound {R} (r : Re.regex) :
  forall (pre s : str) (g : Re.env) (k : str -> str -> Re.env -> option R) res,
    Re.run r pre s g k = Some res ->
    exists w s' g',
      s = w ++ s' /\ takes r pre w s' g g' /\ k (rev w ++ pre) s' g' = Some res.
Proof.
  induction r as [|c|p|p|p|r1 IH1 r2 IH2|n r IH|n|c|c| |];
    intros pre s g k res; simpl.
  - intros H. exists [], s, g. repeat split; [constructor|exact H].
  - destruct s as [|x s]; [discriminate|].
    destruct (chr_eqb x c) eqn:E; [|discriminate].
    apply chr_eqb_eq in E. subst x. intros H.
    exists [c], s, g. repeat split; [constructor|exact H].
  - destruct s as [|x s]; [discriminate|].
    destruct (p x) eqn:E; [|discriminate]. intros H.
    exists [x], s, g. repeat split; [constructor; exact E|exact H].
  - intros H. apply star_greedy_sound in H as (w & s' & -> & Hw & Hk).
    exists w, s', g. repeat split; [constructor; exact Hw|exact Hk].
  - intros H. apply star_lazy_sound in H as (w & s' & -> & Hw & Hk).
    exists w, s', g. repeat split; [constructor; exact Hw|exact Hk].
  - intros H. apply IH1 in H as (w1 & s1 & g1 & -> & H1 & H).
    apply IH2 in H as (w2 & s2 & g2 & -> & H2 & H).
    exists (w1 ++ w2), s2, g2. repeat split.
    + apply app_assoc.
    + econstructor; eassumption.
    + rewrite rev_app_distr, <- app_assoc. exact H.
  - intros H. apply IH in H as (w & s' & g' & -> & Hw & H).
    rewrite captured_app in H.
    exists w, s', ((n, w) :: g'). repeat split; [constructor; exact Hw|exact H].
  - destruct (Re.lookup n g) as [w|] eqn:El; [|discriminate].
    destruct (Re.strip_prefix w s) as [s'|] eqn:Es; [|discriminate].
    apply strip_prefix_sound in Es. subst s. intros H.
    exists w, s', g. repeat split; [constructor; exact El|exact H].
  - destruct pre as [|x pre].
    + intros H. exists [], s, g. repeat split; [constructor; discriminate|exact H].
    + destruct (chr_eqb x c) eqn:E; [discriminate|]. intros H.
      exists [], s, g. repeat split; [|exact H].
      constructor. simpl. intros [= ->]. unfold chr_eqb in E.
      rewrite Ascii.eqb_refl in E. discriminate E.
  - destruct s as [|x s].
    + intros H. exists [], [], g. repeat split; [constructor; discriminate|exact H].
    + destruct (chr_eqb x c) eqn:E; [discriminate|]. intros H.
      exists [], (x :: s), g. repeat split; [|exact H].
      constructor. simpl. intros [= ->]. unfold chr_eqb in E.
      rewrite Ascii.eqb_refl in E. discriminate E.
  - destruct pre; [|discriminate]. intros H.
    exists [], s, g. repeat split; [constructor|exact H].
  - destruct s as [|x [|y s]].
    + intros H. exists [], [], g. repeat split; [constructor; left; reflexivity|exact H].
    + destruct (chr_eqb x LF) eqn:E; [|discriminate].
      apply chr_eqb_eq in E. subst x. intros H.
      exists [], [LF], g. repeat split; [constructor; right; reflexivity|exact H].
    + discriminate.
Qed.

Lemma match_at_sound (r : Re.regex) (pre s : str) (m : Re.Match) :
  Re.match_at r pre s = Some m ->
  exists s', s = Re.whole m ++ s' /\ takes r pre (Re.whole m) s' [] (Re.groups m).
Proof.
  unfold Re.match_at. intros H.
  apply run_sound in H as (w & s' & g' & -> & Hw & H).
  rewrite captured_app in H. injection H as <-.
  exists s'. split; [reflexivity|exact Hw].
Qed.

Lemma scan_sound (r : Re.regex) (text : str) :
  forall (s pre : str) (skip : nat) (m : Re.Match),
    text = rev pre ++ s ->
    In m (Re.scan r pre s skip) -> match_in r text m.
Proof.
  assert (Hat : forall pre s m, text = rev pre ++ s ->
                  Re.match_at r pre s = Some m -> match_in r text m).
  { intros pre s m Ht H. apply match_at_sound in H as (s' & -> & H).
    exists (rev pre), s'. rewrite rev_involutive. split; assumption. }
  induction s as [|c s IH]; intros pre skip m Ht.
  - destruct skip; simpl; [|intros []].
    destruct (Re.match_at r pre []) as [m0|] eqn:E; [|intros []].
    intros [<-|[]]. eapply Hat; eassumption.
  - assert (Ht' : text = rev (c :: pre) ++ s)
      by (simpl; rewrite <- app_assoc; exact Ht).
    destruct skip as [|k]; simpl; [|apply IH; exact Ht'].
    destruct (Re.match_at r pre (c :: s)) as [m0|] eqn:E.
    + intros [<-|H]; [exact (Hat _ _ _ Ht E)|].
      eapply IH; eassumption.
    + apply IH; exact Ht'.
Qed.

Lemma finditer_sound (r : Re.regex) (text : str) (m : Re.Match) :
  In m (Re.finditer r text) -> match_in r text m.
Proof. apply scan_sound. reflexivity. Qed.

Lemma takes_lit (w0 : str) :
  forall pre w s g g', takes (Re.lit w0) pre w s g g' -> w = w0 /\ g' = g.
Proof.
  induction w0 as [|c w0 IH]; intros pre w s g g' H; simpl in H.
  - inversion H; subst. split; reflexivity.
  - inversion H as [| | | | |r1 r2 pre0 w1 w2 s0 g0 g1 g2 H1 H2| | | | | |]; subst.
    inversion H1; subst. apply IH in H2 as [-> ->]. split; reflexivity.
Qed.

Lemma dot_no_newline (w : str) :
  Forall (fun x => Re.dot x = true) w -> LF ∉ w.
Proof.
  intros H Hin. rewrite Forall_forall in H.
  apply H in Hin. unfold Re.dot, chr_eqb in Hin.
  rewrite Ascii.eqb_refl in Hin. discriminate Hin.
Qed.

Lemma old_new_anatomy (text : str) (rm : Re.Match) :
  match_in PATTERN_OLD_NEW text rm ->
  Re.whole rm = Re.group rm "head" ++ [QUOTE] ++ Re.group rm "dst" ++ [QUOTE]
  /\ (LF ∉ Re.group rm "src") /\ (LF ∉ Re.group rm "dst")
  /\ exists ws,
       Re.group rm "head"
       = py "old " ++ [QUOTE] ++ Re.group rm "src" ++ [QUOTE] ++ ws ++ py "new "
       /\ ws ≠ [] /\ Forall (fun c => Str.isspace c = true) ws.
Proof.
  intros (a & b & _ & H). destruct rm as [w g]. simpl in H.
  unfold PATTERN_OLD_NEW in H. cbn [Re.seq] in H. unfold Re.Plus in H.
  takes_inv. unfold Re.group.
  cbn [Re.whole Re.groups Re.lookup String.eqb Ascii.eqb Bool.eqb default
       from_option id].
  split; [reflexivity|].
  split; [apply dot_no_newline; assumption|].
  split; [apply dot_no_newline; assumption|].
  exists (x :: w18). split; [|split].
  - simpl. rewrite <- ?app_assoc. reflexivity.
  - discriminate.
  - constructor; assumption.
Qed.

Lemma say_anatomy (text : str) (rm : Re.Match) :
  match_in PATTERN_SAY text rm ->
  Re.whole rm = Re.group rm "head" ++ [QUOTE] ++ Re.group rm "dst" ++ [QUOTE]
  /\ (LF ∉ Re.group rm "src") /\ (LF ∉ Re.group rm "dst")
  /\ exists who sp ws,
       Re.group rm "head"
       = py "# " ++ who ++ sp ++ [QUOTE] ++ Re.group rm "src" ++ [QUOTE]
         ++ ws ++ who ++ py " "
       /\ Forall (fun c => Re.word c = true) who
       /\ Forall (fun c => Str.isspace c = true) sp
       /\ ws ≠ [] /\ Forall (fun c => Str.isspace c = true) ws.
Proof.
  intros (a & b & _ & H). destruct rm as [w g]. simpl in H.
  unfold PATTERN_SAY in H. cbn [Re.seq] in H. unfold Re.Plus in H.
  takes_inv.
  match goal with
  | H : Re.lookup _ _ = Some _ |- _ => cbn in H; injection H as <-
  end.
  unfold Re.group.
  cbn [Re.whole Re.groups Re.lookup String.eqb Ascii.eqb Bool.eqb default
       from_option id].
  split; [reflexivity|].
  split; [apply dot_no_newline; assumption|].
  split; [apply dot_no_newline; assumption|].
  match goal with
  | Hs : Re.space ?c = true, Hw : Forall _ ?who, Hsp : Forall (fun _ => Re.space _ = true) ?sp
    |- context [?who ++ ?sp ++ [QUOTE] ++ _ ++ [QUOTE] ++ ([?c] ++ ?ws) ++ _] =>
      exists who, sp, (c :: ws)
  end.
  split; [|split; [|split; [|split]]].
  - simpl. rewrite <- ?app_assoc. reflexivity.
  - assumption.
  - assumption.
  - discriminate.
  - constructor; assumption.
Qed.

(** Where the entries of a chunk come from. *)
Lemma iter_tl_inv (pat : Pattern) (text : str) (m : TranslationMatch) :
  In m (iter_tl pat text) ->
  exists r rm,
    In r (translation pat) /\ match_in r text rm
    /\ m = mkTranslationMatch (Re.whole rm) (Re.group rm "head")
             (Re.group rm "src") (Re.group rm "dst").
Proof.
  unfold iter_tl. rewrite in_map_iff. intros (rm & <- & H).
  apply in_concat in H as (l & Hl & Hrm).
  apply in_map_iff in Hl as (r & <- & Hr).
  exists r, rm. split; [exact Hr|]. split; [|reflexivity].
  apply finditer_sound, Hrm.
Qed.

(** ** The per-entry edit *)

Lemma same_files_refl st : same_files st st.
Proof. repeat split; reflexivity. Qed.

Lemma same_files_trans st1 st2 st3 :
  same_files st1 st2 -> same_files st2 st3 -> same_files st1 st3.
Proof. intros (H1 & H2 & H3) (H4 & H5 & H6). repeat split; congruence. Qed.

(** [characters] reads; it writes nothing but its own cache. *)
Lemma characters_frame self st r st' :
  characters self st = (r, st') -> same_files st st'.
Proof.
  unfold characters. destruct (cache st) as [cs|].
  - intros [= <- <-]. apply same_files_refl.
  - destruct (or_path _ _) as [rpy|].
    + unfold mbind, M_bind, bind, FS.exists_, FS.read_text, raise.
      destruct (_ || _); simpl.
      * destruct (fs st !! _) as [[t|z]|]; intros [= <- <-];
          repeat split; reflexivity.
      * intros [= <- <-]. apply same_files_refl.
    + intros [= <- <-]. repeat split; reflexivity.
Qed.

Lemma characters_cached self st cs :
  cache st = Some cs -> characters self st = (Ok cs, st).
Proof. intros H. unfold characters. rewrite H. reflexivity. Qed.

(** Once computed, the characters are kept. *)
Lemma characters_stores self st cs st' :
  characters self st = (Ok cs, st') -> cache st' = Some cs.
Proof.
  unfold characters. destruct (cache st) as [c|] eqn:Ec.
  - intros [= <- <-]. exact Ec.
  - destruct (or_path _ _) as [rpy|].
    + unfold mbind, M_bind, bind, FS.exists_, FS.read_text, raise.
      destruct (_ || _); simpl; [|discriminate].
      destruct (fs st !! _) as [[t|z]|]; try discriminate.
      intros [= <- <-]. reflexivity.
    + intros [= <- <-]. reflexivity.
Qed.

(** With the source file of the characters configured and absent, the first
    access raises, and the state is as it was. *)
Lemma characters_missing self st rpy :
  cache st = None ->
  or_path (characters_path (paths self)) (script (paths self)) = Some rpy ->
  FS.exists_ (root self ++ rpy) st = (Ok false, st) ->
  characters self st = (Raise (FileNotFoundError (root self ++ rpy)), st).
Proof.
  intros Hc Hp Hf. unfold characters. rewrite Hc, Hp.
  unfold mbind, M_bind, bind. rewrite Hf. reflexivity.
Qed.

(** Whatever [_edit_side_by_side] returns as a string is the chunk with the
    full match replaced by one of the four forms. *)
Lemma edit_side_by_side_some self text m st t st' :
  _edit_side_by_side self text m st = (Ok (Some t), st') ->
  exists new, new ∈ replacements m /\ t = Str.replace (full m) new text.
Proof.
  unfold _edit_side_by_side, mbind, M_bind, bind, replacements.
  destruct (characters self st) as [[cs|e] st1]; [|discriminate].
  destruct (bool_decide _).
  - destruct (Re.matches _ _); intros [= <- <-]; eexists; split;
      [|reflexivity| |reflexivity]; set_solver.
  - destruct (_ <=? _).
    + intros [= <- <-]. eexists; split; [|reflexivity]. set_solver.
    + destruct (negb _); [|discriminate].
      intros [= <- <-]. eexists; split; [|reflexivity]. set_solver.
Qed.

Lemma edit_some self text m preserve st t st' :
  _edit self text m preserve st = (Ok (Some t), st') ->
  exists new, new ∈ replacements m /\ t = Str.replace (full m) new text.
Proof.
  unfold _edit. destruct (noop_guard m); [discriminate|].
  destruct (_ || _).
  - intros [= <- <-]. eexists; split; [|reflexivity].
    unfold replacements. set_solver.
  - apply edit_side_by_side_some.
Qed.

Lemma edit_side_by_side_frame self text m st r st' :
  _edit_side_by_side self text m st = (r, st') -> same_files st st'.
Proof.
  unfold _edit_side_by_side, mbind, M_bind, bind.
  destruct (characters self st) as [[cs|e] st1] eqn:E;
    apply characters_frame in E.
  - repeat match goal with |- context [if ?b then _ else _] => destruct b end;
      intros [= <- <-]; exact E.
  - intros [= <- <-]. exact E.
Qed.

Lemma edit_frame self text m preserve st r st' :
  _edit self text m preserve st = (r, st') -> same_files st st'.
Proof.
  unfold _edit. destruct (noop_guard m); [intros [= <- <-]; apply same_files_refl|].
  destruct (_ || _); [intros [= <- <-]; apply same_files_refl|].
  apply edit_side_by_side_frame.
Qed.

(** C2, as the code has it: [str.replace] without a count replaces every
    occurrence.  When [_edit] rewrites, the chunk is cut at each occurrence
    of the entry's full match, taken left to right without overlap, and the
    pieces are joined again with the replacement in every cut. *)
Theorem edit_replaces_every_occurrence self text m preserve st t st' :
  full m ≠ [] ->
  _edit self text m preserve st = (Ok (Some t), st') ->
  exists new,
    new ∈ replacements m
    /\ text = Str.join (full m) (Str.split (full m) text)
    /\ t = Str.join new (Str.split (full m) text).
Proof.
  intros Hfull H. apply edit_some in H as [new [Hin ->]].
  exists new. split; [exact Hin|]. split.
  - symmetry. apply join_split, Hfull.
  - apply replace_join_split, Hfull.
Qed.

(** The run of the repository's test: the assertions of [test_rptl]. *)
Example test_rptl :
  let st := snd (call test_self (fresh test_fs)) in
  fst (call test_self (fresh test_fs)) = Ok tt
  /\ characters_are test_characters st = true
  /\ text_at [py "tmp"; py "game"; py "__dev_mode.rpy"] st = DEV_SCRIPT
  /\ contains (pyq "'s1'") (text_at (tl_file "gui.rpy") st) = true
  /\ contains (pyq "'s3'") (text_at (tl_file "gui.rpy") st) = true
  /\ contains (py "s1  |  s2") (text_at (tl_file "scenario.rpy") st) = true
  /\ contains (py "s3  |  s4") (text_at (tl_file "scenario.rpy") st) = true
  /\ contains (pyq "new '[character1]'") (text_at (tl_file "scenario.rpy") st) = true
  /\ contains (py "character1 (character2)") (text_at (tl_file "scenario.rpy") st) = true
  /\ contains (py "long / string\n%%translated") (text_at (tl_file "scenario.rpy") st) = true.
Proof. vm_compute. repeat split. Qed.

Lemma edit_replaces_every_occurrence_witness :
  full twice_entry ≠ []
  /\ exists new,
       new ∈ replacements twice_entry
       /\ twice_text = Str.join (full twice_entry) (Str.split (full twice_entry) twice_text)
       /\ pyq "    old 'a'
    new 'a  |  b'

    old 'a'
    new 'a  |  b'
" = Str.join new (Str.split (full twice_entry) twice_text).
Proof.
  split; [discriminate|].
  apply (edit_replaces_every_occurrence test_self twice_text twice_entry false
           (fresh test_fs) _
           (snd (_edit test_self twice_text twice_entry false (fresh test_fs)))).
  - discriminate.
  - vm_compute. reflexivity.
Defined.

(** C2 fails as stated: with the same entry twice in a chunk, the edit of
    the first match changes the second occurrence too, so the result is not
    the chunk with the first occurrence alone replaced. *)
Lemma edit_changes_later_occurrence :
  iter_tl default_Pattern twice_text = [twice_entry; twice_entry]
  /\ fst (_edit test_self twice_text twice_entry false (fresh test_fs))
     = Ok (Some (pyq "    old 'a'
    new 'a  |  b'

    old 'a'
    new 'a  |  b'
"))
  /\ replace_first (full twice_entry) (fmt_bar twice_entry) twice_text
     = pyq "    old 'a'
    new 'a  |  b'

    old 'a'
    new 'b'
"
  /\ fst (_edit test_self twice_text twice_entry false (fresh test_fs))
     ≠ Ok (Some (replace_first (full twice_entry) (fmt_bar twice_entry) twice_text)).
Proof. vm_compute. repeat split; discriminate. Qed.

(** A prefix without a percent sign is a prefix of the normalised text
    exactly when it is one of the raw text. *)
Lemma startswith_double_at (p : str) prev (d : str) :
  PCT ∉ p -> Str.startswith p (double_at prev d) = Str.startswith p d.
Proof.
  revert prev d. induction p as [|a p IH]; intros prev d Hp; [reflexivity|].
  assert (Ha : chr_eqb a PCT = false).
  { destruct (chr_eqb a PCT) eqn:E; [|reflexivity].
    apply chr_eqb_eq in E. subst a. exfalso. apply Hp. left. }
  assert (Hp' : PCT ∉ p) by (intros H; apply Hp; right; exact H).
  destruct d as [|c d]; [reflexivity|].
  rewrite double_at_cons.
  destruct (isolated_in prev (c :: d) 0) eqn:E.
  - unfold isolated_in in E. simpl in E.
    apply andb_true_iff in E as [E _]. apply andb_true_iff in E as [E _].
    apply chr_eqb_eq in E. subst c. simpl. rewrite Ha. reflexivity.
  - simpl. rewrite IH by exact Hp'. reflexivity.
Qed.

Lemma startswith_new_normalised (raw : str) :
  Str.startswith (py "new:") (Re.sub PERCENT (py "%%") raw)
  = Str.startswith (py "new:") raw.
Proof.
  rewrite sub_PERCENT. apply startswith_double_at.
  intros H. apply list_elem_of_In in H. simpl in H.
  repeat destruct H as [H|H]; try discriminate H. exact H.
Qed.

(** X16: the guard at the head of [_edit], as the code applies it.  It
    reads the translation the entry holds, that is the one of the file with
    its lone percent signs doubled.  When that text starts with the source,
    or the source starts with [old:] and the translation of the file with
    [new:], [_edit] returns [None], the turn of the loop keeps the chunk as
    it is, and nothing in the world changes. *)
Theorem noop_guard_keeps_chunk self text (f h s raw : str) preserve st :
  Str.startswith s (Re.sub PERCENT (py "%%") raw) = true
  \/ (Str.startswith (py "old:") s = true /\ Str.startswith (py "new:") raw = true) ->
  _edit self text (mkTranslationMatch f h s raw) preserve st = (Ok None, st)
  /\ _rpy_step self preserve text (mkTranslationMatch f h s raw) st = (Ok text, st).
Proof.
  intros H.
  assert (G : noop_guard (mkTranslationMatch f h s raw) = true).
  { unfold noop_guard, mkTranslationMatch. cbn [src dst].
    rewrite startswith_new_normalised.
    destruct H as [->|[-> ->]]; [reflexivity|apply orb_true_r]. }
  assert (E : _edit self text (mkTranslationMatch f h s raw) preserve st = (Ok None, st)).
  { unfold _edit. rewrite G. reflexivity. }
  split; [exact E|].
  unfold _rpy_step, mbind, M_bind, bind. rewrite E. reflexivity.
Qed.

Lemma noop_guard_keeps_chunk_witness :
  (Str.startswith (py "a") (Re.sub PERCENT (py "%%") (py "ab")) = true
   \/ (Str.startswith (py "old:") (py "a") = true
       /\ Str.startswith (py "new:") (py "ab") = true))
  /\ _edit test_self kept_text kept_entry false (fresh test_fs)
     = (Ok None, fresh test_fs)
  /\ _rpy_step test_self false kept_text kept_entry (fresh test_fs)
     = (Ok kept_text, fresh test_fs).
Proof.
  split; [left; reflexivity|].
  apply (noop_guard_keeps_chunk test_self kept_text _ _ (py "a") (py "ab")).
  left. reflexivity.
Defined.

(** C3 at a source with a percent sign.  The translation written in the
    file starts with the source (it is the source), so the guard of [_edit]
    is meant to leave the chunk alone.  It does not: the constructor has
    doubled the percent sign of the translation before the guard compares
    it with the source, the comparison fails, and the chunk is rewritten. *)
Lemma noop_guard_misses_raw_prefix :
  map src (iter_tl default_Pattern percent_text) = [py "a%b"]
  /\ map dst (iter_tl default_Pattern percent_text) = [py "a%%b"]
  /\ Str.startswith (py "a%b") (py "a%b") = true
  /\ fst (_rpy test_self percent_text false (fresh test_fs))
     = Ok (pyq "    old 'a%b'
    new 'a%b  |  a%%b'
")
  /\ fst (_rpy test_self percent_text false (fresh test_fs)) ≠ Ok percent_text.
Proof. vm_compute. repeat split; discriminate. Qed.




(** C7, as the code has it: for an entry that the guard at the head of
    [_edit] does not keep, in a file that is not preserved, whose source is
    no preserved word, names no character and is longer than the threshold,
    and whose translation does not start with the source made one line
    (every [{w}] taken out, then every [{p}] made [ / ]), the edit puts in
    place of the full match the head, a quote, that source, a backslash and
    the letter n, the translation and a quote.  The two characters put
    between source and translation are not a newline. *)
Theorem long_string_merge self text m st cs st1 :
  characters self st = (Ok cs, st1) ->
  noop_guard m = false ->
  Str.strip_chars (py ".") (Str.strip (src m)) ∉ preserve_words self ->
  Str.strip_chars (py "[]") (src m) ∉ cs ->
  linebreak_threshold (conf self) < Str.len (src m) ->
  Str.startswith
    (Str.replace (py "{p}") (py " / ") (Str.replace (py "{w}") [] (src m)))
    (dst m) = false ->
  _edit self text m false st
  = (Ok (Some (Str.replace (full m)
                 (head m ++ [QUOTE]
                  ++ Str.replace (py "{p}") (py " / ") (Str.replace (py "{w}") [] (src m))
                  ++ [BACKSLASH; "n"%char] ++ dst m ++ [QUOTE])
                 text)), st1)
  /\ LF ∉ [BACKSLASH; "n"%char].
Proof.
  intros Hc Hg Hw Hn Hl Hs. split.
  - unfold _edit. rewrite Hg. simpl orb.
    rewrite (bool_decide_eq_false_2 _ Hw).
    unfold _edit_side_by_side, mbind, M_bind, bind. cbn beta iota delta [orb].
    rewrite Hc.
    rewrite (bool_decide_eq_false_2 _ Hn).
    assert (Hle : (Str.len (src m) <=? linebreak_threshold (conf self)) = false)
      by (apply Z.leb_gt; exact Hl).
    rewrite Hle. unfold unbreak. rewrite Hs. reflexivity.
  - intros H. apply list_elem_of_In in H. simpl in H.
    destruct H as [H|[H|[]]]; discriminate H.
Qed.

Lemma long_string_merge_witness :
  characters test_self (warm test_fs) = (Ok test_characters, warm test_fs)
  /\ noop_guard long_entry = false
  /\ linebreak_threshold (conf test_self) < Str.len (src long_entry)
  /\ fst (_edit test_self long_text long_entry false (warm test_fs))
     = Ok (Some (pyq "    old 'long{p}string{w}'
    new 'long / string\n%%translated'
")).
Proof.
  assert (Hc : characters test_self (warm test_fs) = (Ok test_characters, warm test_fs))
    by (apply characters_cached; reflexivity).
  split; [exact Hc|]. split; [reflexivity|]. split; [reflexivity|].
  destruct (long_string_merge test_self long_text long_entry (warm test_fs)
              test_characters (warm test_fs) Hc) as [H _].
  - reflexivity.
  - decide_by_computing.
  - decide_by_computing.
  - reflexivity.
  - reflexivity.
  - rewrite H. vm_compute. reflexivity.
Defined.

(** C7 fails as stated: a long source behind the marker [old:], with a
    translation behind [new:], meets every condition of the claim (longer
    than the threshold, no preserved word, no character, the one-line
    source no prefix of the translation, nor the source itself), and is
    left as it is. *)
Lemma long_string_behind_marker_kept :
  iter_tl default_Pattern marker_text = [marker_entry]
  /\ linebreak_threshold (conf test_self) < Str.len (src marker_entry)
  /\ bool_decide (Str.strip_chars (py ".") (Str.strip (src marker_entry))
                  ∈ preserve_words test_self) = false
  /\ bool_decide (Str.strip_chars (py "[]") (src marker_entry) ∈ test_characters)
     = false
  /\ Str.startswith (unbreak (src marker_entry)) (dst marker_entry) = false
  /\ Str.startswith (src marker_entry) (dst marker_entry) = false
  /\ fst (_edit test_self marker_text marker_entry false (fresh test_fs)) = Ok None
  /\ fst (_rpy test_self marker_text false (fresh test_fs)) = Ok marker_text.
Proof. vm_compute. repeat split. Qed.

(** ** The chunked reader *)

Lemma readlines_from_concat (cur s : str) :
  concat (readlines_from cur s) = rev cur ++ s.
Proof.
  revert cur. induction s as [|c s IH]; intros cur; simpl.
  - destruct cur; simpl; rewrite ?app_nil_r; reflexivity.
  - destruct (chr_eqb c LF); simpl.
    + rewrite IH. simpl. rewrite <- app_assoc. reflexivity.
    + rewrite IH. simpl. rewrite <- app_assoc. reflexivity.
Qed.

Lemma readlines_concat (s : str) : concat (readlines s) = s.
Proof. apply (readlines_from_concat [] s). Qed.

Lemma iter_chunk_from_concat (lines rest : list str) :
  concat (iter_chunk_from lines rest) = lines ++ rest.
Proof.
  revert lines. induction rest as [|l rest IH]; intros lines; simpl.
  - reflexivity.
  - destruct (blank l); simpl; rewrite IH, <- ?app_assoc; reflexivity.
Qed.

Lemma iter_chunk_concat (content : str) :
  concat (concat (iter_chunk content)) = content.
Proof.
  unfold iter_chunk. rewrite iter_chunk_from_concat. apply readlines_concat.
Qed.

Lemma iter_chunk_from_nonempty (lines rest : list str) :
  iter_chunk_from lines rest ≠ [].
Proof.
  revert lines. induction rest as [|l rest IH]; intros lines; simpl.
  - discriminate.
  - destruct (blank l); [discriminate|apply IH].
Qed.

(** The blocks are blocks: each but the last ends at its only blank line,
    and the last has none. *)
Lemma iter_chunk_from_blocks (lines rest : list str) :
  open_block lines ->
  exists bs b, iter_chunk_from lines rest = bs ++ [b]
               /\ Forall closed_block bs /\ open_block b.
Proof.
  revert lines. induction rest as [|l rest IH]; intros lines Hl; simpl.
  - exists [], lines. repeat split; [constructor|exact Hl].
  - destruct (blank l) eqn:E.
    + destruct (IH [] (Forall_nil_2 _)) as (bs & b & -> & Hbs & Hb).
      exists ((lines ++ [l]) :: bs), b. repeat split; [|exact Hb].
      constructor; [|exact Hbs]. exists lines, l. repeat split; assumption.
    + apply IH. apply Forall_app. split; [exact Hl|].
      constructor; [exact E|constructor].
Qed.

Lemma batched_from_concat {A} (n : nat) (cur l : list A) :
  concat (batched_from n cur l) = cur ++ l.
Proof.
  revert cur. induction l as [|x l IH]; intros cur; simpl.
  - destruct cur; simpl; rewrite ?app_nil_r; reflexivity.
  - destruct (_ =? _)%nat; simpl; rewrite IH, <- ?app_assoc; reflexivity.
Qed.

Lemma batched_from_sizes {A} (n : nat) (cur l : list A) :
  (length cur < n)%nat ->
  Forall (fun g => g ≠ [] /\ (length g <= n)%nat) (batched_from n cur l).
Proof.
  revert cur. induction l as [|x l IH]; intros cur Hc; simpl.
  - destruct cur as [|y cur]; constructor; [|constructor].
    split; [discriminate|lia].
  - destruct (_ =? _)%nat eqn:E.
    + apply Nat.eqb_eq in E. constructor.
      * split; [destruct cur; discriminate|lia].
      * apply IH. simpl. lia.
    + apply Nat.eqb_neq in E. apply IH.
      rewrite length_app in *. simpl in *. lia.
Qed.

(** A batch size that covers the whole list gives one batch. *)
Lemma batched_from_single {A} (n : nat) (cur l : list A) :
  cur ++ l ≠ [] -> (length cur + length l <= n)%nat -> (length cur < n)%nat ->
  batched_from n cur l = [cur ++ l].
Proof.
  revert cur. induction l as [|x l IH]; intros cur Hne Hn Hc; simpl.
  - rewrite app_nil_r in *. destruct cur; [congruence|reflexivity].
  - simpl in Hn. destruct (_ =? _)%nat eqn:E.
    + apply Nat.eqb_eq in E. rewrite length_app in E. simpl in E.
      destruct l as [|y l]; [|simpl in Hn; lia]. reflexivity.
    + apply Nat.eqb_neq in E. rewrite length_app in E. simpl in E.
      rewrite IH.
      * rewrite <- app_assoc. reflexivity.
      * destruct cur; discriminate.
      * rewrite length_app. simpl. lia.
      * rewrite length_app. simpl. lia.
Qed.

Lemma reader_chunks_concat (n : nat) (content : str) :
  concat (reader_chunks n content) = content.
Proof.
  unfold reader_chunks, join_batch.
  rewrite <- (iter_chunk_concat content) at 2.
  rewrite <- (batched_from_concat n [] (iter_chunk content)) at 2.
  simpl app. unfold batched.
  induction (batched_from n [] (iter_chunk content)) as [|g gs IH]; [reflexivity|].
  simpl. rewrite IH, !concat_app. reflexivity.
Qed.

Lemma reader_chunks_single (n : nat) (content : str) :
  (length (iter_chunk content) <= n)%nat ->
  reader_chunks n content = [content].
Proof.
  intros H. unfold reader_chunks, batched.
  pose proof (iter_chunk_from_nonempty [] (readlines content)) as Hne.
  fold (iter_chunk content) in Hne.
  rewrite batched_from_single; simpl; try assumption.
  - unfold join_batch. rewrite iter_chunk_concat. reflexivity.
  - destruct (iter_chunk content); [congruence|]. simpl in H. lia.
Qed.

Lemma RpyReader_ok (p : path) (n : Z) content st :
  1 <= n -> fs st !! p = Some (Text content) ->
  RpyReader p n st = (Ok (reader_chunks (Z.to_nat n) content), st).
Proof.
  intros Hn Hp. unfold RpyReader.
  assert (E : (n <? 1) = false) by (apply Z.ltb_ge; exact Hn).
  rewrite E. unfold mbind, M_bind, bind, FS.read_text. rewrite Hp. reflexivity.
Qed.

(** ** The pass on the text alone *)

Lemma knows_after self cs st st1 :
  characters self st = (Ok cs, st1) -> knows self cs st1.
Proof.
  intros H. exists st1. apply characters_cached. eapply characters_stores, H.
Qed.

(** With the characters known, [_edit] returns the full match replaced by
    the replacement, or [None] when there is none. *)
Lemma edit_replacement self cs text m preserve st :
  knows self cs st ->
  exists st',
    _edit self text m preserve st
    = (Ok (option_map (fun new => Str.replace (full m) new text)
             (replacement self cs preserve m)), st')
    /\ knows self cs st'.
Proof.
  intros [st1 Hc]. unfold _edit, replacement.
  destruct (noop_guard m).
  { exists st. split; [reflexivity|exists st1; exact Hc]. }
  destruct (preserve || _).
  { exists st. split; [reflexivity|exists st1; exact Hc]. }
  unfold _edit_side_by_side, mbind, M_bind, bind. rewrite Hc.
  exists st1. split; [|eapply knows_after; exact Hc].
  destruct (bool_decide _).
  - destruct (Re.matches _ _); reflexivity.
  - destruct (_ <=? _); [reflexivity|]. destruct (negb _); reflexivity.
Qed.

Lemma rpy_step_rewrite self cs preserve text m st :
  knows self cs st ->
  exists st',
    _rpy_step self preserve text m st
    = (Ok (rewrite_step self cs preserve text m), st')
    /\ knows self cs st'.
Proof.
  intros H. destruct (edit_replacement self cs text m preserve st H) as (st' & E & H').
  exists st'. split; [|exact H'].
  unfold _rpy_step, mbind, M_bind, bind. rewrite E. unfold rewrite_step.
  destruct (replacement self cs preserve m); reflexivity.
Qed.

Lemma rpy_fold_rewrite self cs preserve (l : list TranslationMatch) :
  forall text st,
    knows self cs st ->
    exists st',
      loop_fold (_rpy_step self preserve) l text st
      = (Ok (fold_left (rewrite_step self cs preserve) l text), st')
      /\ knows self cs st'.
Proof.
  induction l as [|m l IH]; intros text st H; cbn [loop_fold fold_left].
  - exists st. split; [reflexivity|exact H].
  - destruct (rpy_step_rewrite self cs preserve text m st H) as (st1 & E & H1).
    unfold mbind, M_bind, bind. rewrite E. apply IH, H1.
Qed.

Lemma rpy_rewritten self cs preserve text st :
  knows self cs st ->
  exists st',
    _rpy self text preserve st = (Ok (rewritten self cs preserve text), st')
    /\ knows self cs st'.
Proof. intros H. unfold _rpy, rewritten. apply rpy_fold_rewrite, H. Qed.

Lemma rpy_map_rewritten self cs preserve (chunks : list str) :
  forall st,
    knows self cs st ->
    exists st',
      loop_map (fun text => _rpy self text preserve) chunks st
      = (Ok (map (rewritten self cs preserve) chunks), st')
      /\ knows self cs st'.
Proof.
  induction chunks as [|c chunks IH]; intros st H; cbn [loop_map map].
  - exists st. split; [reflexivity|exact H].
  - destruct (rpy_rewritten self cs preserve c st H) as (st1 & E & H1).
    destruct (IH st1 H1) as (st2 & E2 & H2).
    exists st2. split; [|exact H2].
    unfold mbind, M_bind, bind. rewrite E, E2. reflexivity.
Qed.

(** With the characters known, the pass gives the chunks of the file, each
    rewritten, put together. *)
Lemma pass_rewritten self cs (p : path) content st :
  1 <= batch_size (conf self) ->
  fs st !! p = Some (Text content) ->
  knows self cs st ->
  fst (rpy self p st)
  = Ok (concat (map (rewritten self cs
                       (bool_decide (PathLib.stem p ∈ preserve_files self)))
                  (reader_chunks (Z.to_nat (batch_size (conf self))) content))).
Proof.
  intros Hn Hp H. unfold rpy, mbind, M_bind, bind.
  rewrite (RpyReader_ok p _ content st Hn Hp).
  destruct (rpy_map_rewritten self cs
              (bool_decide (PathLib.stem p ∈ preserve_files self))
              (reader_chunks (Z.to_nat (batch_size (conf self))) content) st H)
    as (st' & E & _).
  rewrite E. reflexivity.
Qed.

(** ** Occurrences and [str.replace] *)

Lemma startswith_length (f s : str) :
  Str.startswith f s = true -> (length f <= length s)%nat.
Proof. intros H. apply startswith_drop in H. rewrite H, length_app. lia. Qed.

Lemma startswith_weaken (f s t : str) :
  Str.startswith f s = true -> Str.startswith f (s ++ t) = true.
Proof.
  intros H. apply startswith_drop in H. rewrite H, <- app_assoc.
  apply startswith_app.
Qed.

(** A prefix of [y ++ rest] that is no prefix of [y] goes beyond [y]. *)
Lemma startswith_cross (f y rest : str) :
  Str.startswith f (y ++ rest) = true -> Str.startswith f y = false ->
  exists t, t ≠ [] /\ f = y ++ t /\ Str.startswith t rest = true.
Proof.
  revert y. induction f as [|a f IH]; intros y.
  - destruct y; discriminate.
  - destruct y as [|b y]; cbn [app Str.startswith].
    + intros H _. exists (a :: f). split; [discriminate|]. split; [reflexivity|exact H].
    + intros H1 H2. apply andb_true_iff in H1 as [Hab H1].
      rewrite Hab in H2. cbn [andb] in H2.
      apply chr_eqb_eq in Hab. subst b.
      destruct (IH y H1 H2) as (t & Ht & -> & Hr).
      exists t. split; [exact Ht|]. split; [reflexivity|exact Hr].
Qed.

Lemma contains_suffix (f s1 s2 : str) :
  contains f (s1 ++ s2) = false -> Str.startswith f s2 = false.
Proof.
  induction s1 as [|c s1 IH]; cbn [app].
  - destruct s2; cbn [contains]; intros H;
      apply orb_false_iff in H as [H _]; exact H.
  - cbn [contains]. intros H. apply orb_false_iff in H as [_ H]. apply IH, H.
Qed.

Lemma replace_scan_absent (f r s : str) :
  contains f s = false -> Str.replace_scan f r s O = s.
Proof.
  induction s as [|c s IH]; [reflexivity|].
  cbn [contains]. intros H. apply orb_false_iff in H as [H1 H2].
  cbn [Str.replace_scan]. rewrite H1. f_equal. apply IH, H2.
Qed.

(** Where the needle does not occur, [str.replace] changes nothing. *)
Lemma replace_absent (f r s : str) :
  f ≠ [] -> contains f s = false -> Str.replace f r s = s.
Proof.
  intros Hf H. unfold Str.replace. destruct f; [congruence|].
  apply replace_scan_absent, H.
Qed.

(** When no occurrence that starts in [y] runs into [rest], the scan of
    [y ++ rest] is the scan of [y] and then the scan of [rest]. *)
Lemma replace_scan_app (f r rest : str) :
  forall (y : str) (skip : nat),
    (forall y1 y2, y = y1 ++ y2 -> y2 ≠ [] ->
                   Str.startswith f (y2 ++ rest) = true -> Str.startswith f y2 = true) ->
    (skip <= length y)%nat ->
    Str.replace_scan f r (y ++ rest) skip
    = Str.replace_scan f r y skip ++ Str.replace_scan f r rest O.
Proof.
  induction y as [|c y IH]; intros skip Hcross Hs.
  - simpl in Hs. replace skip with O by lia. reflexivity.
  - assert (Hcross' : forall y1 y2, y = y1 ++ y2 -> y2 ≠ [] ->
              Str.startswith f (y2 ++ rest) = true -> Str.startswith f y2 = true).
    { intros y1 y2 -> Hne. apply (Hcross (c :: y1) y2); [reflexivity|exact Hne]. }
    destruct skip as [|k]; cbn [app Str.replace_scan].
    + pose proof (Hcross [] (c :: y) eq_refl ltac:(discriminate)) as H0.
      cbn [app] in H0.
      destruct (Str.startswith f (c :: y ++ rest)) eqn:E.
      * rewrite (H0 eq_refl). rewrite <- app_assoc. f_equal.
        apply IH; [exact Hcross'|].
        pose proof (startswith_length _ _ (H0 eq_refl)) as Hl. simpl in Hl. lia.
      * destruct (Str.startswith f (c :: y)) eqn:E'.
        { apply (startswith_weaken _ _ rest) in E'. cbn [app] in E'. congruence. }
        cbn [app]. f_equal. apply IH; [exact Hcross'|lia].
    + apply IH; [exact Hcross'|simpl in Hs; lia].
Qed.

Lemma replace_app (f r y rest : str) :
  f ≠ [] ->
  (forall y1 y2, y = y1 ++ y2 -> y2 ≠ [] ->
                 Str.startswith f (y2 ++ rest) = true -> Str.startswith f y2 = true) ->
  Str.replace f r (y ++ rest) = Str.replace f r y ++ Str.replace f r rest.
Proof.
  intros Hf H. unfold Str.replace. destruct f as [|a f]; [congruence|].
  apply replace_scan_app; [exact H|lia].
Qed.

(** A replacement that is not empty leaves no text empty. *)
Lemma replace_nil (f r s : str) :
  f ≠ [] -> r ≠ [] -> Str.replace f r s = [] -> s = [].
Proof.
  intros Hf Hr. unfold Str.replace. destruct f as [|a f]; [congruence|].
  destruct s as [|c s]; [reflexivity|]. cbn [Str.replace_scan].
  destruct (Str.startswith _ _); intros H.
  - destruct r; [congruence|discriminate H].
  - discriminate H.
Qed.

(** ** Entry texts and closed texts *)

Lemma entry_text_nonempty (f : str) : entry_text f -> f ≠ [].
Proof. intros [(c & f' & -> & _) _]. discriminate. Qed.

Lemma white_absent (f l : str) :
  entry_text f -> Forall (fun c => Str.isspace c = true) l -> contains f l = false.
Proof.
  intros [(c & f' & -> & Hc) _] Hl. induction Hl as [|x l Hx _ IH]; [reflexivity|].
  cbn [contains Str.startswith]. rewrite IH, orb_false_r.
  destruct (chr_eqb c x) eqn:E; [|reflexivity].
  apply chr_eqb_eq in E. subst x. congruence.
Qed.

Lemma last_app_singleton {A} (l1 l2 : list A) (x y : A) :
  l1 ++ [x] = l2 ++ [y] -> l1 = l2 /\ x = y.
Proof. intros H. apply app_inj_tail in H. exact H. Qed.

(** An occurrence of an entry text does not run into white space. *)
Lemma no_crossing_white (f a l : str) :
  entry_text f -> Forall (fun c => Str.isspace c = true) l ->
  forall y1 y2, a = y1 ++ y2 -> y2 ≠ [] ->
    Str.startswith f (y2 ++ l) = true -> Str.startswith f y2 = true.
Proof.
  intros (_ & (f0 & Hq) & _) Hl y1 y2 _ _ H.
  destruct (Str.startswith f y2) eqn:E; [reflexivity|]. exfalso.
  destruct (startswith_cross _ _ _ H E) as (t & Ht & Hf & Hr).
  apply startswith_drop in Hr.
  destruct (exists_last Ht) as (t0 & x & ->).
  assert (Hx : Str.isspace x = true).
  { rewrite Forall_forall in Hl. apply Hl. rewrite Hr.
    apply elem_of_app. left. apply elem_of_app. right. left. }
  rewrite Hq, app_assoc in Hf. apply last_app_singleton in Hf as [_ <-].
  discriminate Hx.
Qed.

(** Nor does it run from a closed text into the text after it. *)
Lemma no_crossing (f x rest : str) :
  entry_text f -> closed_text x rest ->
  forall y1 y2, x = y1 ++ y2 -> y2 ≠ [] ->
    Str.startswith f (y2 ++ rest) = true -> Str.startswith f y2 = true.
Proof.
  intros Hf (a & l & -> & Ha & Hl & Hw & Hend) y1 y2 Hx Hy H.
  destruct (Str.startswith f y2) eqn:E; [reflexivity|]. exfalso.
  destruct (startswith_cross _ _ _ H E) as (t & Ht & Hft & Hr).
  assert (Hrest : rest ≠ []).
  { intros ->. destruct t; [congruence|discriminate Hr]. }
  destruct Hend as [(l0 & ->)|Hend]; [|congruence].
  destruct Hf as ((c & f' & Hc & Hsp) & _ & Hblank).
  assert (Hwhite : forall k y, k ++ y = l0 ++ [LF] -> y2 = y -> False).
  { intros k y Hk ->. destruct y as [|b y]; [congruence|].
    rewrite Hft in Hc. injection Hc as <- _.
    rewrite Forall_forall in Hw. rewrite <- Hk in Hw.
    rewrite (Hw b) in Hsp; [discriminate Hsp|].
    rewrite elem_of_app. right. left. }
  apply app_eq_app in Hx as [k [[-> ->]|[-> Hk]]].
  - destruct k as [|b k].
    + apply (Hwhite [] (l0 ++ [LF])); reflexivity.
    + destruct Ha as [Ha|(a0 & Ha)]; [destruct y1; discriminate Ha|].
      destruct (exists_last (l:=b :: k) ltac:(discriminate)) as (k0 & z & Hkz).
      rewrite Hkz in Ha. rewrite app_assoc in Ha.
      apply last_app_singleton in Ha as [_ ->].
      apply (Hblank k0 l0 t).
      * rewrite Hft, Hkz. rewrite <- !app_assoc. reflexivity.
      * rewrite Forall_app in Hw. apply Hw.
  - apply (Hwhite k y2); [symmetry; exact Hk|reflexivity].
Qed.

(** Rewriting an entry text keeps white space as it is. *)
Lemma replace_white (f r l : str) :
  entry_text f -> Forall (fun c => Str.isspace c = true) l -> Str.replace f r l = l.
Proof.
  intros Hf Hl. apply replace_absent; [apply entry_text_nonempty, Hf|].
  apply white_absent; assumption.
Qed.

(** Rewriting an entry text keeps a closed text closed. *)
Lemma replace_closed (f r x rest rest' : str) :
  entry_text f -> closed_text x rest -> (rest = [] -> rest' = []) ->
  closed_text (Str.replace f r x) rest'.
Proof.
  intros Hf (a & l & -> & Ha & Hl & Hw & Hend) Hrest.
  pose proof (entry_text_nonempty _ Hf) as Hne.
  rewrite replace_app by (exact Hne || apply (no_crossing_white f a l Hf Hw)).
  rewrite (replace_white f r l Hf Hw).
  exists (Str.replace f r a), l. split; [reflexivity|]. split.
  - destruct Ha as [->|(a0 & ->)].
    + left. unfold Str.replace. destruct f; [congruence|reflexivity].
    + right. exists (Str.replace f r a0).
      rewrite replace_app.
      * rewrite (replace_white f r [LF] Hf); [reflexivity|].
        constructor; [reflexivity|constructor].
      * exact Hne.
      * apply (no_crossing_white f a0 [LF] Hf).
        constructor; [reflexivity|constructor].
  - split; [exact Hl|]. split; [exact Hw|].
    destruct Hend as [Hend|Hend]; [left; exact Hend|right; apply Hrest, Hend].
Qed.

(** [str.replace] of an entry text goes through the blocks one by one. *)
Lemma replace_separated (f r : str) (xs : list str) :
  entry_text f -> separated xs ->
  Str.replace f r (concat xs) = concat (map (Str.replace f r) xs).
Proof.
  intros Hf Hs. pose proof (entry_text_nonempty _ Hf) as Hne.
  induction Hs as [|x|x x' xs Hx _ IH].
  - unfold Str.replace. destruct f; [congruence|reflexivity].
  - simpl. rewrite !app_nil_r. reflexivity.
  - change (concat (x :: x' :: xs)) with (x ++ concat (x' :: xs)).
    rewrite replace_app by (exact Hne || apply (no_crossing f x _ Hf Hx)).
    rewrite IH. reflexivity.
Qed.

Lemma map_replace_separated (f r : str) (xs : list str) :
  entry_text f -> separated xs -> separated (map (Str.replace f r) xs).
Proof.
  intros Hf Hs. induction Hs as [|x|x x' xs Hx Hs IH]; [constructor|constructor|].
  cbn [map]. constructor; [|exact IH].
  apply (replace_closed f r x (concat (x' :: xs))); [exact Hf|exact Hx|].
  intros Hnil. change (Str.replace f r x' :: map (Str.replace f r) xs)
    with (map (Str.replace f r) (x' :: xs)).
  rewrite <- (replace_separated f r (x' :: xs) Hf Hs), Hnil.
  unfold Str.replace. destruct f; [|reflexivity].
  exfalso. apply (entry_text_nonempty _ Hf). reflexivity.
Qed.

(** ** The lines and the blocks of a file *)

Lemma elem_of_rev_iff (x : ascii) (l : str) : x ∈ rev l <-> x ∈ l.
Proof. rewrite !list_elem_of_In. symmetry. apply in_rev. Qed.

Lemma line_lf_not_open (l : str) : line_lf l -> line_open l -> False.
Proof.
  intros (b & -> & _) [_ H]. apply H. apply elem_of_app. right. left.
Qed.

Lemma line_nonempty (l : str) : line_lf l \/ line_open l -> l ≠ [].
Proof.
  intros [(b & -> & _)|[H _]]; [destruct b; discriminate|exact H].
Qed.

(** The lines of a text are lines. *)
Lemma readlines_from_ok (s cur : str) :
  LF ∉ cur -> lines_ok (readlines_from cur s).
Proof.
  revert cur. induction s as [|c s IH]; intros cur Hcur; cbn [readlines_from].
  - destruct cur as [|x cur].
    + split; [constructor|]. intros L1 l L2 H. destruct L1; discriminate H.
    + split.
      * constructor; [|constructor]. right. split.
        -- intros H. apply (f_equal (@length ascii)) in H.
           rewrite length_rev in H. discriminate H.
        -- rewrite elem_of_rev_iff. exact Hcur.
      * intros L1 l L2 H HL2. exfalso.
        destruct L1 as [|l1 L1]; cbn [app] in H.
        -- injection H as _ H. congruence.
        -- injection H as _ H. destruct L1; discriminate H.
  - destruct (chr_eqb c LF) eqn:E.
    + apply chr_eqb_eq in E. subst c.
      assert (Hl : line_lf (rev (LF :: cur))).
      { exists (rev cur). split; [reflexivity|]. rewrite elem_of_rev_iff. exact Hcur. }
      destruct (IH [] ltac:(intros H; inversion H)) as [H1 H2]. split.
      * constructor; [left; exact Hl|exact H1].
      * intros L1 l L2 H HL2. destruct L1 as [|l1 L1]; cbn [app] in H.
        -- injection H as <- _. exact Hl.
        -- injection H as _ H. apply (H2 L1 l L2); assumption.
    + apply IH. intros H. apply elem_of_cons in H as [H|H]; [|exact (Hcur H)].
      subst c. unfold chr_eqb in E. rewrite Ascii.eqb_refl in E. discriminate E.
Qed.

Lemma readlines_ok (s : str) : lines_ok (readlines s).
Proof. apply readlines_from_ok. intros H. inversion H. Qed.

Lemma lines_ok_app_r (L1 L2 : list str) : lines_ok (L1 ++ L2) -> lines_ok L2.
Proof.
  intros [H1 H2]. split.
  - apply Forall_app in H1. apply H1.
  - intros K1 l K2 -> HK. apply (H2 (L1 ++ K1) l K2); [|exact HK].
    rewrite <- app_assoc. reflexivity.
Qed.

(** White space and blank lines. *)
Lemma lstrip_all (p : ascii -> bool) (s : str) :
  Forall (fun c => p c = true) s -> Str.lstrip_by p s = [].
Proof.
  induction 1 as [|c s Hc _ IH]; [reflexivity|]. simpl. rewrite Hc. exact IH.
Qed.

Lemma lstrip_nil (p : ascii -> bool) (s : str) :
  Str.lstrip_by p s = [] -> Forall (fun c => p c = true) s.
Proof.
  induction s as [|c s IH]; [constructor|]. simpl.
  destruct (p c) eqn:E; [|discriminate].
  intros H. constructor; [exact E|apply IH, H].
Qed.

Lemma lstrip_head (p : ascii -> bool) (s : str) (c : ascii) (t : str) :
  Str.lstrip_by p s = c :: t -> p c = false.
Proof.
  induction s as [|x s IH]; [discriminate|]. simpl.
  destruct (p x) eqn:E; [exact IH|]. intros [= <- _]. exact E.
Qed.

Lemma white_blank (l : str) :
  Forall (fun c => Str.isspace c = true) l -> blank l = true.
Proof.
  intros H. unfold blank, Str.strip, Str.strip_by, Str.rstrip_by.
  rewrite (lstrip_all _ _ H). reflexivity.
Qed.

Lemma blank_white (l : str) :
  blank l = true -> Forall (fun c => Str.isspace c = true) l.
Proof.
  unfold blank, Str.strip, Str.strip_by, Str.rstrip_by. intros H.
  destruct (Str.lstrip_by Str.isspace l) as [|c t] eqn:E.
  - apply lstrip_nil, E.
  - exfalso. apply lstrip_head in E as Hc.
    destruct (rev (Str.lstrip_by Str.isspace (rev (c :: t)))) as [|y u] eqn:E2;
      [|discriminate H].
    apply (f_equal (@rev ascii)) in E2. rewrite rev_involutive in E2.
    cbn [rev] in E2. apply lstrip_nil in E2.
    rewrite Forall_forall in E2.
    rewrite (E2 c) in Hc; [discriminate Hc|].
    change (c ∈ rev (c :: t)). rewrite elem_of_rev_iff. left.
Qed.

(** Each block of a file but the last ends at its blank line. *)
Lemma iter_chunk_from_sep (rest lines : list str) :
  lines_ok (lines ++ rest) -> Forall (fun l => blank l = false) lines ->
  sep_ok (iter_chunk_from lines rest).
Proof.
  revert lines. induction rest as [|l rest IH]; intros lines Hok Hnb;
    cbn [iter_chunk_from].
  - rewrite app_nil_r in Hok. destruct Hok as [H1 H2].
    apply sep_ok_one. split; [exact H1|].
    intros B1 x B2 -> HB. split; [apply (H2 B1 x B2); [reflexivity|exact HB]|].
    rewrite Forall_forall in Hnb. apply Hnb.
    apply elem_of_app. right. left.
  - destruct (blank l) eqn:E.
    + assert (Hb : block_ok (lines ++ [l])).
      { destruct Hok as [H1 H2]. split.
        - apply Forall_app in H1 as [Ha Hb]. apply Forall_app. split; [exact Ha|].
          inversion Hb; subst. constructor; [assumption|constructor].
        - intros B1 x B2 HB HB2.
          destruct (exists_last HB2) as (B2' & z & ->).
          rewrite app_comm_cons, app_assoc in HB.
          apply last_app_singleton in HB as [HB <-].
          split.
          + apply (H2 B1 x (B2' ++ l :: rest)); [|destruct B2'; discriminate].
            rewrite HB, <- app_assoc. reflexivity.
          + rewrite Forall_forall in Hnb. apply Hnb. rewrite HB.
            apply elem_of_app. right. left. }
      pose proof (iter_chunk_from_nonempty [] rest) as Hne.
      pose proof (IH [] (lines_ok_app_r (lines ++ [l]) rest
                           ltac:(rewrite <- app_assoc; exact Hok))
                    (Forall_nil_2 _)) as Hs.
      assert (Hend : line_lf l \/ concat (iter_chunk_from [] rest) = []).
      { destruct rest as [|l2 rest]; [right; reflexivity|].
        left. apply (proj2 Hok lines l (l2 :: rest)); [reflexivity|discriminate]. }
      destruct (iter_chunk_from [] rest) as [|B' Bs]; [congruence|].
      apply sep_ok_cons; assumption.
    + apply IH.
      * rewrite <- app_assoc. exact Hok.
      * apply Forall_app. split; [exact Hnb|]. constructor; [exact E|constructor].
Qed.

Lemma iter_chunk_sep (content : str) : sep_ok (iter_chunk content).
Proof.
  apply iter_chunk_from_sep; [apply readlines_ok|constructor].
Qed.

Lemma sep_ok_blocks (Bs : list (list str)) : sep_ok Bs -> Forall block_ok Bs.
Proof.
  induction 1; constructor; try assumption; constructor.
Qed.

Lemma sep_ok_tail (B : list str) (Bs : list (list str)) : sep_ok (B :: Bs) -> sep_ok Bs.
Proof. inversion 1; subst; [constructor|assumption]. Qed.

Lemma concat_nil_app {A} (l1 l2 : list (list A)) :
  concat (l1 ++ l2) = [] -> concat l1 = [].
Proof.
  rewrite concat_app. intros H. apply app_eq_nil in H. apply H.
Qed.

(** A run of consecutive blocks, cut in two, gives two such runs. *)
Lemma sep_ok_app (X Y : list (list str)) : sep_ok (X ++ Y) -> sep_ok X /\ sep_ok Y.
Proof.
  induction X as [|B X IH]; intros H; [split; [constructor|exact H]|].
  cbn [app] in H. destruct (IH (sep_ok_tail _ _ H)) as [HX HY].
  split; [|exact HY].
  destruct X as [|B' X].
  - apply sep_ok_one. apply (Forall_inv (sep_ok_blocks _ H)).
  - cbn [app] in H. inversion H as [| |ls l B0 Bs0 Hb Hbl Hend Hs]; subst.
    apply sep_ok_cons; [exact Hb|exact Hbl| |exact HX].
    destruct Hend as [Hend|Hend]; [left; exact Hend|right].
    apply (concat_nil_app (B' :: X) Y), Hend.
Qed.

Lemma sep_ok_concat (gs : list (list (list str))) :
  sep_ok (concat gs) -> Forall sep_ok gs.
Proof.
  induction gs as [|g gs IH]; intros H; [constructor|].
  cbn [concat] in H. apply sep_ok_app in H as [Hg Hgs].
  constructor; [exact Hg|apply IH, Hgs].
Qed.

Lemma concat_concat_map (Bs : list (list str)) :
  concat (map (fun b => concat b) Bs) = concat (concat Bs).
Proof.
  induction Bs as [|B Bs IH]; [reflexivity|].
  cbn [map concat]. rewrite concat_app, IH. reflexivity.
Qed.

Lemma lines_lf_end (ls : list str) :
  Forall line_lf ls -> concat ls = [] \/ exists a0, concat ls = a0 ++ [LF].
Proof.
  induction 1 as [|l ls (b & -> & _) _ IH]; [left; reflexivity|].
  right. cbn [concat]. destruct IH as [->|(a0 & ->)].
  - exists b. rewrite app_nil_r. reflexivity.
  - exists ((b ++ [LF]) ++ a0). rewrite <- !app_assoc. reflexivity.
Qed.

(** The texts of consecutive blocks are separated. *)
Lemma sep_ok_separated (Bs : list (list str)) :
  sep_ok Bs -> separated (map (fun b => concat b) Bs).
Proof.
  induction 1 as [|B HB|ls l B' Bs Hb Hbl Hend Hs IH]; [constructor|constructor|].
  cbn [map]. cbn [map] in IH. constructor; [|exact IH].
  exists (concat ls), l. split; [|split; [|split; [|split]]].
  - rewrite concat_app. cbn [concat]. rewrite app_nil_r. reflexivity.
  - destruct (lines_lf_end ls) as [H|H]; [|left; exact H|right; exact H].
    apply Forall_forall. intros x Hx.
    apply list_elem_of_split in Hx as (l1 & l2 & ->).
    apply (proj2 Hb l1 x (l2 ++ [l])).
    + rewrite <- app_assoc. reflexivity.
    + destruct l2; discriminate.
  - apply line_nonempty. destruct Hb as [Hb _].
    apply Forall_app in Hb as [_ Hb]. inversion Hb; assumption.
  - apply blank_white, Hbl.
  - destruct Hend as [(b & -> & _)|Hend]; [left; exists b; reflexivity|right].
    change (concat (map (fun b => concat b) (B' :: Bs)) = []).
    rewrite concat_concat_map, Hend. reflexivity.
Qed.

Lemma lf_unique (p q p' q' : str) :
  p ++ LF :: q = p' ++ LF :: q' -> LF ∉ p -> LF ∉ p' -> p = p' /\ q = q'.
Proof.
  revert p'. induction p as [|c p IH]; intros p' H Hp Hp'.
  - destruct p' as [|c' p']; cbn [app] in H.
    + injection H as <-. split; reflexivity.
    + injection H as <- _. exfalso. apply Hp'. left.
  - destruct p' as [|c' p']; cbn [app] in H.
    + injection H as -> _. exfalso. apply Hp. left.
    + injection H as <- H.
      destruct (IH p' H) as [-> ->].
      * intros Hin. apply Hp. right. exact Hin.
      * intros Hin. apply Hp'. right. exact Hin.
      * split; reflexivity.
Qed.

Lemma block_ok_tail (l : str) (B : list str) : block_ok (l :: B) -> block_ok B.
Proof.
  intros [H1 H2]. split; [inversion H1; assumption|].
  intros B1 x B2 -> HB. apply (H2 (l :: B1) x B2); [reflexivity|exact HB].
Qed.

(** In the text of a block, a line of white space between two line ends is
    the last line. *)
Lemma block_no_inner_blank (B : list str) : block_ok B -> no_inner_blank (concat B).
Proof.
  induction B as [|l B IH]; intros Hb u w v Hx Hw.
  - destruct u; discriminate Hx.
  - pose proof (Forall_inv (proj1 Hb)) as Hl. cbn [concat] in Hx.
    destruct Hl as [(b & -> & Hnb)|Hopen].
    + destruct (decide (LF ∈ u)) as [Hu|Hu].
      * apply list_elem_of_split_l in Hu as (u1 & u2 & -> & Hu1).
        rewrite <- !app_assoc in Hx. cbn [app] in Hx.
        apply lf_unique in Hx as [_ Hx]; [|exact Hnb|exact Hu1].
        apply (IH (block_ok_tail _ _ Hb) u2 w v); [|exact Hw].
        rewrite Hx. reflexivity.
      * rewrite <- !app_assoc in Hx. cbn [app] in Hx.
        apply lf_unique in Hx as [_ Hx]; [|exact Hnb|exact Hu].
        assert (Hfirst : exists w1 v', concat B = w1 ++ LF :: v'
                  /\ (LF ∉ w1) /\ Forall (fun c => Str.isspace c = true) w1
                  /\ (v' = [] -> v = [])).
        { destruct (decide (LF ∈ w)) as [Hin|Hin].
          - apply list_elem_of_split_l in Hin as (w1 & w2 & -> & Hw1).
            exists w1, (w2 ++ LF :: v). split; [|split; [exact Hw1|split]].
            + rewrite Hx, <- app_assoc. reflexivity.
            + apply Forall_app in Hw. apply Hw.
            + intros H. destruct w2; discriminate H.
          - exists w, v. split; [exact Hx|]. split; [exact Hin|].
            split; [exact Hw|]. intros H. exact H. }
        destruct Hfirst as (w1 & v' & Hc & Hw1 & Hsp & Hv). apply Hv.
        destruct B as [|l2 B]; [destruct w1; discriminate Hc|].
        pose proof (block_ok_tail _ _ Hb) as Hb'.
        pose proof (Forall_inv (proj1 Hb')) as Hl2. cbn [concat] in Hc.
        destruct Hl2 as [(b2 & -> & Hnb2)|Hopen2].
        -- rewrite <- app_assoc in Hc. cbn [app] in Hc.
           apply lf_unique in Hc as [-> Hc]; [|exact Hnb2|exact Hw1].
           destruct B as [|l3 B]; [symmetry; exact Hc|]. exfalso.
           destruct (proj2 Hb' [] (w1 ++ [LF]) (l3 :: B) eq_refl ltac:(discriminate))
             as [_ Hnbl].
           rewrite white_blank in Hnbl; [discriminate Hnbl|].
           apply Forall_app. split; [exact Hsp|].
           constructor; [reflexivity|constructor].
        -- exfalso. destruct B as [|l3 B].
           ++ cbn [concat] in Hc. rewrite app_nil_r in Hc.
              apply (proj2 Hopen2). rewrite Hc. apply elem_of_app. right. left.
           ++ destruct (proj2 Hb' [] l2 (l3 :: B) eq_refl ltac:(discriminate))
                as [Hlf _].
              exact (line_lf_not_open _ Hlf Hopen2).
    + exfalso. destruct B as [|l2 B].
      * cbn [concat] in Hx. rewrite app_nil_r in Hx.
        apply (proj2 Hopen). rewrite Hx. apply elem_of_app. right. left.
      * destruct (proj2 Hb [] l (l2 :: B) eq_refl ltac:(discriminate)) as [Hlf _].
        exact (line_lf_not_open _ Hlf Hopen).
Qed.

(** ** The entries of a block *)

(** With the patterns of the module, the full text of an entry found in a
    block is an entry text. *)
Lemma entry_text_in_block (x : str) (m : TranslationMatch) :
  no_inner_blank x -> In m (iter_tl default_Pattern x) -> entry_text (full m).
Proof.
  intros Hx Hm. apply iter_tl_inv in Hm as (r & rm & Hr & Hin & ->).
  unfold mkTranslationMatch. cbn [full].
  assert (H : (exists c f', Re.whole rm = c :: f' /\ Str.isspace c = false)
              /\ exists f0, Re.whole rm = f0 ++ [QUOTE]).
  { destruct Hr as [<-|[<-|[]]].
    - destruct (old_new_anatomy _ _ Hin) as (Hw & _ & _ & ws & Hh & _).
      rewrite Hw, Hh. split.
      + eexists _, _. split; [reflexivity|reflexivity].
      + eexists. rewrite !app_assoc. reflexivity.
    - destruct (say_anatomy _ _ Hin) as (Hw & _ & _ & who & sp & ws & Hh & _).
      rewrite Hw, Hh. split.
      + eexists _, _. split; [reflexivity|reflexivity].
      + eexists. rewrite !app_assoc. reflexivity. }
  destruct H as [H1 (f0 & H2)]. split; [exact H1|]. split; [exists f0; exact H2|].
  intros a w b Hf Hw. destruct Hin as (u & v & Ht & _).
  assert (Hb : b ++ v = []).
  { apply (Hx (u ++ a) w (b ++ v)); [|exact Hw].
    rewrite Ht, Hf. rewrite <- !app_assoc. reflexivity. }
  apply app_eq_nil in Hb as [-> _].
  rewrite H2 in Hf.
  change (a ++ [LF] ++ w ++ [LF] ++ []) with (a ++ [LF] ++ w ++ [LF]) in Hf.
  rewrite !app_assoc in Hf. apply last_app_singleton in Hf as [_ Hf].
  discriminate Hf.
Qed.

(** ** A chunk, block by block *)

Lemma replacement_nonempty self cs preserve m new :
  replacement self cs preserve m = Some new -> new ≠ [].
Proof.
  assert (H : forall a b : str, a ++ [QUOTE] ++ b ≠ []).
  { intros a b E. destruct a; discriminate E. }
  unfold replacement, fmt_src, fmt_paren, fmt_bar, fmt_newline.
  repeat match goal with |- context [if ?b then _ else _] => destruct b end;
    intros [= <-]; apply H.
Qed.

(** A turn of the loop that rewrites is [str.replace] on the text. *)
Lemma rewrite_step_replace self cs preserve text m new :
  replacement self cs preserve m = Some new -> full m ≠ [] ->
  rewrite_step self cs preserve text m = Str.replace (full m) new text.
Proof.
  intros E Hf. unfold rewrite_step. rewrite E.
  destruct (Str.replace (full m) new text) eqn:Er; [|reflexivity].
  cbn [Str.truthy].
  apply replace_nil in Er; [exact Er|exact Hf|].
  eapply replacement_nonempty, E.
Qed.

Lemma rewrite_step_keep self cs preserve text m :
  replacement self cs preserve m = None -> rewrite_step self cs preserve text m = text.
Proof. intros E. unfold rewrite_step. rewrite E. reflexivity. Qed.

(** A turn of the loop on a chunk is that turn on each of its blocks. *)
Lemma rewrite_step_separated self cs preserve m (xs : list str) :
  entry_text (full m) -> separated xs ->
  rewrite_step self cs preserve (concat xs) m
  = concat (map (fun x => rewrite_step self cs preserve x m) xs)
  /\ separated (map (fun x => rewrite_step self cs preserve x m) xs).
Proof.
  intros Hf Hs. pose proof (entry_text_nonempty _ Hf) as Hne.
  destruct (replacement self cs preserve m) as [new|] eqn:E.
  - rewrite (rewrite_step_replace _ _ _ _ _ _ E Hne).
    rewrite (map_ext _ (Str.replace (full m) new))
      by (intros x; apply (rewrite_step_replace _ _ _ _ _ _ E Hne)).
    split; [apply replace_separated; assumption|].
    apply map_replace_separated; assumption.
  - rewrite (rewrite_step_keep _ _ _ _ _ E).
    rewrite (map_ext _ (fun x => x))
      by (intros x; apply (rewrite_step_keep _ _ _ _ _ E)).
    rewrite map_id. split; [reflexivity|exact Hs].
Qed.

(** So is the whole loop, whatever entries it goes through. *)
Lemma rewrite_fold_separated self cs preserve (L : list TranslationMatch) :
  Forall (fun m => entry_text (full m)) L ->
  forall xs, separated xs ->
    fold_left (rewrite_step self cs preserve) L (concat xs)
    = concat (map (fold_left (rewrite_step self cs preserve) L) xs).
Proof.
  induction 1 as [|m L Hm _ IH]; intros xs Hs; cbn [fold_left].
  - rewrite map_id. reflexivity.
  - destruct (rewrite_step_separated self cs preserve m xs Hm Hs) as [E Hs'].
    rewrite E, (IH _ Hs'), map_map. reflexivity.
Qed.

(** What [apart] checks. *)
Lemma apart_spec self cs preserve (xs : list str) i j xi xj m v :
  apart self cs preserve xs = true ->
  xs !! i = Some xi -> xs !! j = Some xj -> i ≠ j ->
  In m (iter_tl (pattern self) xi) ->
  replacement self cs preserve m ≠ None ->
  In v (versions self cs preserve xj) ->
  contains (full m) v = false.
Proof.
  intros H Hi Hj Hij Hm Hr Hv. unfold apart in H.
  rewrite forallb_forall in H.
  specialize (H (i, xi)). cbv beta iota in H.
  rewrite forallb_forall in H.
  specialize (H ltac:(apply list_elem_of_In, (elem_of_lookup_imap_2 pair), Hi) m Hm).
  destruct (replacement self cs preserve m); [|congruence].
  rewrite forallb_forall in H.
  specialize (H (j, xj)
                ltac:(apply list_elem_of_In, (elem_of_lookup_imap_2 pair), Hj)).
  cbv beta iota in H.
  apply orb_true_iff in H as [H|H].
  - apply Nat.eqb_eq in H. congruence.
  - rewrite forallb_forall in H. apply negb_true_iff, H, Hv.
Qed.

Lemma version_take self cs preserve (x : str) (k : nat) :
  In (fold_left (rewrite_step self cs preserve) (take k (iter_tl (pattern self) x)) x)
     (versions self cs preserve x).
Proof.
  unfold versions. apply in_map_iff.
  exists (Nat.min k (length (iter_tl (pattern self) x))). split.
  - destruct (Nat.le_ge_cases k (length (iter_tl (pattern self) x))) as [H|H].
    + rewrite Nat.min_l by exact H. reflexivity.
    + rewrite Nat.min_r by exact H. rewrite !take_ge by lia. reflexivity.
  - apply in_seq. lia.
Qed.

Lemma fold_keep {A} (f : str -> A -> str) (es : list A) (v : str) :
  (forall m, In m es -> f v m = v) -> fold_left f es v = v.
Proof.
  induction es as [|m es IH]; intros H; [reflexivity|].
  cbn [fold_left]. rewrite (H m) by (left; reflexivity).
  apply IH. intros m' Hm'. apply H. right. exact Hm'.
Qed.

(** The entries of the two patterns of the module. *)
Lemma iter_tl_default (x : str) :
  iter_tl default_Pattern x
  = map (fun m => mkTranslationMatch (Re.whole m) (Re.group m "head")
                    (Re.group m "src") (Re.group m "dst"))
        (Re.finditer PATTERN_OLD_NEW x)
    ++ map (fun m => mkTranslationMatch (Re.whole m) (Re.group m "head")
                       (Re.group m "src") (Re.group m "dst"))
         (Re.finditer PATTERN_SAY x).
Proof.
  unfold iter_tl, default_Pattern. cbn [translation map concat].
  rewrite app_nil_r, map_app. reflexivity.
Qed.

Lemma map_concat_map {A B C} (f : B -> C) (g : A -> list B) (l : list A) :
  map f (concat (map g l)) = concat (map (fun x => map f (g x)) l).
Proof.
  induction l as [|x l IH]; [reflexivity|].
  cbn [map concat]. rewrite map_app, IH. reflexivity.
Qed.

(** In a chunk whose entries are found block by block, the entries are
    those of the first pattern in the blocks, one block after the other,
    and then those of the second. *)
Lemma iter_tl_found_by_block (xs : list str) :
  found_by_block default_Pattern xs = true ->
  iter_tl default_Pattern (concat xs)
  = concat (map (fun x => map (fun m => mkTranslationMatch (Re.whole m)
                                          (Re.group m "head") (Re.group m "src")
                                          (Re.group m "dst"))
                            (Re.finditer PATTERN_OLD_NEW x)) xs)
    ++ concat (map (fun x => map (fun m => mkTranslationMatch (Re.whole m)
                                             (Re.group m "head") (Re.group m "src")
                                             (Re.group m "dst"))
                               (Re.finditer PATTERN_SAY x)) xs).
Proof.
  unfold found_by_block, default_Pattern. cbn [translation forallb].
  rewrite andb_true_r. intros H. apply andb_true_iff in H as [H1 H2].
  apply bool_decide_eq_true_1 in H1, H2.
  rewrite iter_tl_default, H1, H2, !map_concat_map. reflexivity.
Qed.

(** An entry of a list of entries taken block by block is an entry of one
    of the blocks. *)
Lemma in_concat_blocks (g : str -> list TranslationMatch) (xs : list str) m :
  In m (concat (map g xs)) -> exists i xi, xs !! i = Some xi /\ In m (g xi).
Proof.
  intros H. apply in_concat in H as (l & Hl & Hm).
  apply in_map_iff in Hl as (xi & <- & Hxi).
  apply list_elem_of_In, list_elem_of_lookup_1 in Hxi as [i Hi].
  exists i, xi. split; assumption.
Qed.

Lemma in_iter_tl_old_new (x : str) m :
  In m (map (fun m => mkTranslationMatch (Re.whole m) (Re.group m "head")
                        (Re.group m "src") (Re.group m "dst"))
            (Re.finditer PATTERN_OLD_NEW x)) ->
  In m (iter_tl default_Pattern x).
Proof. intros H. rewrite iter_tl_default. apply in_or_app. left. exact H. Qed.

Lemma in_iter_tl_say (x : str) m :
  In m (map (fun m => mkTranslationMatch (Re.whole m) (Re.group m "head")
                        (Re.group m "src") (Re.group m "dst"))
            (Re.finditer PATTERN_SAY x)) ->
  In m (iter_tl default_Pattern x).
Proof. intros H. rewrite iter_tl_default. apply in_or_app. right. exact H. Qed.

Section Chunk.
Variable self : RenpyTranslation.
Variable cs : gset str.
Variable preserve : bool.
Hypothesis Hpat : pattern self = default_Pattern.

(** Blocks whose texts have no line of white space inside. *)
Variable xs : list str.
Hypothesis Hblocks : Forall no_inner_blank xs.
Hypothesis Hsep : separated xs.
Hypothesis Hfound : found_by_block default_Pattern xs = true.
Hypothesis Hapart : apart self cs preserve xs = true.

(** An entry of another block leaves every version of a block as it is. *)
Lemma foreign_keep i j xi xj m v :
  xs !! i = Some xi -> xs !! j = Some xj -> i ≠ j ->
  In m (iter_tl default_Pattern xi) ->
  In v (versions self cs preserve xj) ->
  rewrite_step self cs preserve v m = v.
Proof.
  intros Hi Hj Hij Hm Hv.
  destruct (replacement self cs preserve m) as [new|] eqn:E;
    [|apply rewrite_step_keep, E].
  assert (Hf : entry_text (full m)).
  { apply (entry_text_in_block xi); [|exact Hm].
    rewrite Forall_forall in Hblocks. apply Hblocks.
    apply list_elem_of_lookup_2 in Hi. exact Hi. }
  pose proof (entry_text_nonempty _ Hf) as Hne.
  rewrite (rewrite_step_replace _ _ _ _ _ _ E Hne).
  apply replace_absent; [exact Hne|].
  apply (apart_spec self cs preserve xs i j xi xj m v Hapart Hi Hj Hij).
  - rewrite Hpat. exact Hm.
  - congruence.
  - exact Hv.
Qed.

(** The entries of the other blocks, taken block by block, leave every
    version of a block as it is. *)
Lemma foreign_fold (g : str -> list TranslationMatch) pre x post v :
  xs = pre ++ x :: post ->
  (forall y m, In m (g y) -> In m (iter_tl default_Pattern y)) ->
  In v (versions self cs preserve x) ->
  fold_left (rewrite_step self cs preserve) (concat (map g pre)) v = v
  /\ fold_left (rewrite_step self cs preserve) (concat (map g post)) v = v.
Proof.
  intros Hxs Hg Hv.
  assert (Hj : xs !! length pre = Some x).
  { rewrite Hxs. apply list_lookup_middle. reflexivity. }
  split; apply fold_keep; intros m Hm;
    apply in_concat_blocks in Hm as (i & xi & Hi & Hm).
  - apply (foreign_keep i (length pre) xi x); try assumption.
    + rewrite Hxs. rewrite lookup_app_l; [exact Hi|].
      apply lookup_lt_Some in Hi. exact Hi.
    + apply lookup_lt_Some in Hi. lia.
    + apply Hg, Hm.
  - apply (foreign_keep (length pre + S i) (length pre) xi x); try assumption.
    + rewrite Hxs. rewrite lookup_app_r by lia.
      replace (length pre + S i - length pre)%nat with (S i) by lia.
      exact Hi.
    + lia.
    + apply Hg, Hm.
Qed.

(** The loop over the entries of the chunk does to a block what the loop
    over the block's own entries does. *)
Lemma chunk_fold_block pre x post :
  xs = pre ++ x :: post ->
  fold_left (rewrite_step self cs preserve) (iter_tl default_Pattern (concat xs)) x
  = rewritten self cs preserve x.
Proof.
  intros Hxs. rewrite (iter_tl_found_by_block xs Hfound).
  unfold rewritten. rewrite Hpat, (iter_tl_default x).
  set (mk := fun m => mkTranslationMatch (Re.whole m) (Re.group m "head")
                        (Re.group m "src") (Re.group m "dst")).
  set (g1 := fun x => map mk (Re.finditer PATTERN_OLD_NEW x)).
  set (g2 := fun x => map mk (Re.finditer PATTERN_SAY x)).
  change (map mk (Re.finditer PATTERN_OLD_NEW x)) with (g1 x).
  change (map mk (Re.finditer PATTERN_SAY x)) with (g2 x).
  assert (H1 : forall y m, In m (g1 y) -> In m (iter_tl default_Pattern y))
    by (intros y m; apply in_iter_tl_old_new).
  assert (H2 : forall y m, In m (g2 y) -> In m (iter_tl default_Pattern y))
    by (intros y m; apply in_iter_tl_say).
  assert (Hv : forall k,
            In (fold_left (rewrite_step self cs preserve) (take k (g1 x ++ g2 x)) x)
               (versions self cs preserve x)).
  { intros k. pose proof (version_take self cs preserve x k) as H.
    rewrite Hpat, (iter_tl_default x) in H. exact H. }
  rewrite Hxs at 1 2. rewrite !map_app. cbn [map]. rewrite !concat_app.
  cbn [concat]. rewrite !fold_left_app.
  (* the entries of the first pattern in the blocks before *)
  pose proof (Hv O) as Hv0. cbn [take fold_left] in Hv0.
  rewrite (proj1 (foreign_fold g1 pre x post x Hxs H1 Hv0)).
  (* those of the block itself, then those in the blocks after *)
  pose proof (Hv (length (g1 x))) as Hv1.
  rewrite take_app_length in Hv1.
  rewrite (proj2 (foreign_fold g1 pre x post _ Hxs H1 Hv1)).
  (* the second pattern *)
  rewrite (proj1 (foreign_fold g2 pre x post _ Hxs H2 Hv1)).
  pose proof (Hv (length (g1 x ++ g2 x))) as Hv2.
  rewrite take_ge in Hv2 by lia. rewrite fold_left_app in Hv2.
  rewrite (proj2 (foreign_fold g2 pre x post _ Hxs H2 Hv2)).
  reflexivity.
Qed.

(** The chunk rewritten is its blocks rewritten, put together. *)
Lemma rewritten_blocks :
  rewritten self cs preserve (concat xs) = concat (map (rewritten self cs preserve) xs).
Proof.
  unfold rewritten at 1. rewrite Hpat.
  rewrite rewrite_fold_separated; [|
    |exact Hsep].
  - f_equal. apply list_eq. intros j. rewrite !list_lookup_fmap.
    destruct (xs !! j) as [x|] eqn:Ej; [|reflexivity]. cbn [fmap option_fmap option_map].
    f_equal. apply list_elem_of_split_length in Ej as (pre & post & Hxs & _).
    apply (chunk_fold_block pre x post Hxs).
  - apply Forall_forall. intros m Hm. apply list_elem_of_In in Hm.
    rewrite (iter_tl_found_by_block xs Hfound) in Hm.
    apply in_app_or in Hm as [Hm|Hm];
      apply in_concat_blocks in Hm as (i & xi & Hi & Hm).
    + apply (entry_text_in_block xi); [|apply in_iter_tl_old_new, Hm].
      rewrite Forall_forall in Hblocks. apply Hblocks.
      apply list_elem_of_lookup_2 in Hi. exact Hi.
    + apply (entry_text_in_block xi); [|apply in_iter_tl_say, Hm].
      rewrite Forall_forall in Hblocks. apply Hblocks.
      apply list_elem_of_lookup_2 in Hi. exact Hi.
Qed.
End Chunk.

Lemma join_batch_texts (g : list (list str)) : join_batch g = concat (block_texts g).
Proof. unfold join_batch, block_texts. symmetry. apply concat_concat_map. Qed.

Lemma concat_block_texts {A} (f : str -> list A) (gs : list (list (list str))) :
  concat (map (fun g => concat (map f (block_texts g))) gs)
  = concat (map f (block_texts (concat gs))).
Proof.
  induction gs as [|g gs IH]; [reflexivity|].
  cbn [map concat]. unfold block_texts in *.
  rewrite !map_app, concat_app, IH. reflexivity.
Qed.

(** A file that is chunk-safe for the batch size [n], read with that batch
    size and rewritten chunk by chunk, is the file rewritten block by
    block. *)
Lemma chunks_rewritten self cs (p : path) (n : nat) (content : str) :
  pattern self = default_Pattern ->
  chunk_safe self cs p n content = true ->
  concat (map (rewritten self cs (bool_decide (PathLib.stem p ∈ preserve_files self)))
            (reader_chunks n content))
  = rewritten_by_block self cs p content.
Proof.
  intros Hpat Hsafe. unfold reader_chunks, rewritten_by_block, chunk_safe in *.
  assert (Hc : concat (batched n (iter_chunk content)) = iter_chunk content)
    by apply (batched_from_concat n []).
  pose proof (iter_chunk_sep content) as Hs.
  rewrite <- Hc in Hs. apply sep_ok_concat in Hs.
  rewrite <- Hc at 2.
  change (map (fun b => concat b) (concat (batched n (iter_chunk content))))
    with (block_texts (concat (batched n (iter_chunk content)))).
  rewrite <- concat_block_texts, map_map. f_equal.
  apply map_ext_in. intros g Hg.
  rewrite forallb_forall in Hsafe. specialize (Hsafe g Hg).
  apply andb_true_iff in Hsafe as [Hfound Hapart].
  rewrite Forall_forall in Hs.
  specialize (Hs g ltac:(apply list_elem_of_In; exact Hg)).
  rewrite join_batch_texts.
  apply rewritten_blocks.
  - exact Hpat.
  - unfold block_texts. apply Forall_forall. intros x Hx.
    apply list_elem_of_In, in_map_iff in Hx as (B & <- & HB).
    apply block_no_inner_blank.
    pose proof (sep_ok_blocks _ Hs) as Hb. rewrite Forall_forall in Hb.
    apply Hb, list_elem_of_In, HB.
  - apply sep_ok_separated, Hs.
  - rewrite <- Hpat. exact Hfound.
  - exact Hapart.
Qed.

(** With one block to a chunk every file is chunk-safe. *)
Lemma chunk_safe_one self cs (p : path) (content : str) :
  chunk_safe self cs p 1 content = true.
Proof.
  unfold chunk_safe. apply forallb_forall. intros g Hg.
  pose proof (batched_from_sizes 1%nat [] (iter_chunk content) ltac:(simpl; lia)) as Hs.
  rewrite Forall_forall in Hs.
  destruct (Hs g ltac:(apply list_elem_of_In; exact Hg)) as [Hne Hlen].
  destruct g as [|B [|B' g]]; [congruence| |simpl in Hlen; lia].
  unfold block_texts. cbn [map]. apply andb_true_iff. split.
  - unfold found_by_block. apply forallb_forall. intros r _.
    apply bool_decide_eq_true_2. cbn [map concat]. rewrite !app_nil_r. reflexivity.
  - unfold apart. cbn [imap forallb]. rewrite andb_true_r.
    apply forallb_forall. intros m _.
    destruct (replacement _ _ _ m); reflexivity.
Qed.

(** ** The pass and the batch size *)

(** C4, as the code has it.  For every file and every batch size [n >= 1]
    the reader yields the concatenations of groups of at most [n] whole
    consecutive blocks, so no block is split, the blocks being the runs of
    lines closed by a blank line and the run left at the end; the chunks
    put together are the content of the file.

    The output of the pass does depend on the batch size, but not for a
    file that is chunk-safe: with the patterns of the module and the
    characters at hand, for every batch size [n >= 1] such that, in every
    chunk, each pattern finds the entries it finds in the blocks of the
    chunk one by one, and the full text of an entry that is rewritten
    occurs in no other block of the chunk at any stage of that block's
    rewriting, the pass gives the file rewritten block by block, which is
    the same text for all these [n].  One block to a chunk is always such a
    batch size, so that text is what the pass gives with the batch size
    one, and the pass with a batch size for which the file is chunk-safe
    gives what the pass with the batch size one gives. *)
Theorem chunked_reader_keeps_blocks self (p : path) (content : str) st :
  1 <= batch_size (conf self) ->
  fs st !! p = Some (Text content) ->
  exists groups,
    RpyReader p (batch_size (conf self)) st = (Ok (map join_batch groups), st)
    /\ concat groups = iter_chunk content
    /\ Forall (fun g => g ≠ [] /\ Z.of_nat (length g) <= batch_size (conf self)) groups
    /\ (exists bs b, iter_chunk content = bs ++ [b]
                     /\ Forall closed_block bs /\ open_block b)
    /\ concat (map join_batch groups) = content
    /\ (forall cs st1 n,
          pattern self = default_Pattern ->
          characters self st = (Ok cs, st1) ->
          1 <= n ->
          chunk_safe self cs p (Z.to_nat n) content = true ->
          fst (rpy (set_batch_size self n) p st)
          = Ok (rewritten_by_block self cs p content)
          /\ fst (rpy (set_batch_size self n) p st)
             = fst (rpy (set_batch_size self 1) p st))
    /\ (forall cs, chunk_safe self cs p 1 content = true).
Proof.
  intros Hn Hp.
  exists (batched (Z.to_nat (batch_size (conf self))) (iter_chunk content)).
  split; [apply RpyReader_ok; assumption|].
  split; [apply (batched_from_concat _ [])|].
  split.
  { eapply Forall_impl; [apply batched_from_sizes; simpl; lia|].
    intros g [H1 H2]. split; [exact H1|lia]. }
  split; [apply iter_chunk_from_blocks; constructor|].
  split; [apply reader_chunks_concat|].
  split; [|intros cs; apply chunk_safe_one].
  intros cs st1 n Hpat Hc Hn1 Hsafe.
  assert (Hpass : forall k,
            1 <= k -> chunk_safe self cs p (Z.to_nat k) content = true ->
            fst (rpy (set_batch_size self k) p st)
            = Ok (rewritten_by_block self cs p content)).
  { intros k Hk1 Hks.
    assert (Hk : knows (set_batch_size self k) cs st) by (exists st1; exact Hc).
    rewrite (pass_rewritten (set_batch_size self k) cs p content st Hk1 Hp Hk).
    exact (f_equal Ok (chunks_rewritten self cs p (Z.to_nat k) content Hpat Hks)). }
  split; [apply Hpass; assumption|].
  rewrite (Hpass n Hn1 Hsafe).
  rewrite (Hpass 1 ltac:(lia) (chunk_safe_one self cs p content)). reflexivity.
Qed.

Lemma chunked_reader_keeps_blocks_witness :
  1 <= batch_size (conf test_self)
  /\ fs (warm (one_file "scenario.rpy" RPY)) !! tl_file "scenario.rpy" = Some (Text RPY)
  /\ length (iter_chunk RPY) = 11%nat
  /\ chunk_safe test_self test_characters (tl_file "scenario.rpy") 1 RPY = true
  /\ chunk_safe test_self test_characters (tl_file "scenario.rpy") 2 RPY = true
  /\ chunk_safe test_self test_characters (tl_file "scenario.rpy") 3 RPY = true
  /\ chunk_safe test_self test_characters (tl_file "scenario.rpy") 10 RPY = true
  /\ fst (rpy (set_batch_size test_self 1) (tl_file "scenario.rpy")
            (warm (one_file "scenario.rpy" RPY)))
     = Ok (rewritten_by_block test_self test_characters (tl_file "scenario.rpy") RPY)
  /\ fst (rpy (set_batch_size test_self 2) (tl_file "scenario.rpy")
            (warm (one_file "scenario.rpy" RPY)))
     = Ok (rewritten_by_block test_self test_characters (tl_file "scenario.rpy") RPY)
  /\ fst (rpy (set_batch_size test_self 3) (tl_file "scenario.rpy")
            (warm (one_file "scenario.rpy" RPY)))
     = Ok (rewritten_by_block test_self test_characters (tl_file "scenario.rpy") RPY)
  /\ fst (rpy (set_batch_size test_self 10) (tl_file "scenario.rpy")
            (warm (one_file "scenario.rpy" RPY)))
     = Ok (rewritten_by_block test_self test_characters (tl_file "scenario.rpy") RPY)
  /\ rewritten_by_block test_self test_characters (tl_file "scenario.rpy") RPY
     = pyq "
translate korean strings:

    # source.rpy:99
    old 's1'
    new 's1  |  s2'

# source.rpy:65
translate korean abcdef:

    # c1 's3'
    c1 's3  |  s4'

translate korean strings:

    # source.rpy:99
    old '[character1]'
    new '[character1]'

translate korean strings:

    # source.rpy:99
    old 'character1'
    new 'character1 (character2)'

translate korean strings:

    # source.rpy:99
    old 'long{p}string{w}'
    new 'long / string\n%%translated'
".
Proof.
  assert (Hn : 1 <= batch_size (conf test_self)) by (vm_compute; discriminate).
  assert (Hp : fs (warm (one_file "scenario.rpy" RPY)) !! tl_file "scenario.rpy"
               = Some (Text RPY)) by (vm_compute; reflexivity).
  assert (Hc : characters test_self (warm (one_file "scenario.rpy" RPY))
               = (Ok test_characters, warm (one_file "scenario.rpy" RPY)))
    by (apply characters_cached; reflexivity).
  assert (H1 : chunk_safe test_self test_characters (tl_file "scenario.rpy") 1 RPY = true)
    by (vm_compute; reflexivity).
  assert (H2 : chunk_safe test_self test_characters (tl_file "scenario.rpy") 2 RPY = true)
    by (vm_compute; reflexivity).
  assert (H3 : chunk_safe test_self test_characters (tl_file "scenario.rpy") 3 RPY = true)
    by (vm_compute; reflexivity).
  assert (H10 : chunk_safe test_self test_characters (tl_file "scenario.rpy") 10 RPY = true)
    by (vm_compute; reflexivity).
  destruct (chunked_reader_keeps_blocks test_self (tl_file "scenario.rpy") RPY
              (warm (one_file "scenario.rpy" RPY)) Hn Hp)
    as (groups & _ & _ & _ & _ & _ & H & _).
  split; [exact Hn|]. split; [exact Hp|]. split; [vm_compute; reflexivity|].
  split; [exact H1|]. split; [exact H2|]. split; [exact H3|]. split; [exact H10|].
  split; [apply (proj1 (H test_characters _ 1 eq_refl Hc ltac:(lia) H1))|].
  split; [apply (proj1 (H test_characters _ 2 eq_refl Hc ltac:(lia) H2))|].
  split; [apply (proj1 (H test_characters _ 3 eq_refl Hc ltac:(lia) H3))|].
  split; [apply (proj1 (H test_characters _ 10 eq_refl Hc ltac:(lia) H10))|].
  vm_compute. reflexivity.
Defined.

(** C4 fails as stated: the white space between the two strings of an entry
    may hold a blank line.  With one block to a chunk the entry is cut in
    two and found in neither chunk; with two blocks to a chunk it is found
    and rewritten.  The output depends on the batch size. *)
Lemma batch_size_changes_output :
  iter_chunk gap_text = [[pyq "    old 'a'
"; py "
"]; [pyq "    new 'b'
"]]
  /\ fst (rpy (with_batch_size 1) (tl_file "scenario.rpy")
            (fresh (one_file "scenario.rpy" gap_text)))
     = Ok gap_text
  /\ fst (rpy (with_batch_size 2) (tl_file "scenario.rpy")
            (fresh (one_file "scenario.rpy" gap_text)))
     = Ok (pyq "    old 'a'

    new 'a  |  b'
")
  /\ fst (rpy (with_batch_size 1) (tl_file "scenario.rpy")
            (fresh (one_file "scenario.rpy" gap_text)))
     ≠ fst (rpy (with_batch_size 2) (tl_file "scenario.rpy")
              (fresh (one_file "scenario.rpy" gap_text))).
Proof. vm_compute. repeat split; discriminate. Qed.

(** The two conditions are needed.  The file with the entry across a blank
    line is not chunk-safe for two blocks to a chunk.  Neither is a file in
    which the text of an entry stands inside the entry of the next block:
    with two blocks to a chunk the edit of the first entry reaches into the
    second block, and the output differs from that with one block to a
    chunk. *)
Example unsafe_files :
  chunk_safe test_self test_characters (tl_file "scenario.rpy") 1 gap_text = true
  /\ chunk_safe test_self test_characters (tl_file "scenario.rpy") 2 gap_text = false
  /\ chunk_safe test_self test_characters (tl_file "scenario.rpy") 1 inner_text = true
  /\ chunk_safe test_self test_characters (tl_file "scenario.rpy") 2 inner_text = false
  /\ fst (rpy (with_batch_size 1) (tl_file "scenario.rpy")
            (fresh (one_file "scenario.rpy" inner_text)))
     = Ok (pyq "    old 'a'
    new 'a  |  b'

    old 'x' old 'a'
    new 'x' old 'a  |  b'
")
  /\ fst (rpy (with_batch_size 2) (tl_file "scenario.rpy")
            (fresh (one_file "scenario.rpy" inner_text)))
     = Ok (pyq "    old 'a'
    new 'a  |  b'

    old 'x' old 'a'
    new 'a  |  b'
").
Proof. vm_compute. repeat split. Qed.

(** The file of the repository's test is chunk-safe for every batch size:
    its rewritten text does not depend on the batch size. *)
Example test_file_any_batch_size (n : Z) :
  1 <= n ->
  chunk_safe test_self test_characters (tl_file "scenario.rpy") (Z.to_nat n) RPY = true
  /\ fst (rpy (set_batch_size test_self n) (tl_file "scenario.rpy")
            (warm (one_file "scenario.rpy" RPY)))
     = Ok (rewritten_by_block test_self test_characters (tl_file "scenario.rpy") RPY).
Proof.
  intros Hn.
  assert (Hsafe : chunk_safe test_self test_characters (tl_file "scenario.rpy")
                    (Z.to_nat n) RPY = true).
  { assert (Hk : (1 <= Z.to_nat n)%nat) by lia. revert Hk.
    generalize (Z.to_nat n). intros k Hk.
    destruct (le_lt_dec k 11) as [Hle|Hgt].
    - do 12 (destruct k as [|k]; [try lia; try (vm_compute; reflexivity)|]). lia.
    - unfold chunk_safe, batched.
      rewrite batched_from_single.
      + vm_compute. reflexivity.
      + vm_compute. discriminate.
      + assert (E : length (iter_chunk RPY) = 11%nat) by (vm_compute; reflexivity).
        rewrite E. simpl. lia.
      + simpl. lia. }
  split; [exact Hsafe|].
  assert (Hc : characters test_self (warm (one_file "scenario.rpy" RPY))
               = (Ok test_characters, warm (one_file "scenario.rpy" RPY)))
    by (apply characters_cached; reflexivity).
  destruct (chunked_reader_keeps_blocks test_self (tl_file "scenario.rpy") RPY
              (warm (one_file "scenario.rpy" RPY)))
    as (groups & _ & _ & _ & _ & _ & H & _).
  - vm_compute. discriminate.
  - vm_compute. reflexivity.
  - apply (proj1 (H test_characters _ n eq_refl Hc Hn Hsafe)).
Qed.

(** ** The pass over a file and the run *)

Lemma loop_fold_frame {A B} (f : B -> A -> M B) (l : list A) :
  (forall b a st r st', f b a st = (r, st') -> same_files st st') ->
  forall b st r st', loop_fold f l b st = (r, st') -> same_files st st'.
Proof.
  intros Hf. induction l as [|x l IH]; intros b st r st'; simpl.
  - intros [= <- <-]. apply same_files_refl.
  - unfold mbind, M_bind, bind.
    destruct (f b x st) as [[b'|e] st1] eqn:E; apply Hf in E.
    + intros H. apply IH in H. eapply same_files_trans; eassumption.
    + intros [= <- <-]. exact E.
Qed.

Lemma loop_map_frame {A B} (f : A -> M B) (l : list A) :
  (forall a st r st', f a st = (r, st') -> same_files st st') ->
  forall st r st', loop_map f l st = (r, st') -> same_files st st'.
Proof.
  intros Hf. induction l as [|x l IH]; intros st r st'; simpl.
  - intros [= <- <-]. apply same_files_refl.
  - unfold mbind, M_bind, bind.
    destruct (f x st) as [[y|e] st1] eqn:E; apply Hf in E.
    + destruct (loop_map f l st1) as [[ys|e] st2] eqn:E2; apply IH in E2;
        intros [= <- <-]; eapply same_files_trans; eassumption.
    + intros [= <- <-]. exact E.
Qed.

Lemma _rpy_step_frame self preserve text m st r st' :
  _rpy_step self preserve text m st = (r, st') -> same_files st st'.
Proof.
  unfold _rpy_step, mbind, M_bind, bind.
  destruct (_edit self text m preserve st) as [[t|e] st1] eqn:E;
    apply edit_frame in E; intros [= <- <-]; exact E.
Qed.

Lemma _rpy_frame self text preserve st r st' :
  _rpy self text preserve st = (r, st') -> same_files st st'.
Proof.
  unfold _rpy. apply loop_fold_frame. intros b a. apply _rpy_step_frame.
Qed.

Lemma RpyReader_frame (p : path) (n : Z) st r st' :
  RpyReader p n st = (r, st') -> st' = st.
Proof.
  unfold RpyReader, mbind, M_bind, bind, FS.read_text, raise.
  destruct (n <? 1); [intros [= <- <-]; reflexivity|].
  destruct (fs st !! p) as [[t|z]|]; intros [= <- <-]; reflexivity.
Qed.

(** The pass over a file reads: it writes no file. *)
Lemma rpy_frame self (p : path) st r st' :
  rpy self p st = (r, st') -> same_files st st'.
Proof.
  unfold rpy, mbind, M_bind, bind.
  destruct (RpyReader p _ st) as [[chunks|e] st1] eqn:E;
    apply RpyReader_frame in E; subst st1.
  - destruct (loop_map _ chunks st) as [[ts|e] st2] eqn:E2;
      apply loop_map_frame in E2;
      try (intros a st0 r0 st0'; apply _rpy_frame);
      intros [= <- <-]; exact E2.
  - intros [= <- <-]. apply same_files_refl.
Qed.



(** ** Errors of the run *)

Lemma filter_nil_false {A} (f : A -> bool) (l : list A) :
  (forall x, In x l -> f x = false) -> List.filter f l = [].
Proof.
  induction l as [|x l IH]; intros H; [reflexivity|].
  simpl. rewrite (H x) by (left; reflexivity).
  apply IH. intros y Hy. apply H. right. exact Hy.
Qed.

Lemma filter_nil_inv {A} (f : A -> bool) (l : list A) :
  List.filter f l = [] -> forall x, In x l -> f x = false.
Proof.
  induction l as [|x l IH]; intros H y Hy; [destruct Hy|].
  simpl in H. destruct (f x) eqn:E; [discriminate H|].
  destruct Hy as [<-|Hy]; [exact E|apply IH; assumption].
Qed.

Lemma last_snoc {A} (l : list A) (x d : A) : List.last (l ++ [x]) d = x.
Proof. apply last_last. Qed.

(** The archive lies beside the language directory, not under it. *)
Lemma under_sibling (d : path) (a b : str) :
  PathLib.under (d ++ [a]) (d ++ [b]) = false.
Proof.
  unfold PathLib.under. rewrite !length_app. simpl.
  rewrite (proj2 (Nat.ltb_ge _ _)) by lia. reflexivity.
Qed.

(** The backup step: it leaves the state, or adds the archive beside the
    language directory, or fails in [make_archive] on a language directory
    that is not there, with the state as it was. *)
Lemma backup_step_cases self st :
  backup_step self st = (Ok tt, st)
  \/ (exists nm ms,
        FS.is_dir (language_dir self) st = true
        /\ backup_step self st = (Ok tt, archived (tl_dir self ++ [nm]) ms st))
  \/ (FS.is_dir (language_dir self) st = false
      /\ (backup_step self st = (Raise (FileNotFoundError (language_dir self)), st)
          \/ (FS.blocked (language_dir self) st = true
              /\ backup_step self st
                 = (Raise (NotADirectoryError (language_dir self)), st)))).
Proof.
  unfold backup_step. destruct (backup (paths self)) as [[|c b]|];
    [left; reflexivity| |left; reflexivity].
  unfold PathLib.with_suffix, PathLib.name, PathLib.parent.
  rewrite last_snoc.
  destruct (language (conf self) ++ c :: b) as [|x nm] eqn:E.
  { destruct (language (conf self)); discriminate E. }
  unfold mbind, M_bind, bind, FS.exists_.
  match goal with |- context [negb ?e] => destruct e end; simpl.
  - left. reflexivity.
  - right. unfold FS.make_archive, PathLib.parent, PathLib.name.
    rewrite last_snoc, removelast_last.
    destruct (FS.is_dir (language_dir self) st) eqn:Ed.
    + left. eexists _, _. split; reflexivity.
    + right. split; [reflexivity|].
      destruct (FS.blocked (language_dir self) st) eqn:Eb.
      * right. split; reflexivity.
      * left. reflexivity.
Qed.

Lemma loop_each_stops {A} (f : A -> M unit) (l1 l2 : list A) (x : A) st st1 e st2 :
  loop_each l1 f st = (Ok tt, st1) ->
  f x st1 = (Raise e, st2) ->
  loop_each (l1 ++ x :: l2) f st = (Raise e, st2).
Proof.
  revert st. induction l1 as [|y l1 IH]; intros st; simpl.
  - intros [= <-] H. unfold mbind, M_bind, bind. rewrite H. reflexivity.
  - unfold mbind, M_bind, bind.
    destruct (f y st) as [[[]|e'] st'] eqn:E; [|discriminate].
    intros H1 H2. apply IH; assumption.
Qed.

(** ** Without the source of the characters *)

Lemma edit_side_by_side_raises self text m st e :
  characters self st = (Raise e, st) ->
  _edit_side_by_side self text m st = (Raise e, st).
Proof.
  intros H. unfold _edit_side_by_side, mbind, M_bind, bind. rewrite H. reflexivity.
Qed.

(** [_edit] raises what [characters] raises exactly for the entries that
    reach [_edit_side_by_side]; the others are kept or made source-only. *)
Lemma edit_without_characters self text m preserve st e :
  characters self st = (Raise e, st) ->
  _edit self text m preserve st
  = if needs_characters self preserve m then (Raise e, st)
    else (Ok (if noop_guard m then None
              else Some (Str.replace (full m) (fmt_src m) text)), st).
Proof.
  intros H. unfold _edit, needs_characters.
  destruct (noop_guard m); [reflexivity|]. cbn [negb andb].
  destruct (preserve || _); cbn [negb]; [reflexivity|].
  apply edit_side_by_side_raises, H.
Qed.

Lemma rpy_fold_without_characters self preserve st e (l : list TranslationMatch) :
  characters self st = (Raise e, st) ->
  forall text,
    if existsb (needs_characters self preserve) l
    then loop_fold (_rpy_step self preserve) l text st = (Raise e, st)
    else exists t, loop_fold (_rpy_step self preserve) l text st = (Ok t, st).
Proof.
  intros H. induction l as [|m l IH]; intros text; cbn [existsb loop_fold].
  - exists text. reflexivity.
  - unfold mbind, M_bind, bind, _rpy_step. unfold mbind, M_bind, bind.
    rewrite (edit_without_characters _ _ _ _ _ _ H).
    destruct (needs_characters self preserve m); cbn [orb]; [reflexivity|].
    apply IH.
Qed.

Lemma rpy_map_without_characters self preserve st e (chunks : list str) :
  characters self st = (Raise e, st) ->
  if existsb (fun chunk => existsb (needs_characters self preserve)
                             (iter_tl (pattern self) chunk)) chunks
  then loop_map (fun text => _rpy self text preserve) chunks st = (Raise e, st)
  else exists ts, loop_map (fun text => _rpy self text preserve) chunks st = (Ok ts, st).
Proof.
  intros H. induction chunks as [|c cs IH]; cbn [existsb loop_map].
  - exists []. reflexivity.
  - unfold mbind, M_bind, bind, _rpy.
    pose proof (rpy_fold_without_characters self preserve st e
                  (iter_tl (pattern self) c) H c) as Hc.
    destruct (existsb (needs_characters self preserve) (iter_tl (pattern self) c));
      cbn [orb].
    + rewrite Hc. reflexivity.
    + destruct Hc as [t ->].
      destruct (existsb _ cs).
      * fold (_rpy self). unfold _rpy in IH. rewrite IH. reflexivity.
      * unfold _rpy in IH. destruct IH as [ts ->]. eexists. reflexivity.
Qed.

(** The pass over a file, and the step of the run for it, without the
    characters: they raise exactly when an entry of the file needs them,
    and then nothing is written. *)
Lemma pass_without_characters self (p : path) (content : str) st e :
  characters self st = (Raise e, st) ->
  fs st !! p = Some (Text content) ->
  1 <= batch_size (conf self) ->
  if file_needs_characters self p content
  then rpy self p st = (Raise e, st) /\ rewrite_file self p st = (Raise e, st)
  else exists t, rpy self p st = (Ok t, st).
Proof.
  intros H Hp Hn. unfold file_needs_characters.
  pose proof (rpy_map_without_characters self
                (bool_decide (PathLib.stem p ∈ preserve_files self)) st e
                (reader_chunks (Z.to_nat (batch_size (conf self))) content) H) as Hm.
  destruct (existsb _ _).
  - assert (E : rpy self p st = (Raise e, st)).
    { unfold rpy, mbind, M_bind, bind.
      rewrite (RpyReader_ok p _ content st Hn Hp), Hm. reflexivity. }
    split; [exact E|].
    unfold rewrite_file, mbind, M_bind, bind. rewrite E. reflexivity.
  - destruct Hm as [ts Hm]. eexists.
    unfold rpy, mbind, M_bind, bind.
    rewrite (RpyReader_ok p _ content st Hn Hp), Hm. reflexivity.
Qed.

(** C8, as the code has it.

    The empty file set.  When the language directory lists no translation
    script the run raises, and the state at the error is the state before
    the run or that state with the backup archive added, which happens only
    when the language directory is there: the archive is made before the
    files are listed.  The error is the not-found error for the language
    directory, whether it comes from [make_archive] on a directory that is
    not there or from the test of the listing; only when a file stands in
    the place of the directory, or above it, [make_archive] raises
    [NotADirectoryError] for it.

    The source of the characters.  With the configured source file absent,
    [characters] raises the not-found error for it at its first access,
    which is in [_edit_side_by_side]: so [_edit] raises it exactly for the
    entries that the guard and the preservation test let through, [_rpy]
    and the pass over a file raise it exactly when one of their entries is
    such an entry, and they succeed otherwise; the state stays as it was.

    The run.  When the backup step has ended well, the files before [p] in
    the listing have been dealt with, and [p] holds an entry that needs the
    characters while their source is absent, the run raises the not-found
    error for that source in the state the files before [p] left: the
    archive and the files already rewritten stay, [p] and the files after
    it are not written. *)
Theorem run_errors_after_backup self :
  (forall st,
     fst (FS.rglob_rpy (language_dir self) st) = Ok [] ->
     exists e st',
       call self st = (Raise e, st')
       /\ (e = FileNotFoundError (language_dir self)
           \/ (e = NotADirectoryError (language_dir self)
               /\ FS.blocked (language_dir self) st = true /\ st' = st))
       /\ (st' = st
           \/ exists nm ms,
                FS.is_dir (language_dir self) st = true
                /\ st' = archived (tl_dir self ++ [nm]) ms st))
  /\ (forall st source,
        pattern self = default_Pattern ->
        cache st = None ->
        or_path (characters_path (paths self)) (script (paths self)) = Some source ->
        FS.exists_ (root self ++ source) st = (Ok false, st) ->
        characters self st = (Raise (FileNotFoundError (root self ++ source)), st)
        /\ (forall text m,
              _edit_side_by_side self text m st
              = (Raise (FileNotFoundError (root self ++ source)), st))
        /\ (forall text m preserve,
              _edit self text m preserve st
              = if needs_characters self preserve m
                then (Raise (FileNotFoundError (root self ++ source)), st)
                else (Ok (if noop_guard m then None
                          else Some (Str.replace (full m) (fmt_src m) text)), st))
        /\ (forall text preserve,
              if existsb (needs_characters self preserve) (iter_tl (pattern self) text)
              then _rpy self text preserve st
                   = (Raise (FileNotFoundError (root self ++ source)), st)
              else exists t, _rpy self text preserve st = (Ok t, st))
        /\ (forall p content,
              fs st !! p = Some (Text content) ->
              1 <= batch_size (conf self) ->
              if file_needs_characters self p content
              then rpy self p st = (Raise (FileNotFoundError (root self ++ source)), st)
                   /\ rewrite_file self p st
                      = (Raise (FileNotFoundError (root self ++ source)), st)
              else exists t, rpy self p st = (Ok t, st)))
  /\ (forall st st1 ps1 p ps2 st2 source content,
        pattern self = default_Pattern ->
        backup_step self st = (Ok tt, st1) ->
        fst (FS.rglob_rpy (language_dir self) st1) = Ok (ps1 ++ p :: ps2) ->
        loop_each ps1 (rewrite_file self) st1 = (Ok tt, st2) ->
        cache st2 = None ->
        or_path (characters_path (paths self)) (script (paths self)) = Some source ->
        FS.exists_ (root self ++ source) st2 = (Ok false, st2) ->
        fs st2 !! p = Some (Text content) ->
        1 <= batch_size (conf self) ->
        file_needs_characters self p content = true ->
        call self st = (Raise (FileNotFoundError (root self ++ source)), st2)).
Proof.
  split; [|split].
  - intros st Hnone.
    assert (Hnil : List.filter (FS.rpy_under (language_dir self))
                     (map fst (map_to_list (fs st))) = []).
    { unfold FS.rglob_rpy in Hnone. cbn [fst] in Hnone. congruence. }
    clear Hnone. rename Hnil into Hnone.
    pose proof (filter_nil_inv _ _ Hnone) as Hkeys.
    unfold call, mbind, M_bind, bind.
    destruct (backup_step_cases self st)
      as [E|[(nm & ms & Ed & E)|(Ed & [E|(Eb & E)])]]; rewrite E.
    + exists (FileNotFoundError (language_dir self)), st.
      unfold FS.rglob_rpy. rewrite Hnone.
      split; [reflexivity|]. split; left; reflexivity.
    + exists (FileNotFoundError (language_dir self)),
        (archived (tl_dir self ++ [nm]) ms st).
      unfold FS.rglob_rpy, archived. cbn [fs].
      rewrite filter_nil_false.
      * split; [reflexivity|]. split; [left; reflexivity|].
        right. exists nm, ms. split; [exact Ed|reflexivity].
      * intros x Hx. apply In_keys in Hx.
        destruct (decide (x = tl_dir self ++ [nm])) as [->|Hne].
        -- unfold FS.rpy_under, language_dir. rewrite under_sibling. reflexivity.
        -- rewrite lookup_insert_ne in Hx by congruence.
           apply Hkeys, In_keys, Hx.
    + exists (FileNotFoundError (language_dir self)), st.
      split; [reflexivity|]. split; left; reflexivity.
    + exists (NotADirectoryError (language_dir self)), st.
      split; [reflexivity|]. split; [|left; reflexivity].
      right. repeat split. exact Eb.
  - intros st source Hpat Hc Hp Ha.
    pose proof (characters_missing self st source Hc Hp Ha) as H.
    split; [exact H|].
    split; [intros text m; apply edit_side_by_side_raises, H|].
    split; [intros text m preserve; apply edit_without_characters, H|].
    split.
    + intros text preserve. unfold _rpy.
      apply rpy_fold_without_characters, H.
    + intros p content Hf Hn. apply pass_without_characters; assumption.
  - intros st st1 ps1 p ps2 st2 source content Hpat Hb Hl Hloop Hc Hp Ha Hf Hn Hneed.
    pose proof (characters_missing self st2 source Hc Hp Ha) as H.
    pose proof (pass_without_characters self p content st2 _ H Hf Hn) as Hpass.
    rewrite Hneed in Hpass. destruct Hpass as [_ Hstep].
    unfold call, mbind, M_bind, bind. rewrite Hb.
    unfold FS.rglob_rpy in *. cbn [fst] in Hl. injection Hl as Hl. rewrite Hl.
    destruct (ps1 ++ p :: ps2) eqn:El; [destruct ps1; discriminate El|].
    rewrite <- El.
    rewrite (loop_each_stops _ ps1 ps2 p st1 st2 _ st2 Hloop Hstep).
    reflexivity.
Qed.

Lemma run_errors_after_backup_witness :
  fst (FS.rglob_rpy (language_dir test_self) (fresh notes_fs)) = Ok []
  /\ (exists e st',
        call test_self (fresh notes_fs) = (Raise e, st')
        /\ (e = FileNotFoundError (language_dir test_self)
            \/ (e = NotADirectoryError (language_dir test_self)
                /\ FS.blocked (language_dir test_self) (fresh notes_fs) = true
                /\ st' = fresh notes_fs))
        /\ (st' = fresh notes_fs
            \/ exists nm ms,
                 FS.is_dir (language_dir test_self) (fresh notes_fs) = true
                 /\ st' = archived (tl_dir test_self ++ [nm]) ms (fresh notes_fs)))
  /\ file_needs_characters test_self (tl_file "gui.rpy") RPY = false
  /\ file_needs_characters test_self (tl_file "scenario.rpy") RPY = true
  /\ FS.exists_ script_path (fresh no_script_fs) = (Ok false, fresh no_script_fs)
  /\ call test_self (fresh no_script_fs)
     = (Raise (FileNotFoundError (root test_self ++ [py "game"; py "script.rpy"])),
        snd (rewrite_file test_self (tl_file "gui.rpy")
               (snd (backup_step test_self (fresh no_script_fs))))).
Proof.
  assert (H0 : fst (FS.rglob_rpy (language_dir test_self) (fresh notes_fs)) = Ok [])
    by (vm_compute; reflexivity).
  split; [exact H0|].
  split; [exact (proj1 (run_errors_after_backup test_self) (fresh notes_fs) H0)|].
  split; [vm_compute; reflexivity|].
  split; [vm_compute; reflexivity|].
  split; [vm_compute; reflexivity|].
  apply (proj2 (proj2 (run_errors_after_backup test_self))
           (fresh no_script_fs)
           (snd (backup_step test_self (fresh no_script_fs)))
           [tl_file "gui.rpy"] (tl_file "scenario.rpy") []
           (snd (rewrite_file test_self (tl_file "gui.rpy")
                   (snd (backup_step test_self (fresh no_script_fs)))))
           [py "game"; py "script.rpy"] RPY).
  - reflexivity.
  - vm_compute. reflexivity.
  - vm_compute. reflexivity.
  - vm_compute. reflexivity.
  - vm_compute. reflexivity.
  - reflexivity.
  - vm_compute. reflexivity.
  - vm_compute. reflexivity.
  - vm_compute. discriminate.
  - vm_compute. reflexivity.
Defined.

(** C8 fails as stated.  With no translation script in the language
    directory, the error comes after the backup archive was written.  With
    the script of the characters absent, the error comes after the archive
    was written and after the preserved file [gui.rpy], which needs no
    character, was rewritten. *)
Lemma run_mutates_before_not_found :
  fst (call test_self (fresh notes_fs))
  = Raise (FileNotFoundError (language_dir test_self))
  /\ log (snd (call test_self (fresh notes_fs))) = [EvArchive backup_zip]
  /\ notes_fs !! backup_zip = None
  /\ fs (snd (call test_self (fresh notes_fs))) !! backup_zip
     = Some (Zip [([py "notes.txt"], py "todo")])
  /\ no_script_fs !! script_path = None
  /\ fst (call test_self (fresh no_script_fs))
     = Raise (FileNotFoundError script_path)
  /\ log (snd (call test_self (fresh no_script_fs)))
     = [EvWrite (tl_file "gui.rpy"); EvArchive backup_zip]
  /\ text_at (tl_file "gui.rpy") (snd (call test_self (fresh no_script_fs))) ≠ RPY.
Proof. vm_compute. repeat split; discriminate. Qed.

(** ** A second run *)

(** C1 at a source with a percent sign: the first run merges the entry; the
    second run reads the merged translation, doubles the percent sign in
    it, no longer finds the source at its head, and merges again.  The file
    after the second run is not the file after the first. *)
Lemma second_run_rewrites_again :
  let p := tl_file "scenario.rpy" in
  let st1 := snd (call test_self (fresh (one_file "scenario.rpy" sale_text))) in
  let st2 := snd (call test_self st1) in
  fst (call test_self (fresh (one_file "scenario.rpy" sale_text))) = Ok tt
  /\ fst (call test_self st1) = Ok tt
  /\ text_at p st1 = pyq "    old '50% off'
    new '50% off  |  sale'
"
  /\ fst (rpy test_self p st1) = Ok (pyq "    old '50% off'
    new '50% off  |  50%% off  |  sale'
")
  /\ text_at p st2 = pyq "    old '50% off'
    new '50% off  |  50%% off  |  sale'
"
  /\ text_at p st2 ≠ text_at p st1.
Proof. vm_compute. repeat split; discriminate. Qed.

(** On the project of the repository's test, where no source holds a
    percent sign, the guards do their work: a second run writes nothing. *)
Example second_run_keeps_test_project :
  let st1 := snd (call test_self (fresh test_fs)) in
  fst (call test_self st1) = Ok tt
  /\ log (snd (call test_self st1)) = log st1
  /\ fst (rpy test_self (tl_file "scenario.rpy") st1)
     = Ok (text_at (tl_file "scenario.rpy") st1)
  /\ fst (rpy test_self (tl_file "gui.rpy") st1)
     = Ok (text_at (tl_file "gui.rpy") st1).
Proof. vm_compute. repeat split. Qed.

(** * Further properties *)

(** ** Entries and the chunk they come from *)

(** X1: whatever the patterns are, the full match of every entry found in a
    chunk is a piece of that chunk. *)
Theorem entry_occurs_in_chunk (pat : Pattern) (text : str) (m : TranslationMatch) :
  In m (iter_tl pat text) -> exists a b, text = a ++ full m ++ b.
Proof.
  intros H. apply iter_tl_inv in H as (r & rm & _ & (a & b & Ht & _) & ->).
  exists a, b. exact Ht.
Qed.

Lemma entry_occurs_in_chunk_witness :
  In twice_entry (iter_tl default_Pattern twice_text)
  /\ exists a b, twice_text = a ++ full twice_entry ++ b.
Proof.
  assert (H : In twice_entry (iter_tl default_Pattern twice_text))
    by (vm_compute; left; reflexivity).
  split; [exact H|].
  exact (entry_occurs_in_chunk default_Pattern twice_text twice_entry H).
Defined.

(** X2: the anatomy of an entry of the two patterns of the module.  Its
    full match is its head, a quote, the translation as written and a
    quote; the translation it holds is that one with lone percent signs
    doubled; neither the source nor the translation holds a newline; the
    head is that of an [old]/[new] pair or of a say statement. *)
Theorem entry_anatomy (text : str) (m : TranslationMatch) :
  In m (iter_tl default_Pattern text) ->
  exists raw,
    full m = head m ++ [QUOTE] ++ raw ++ [QUOTE]
    /\ dst m = Re.sub PERCENT (py "%%") raw
    /\ (LF ∉ src m) /\ (LF ∉ raw)
    /\ (old_new_head m \/ say_head m).
Proof.
  intros H. apply iter_tl_inv in H as (r & rm & Hr & Hm & ->).
  exists (Re.group rm "dst"). unfold old_new_head, say_head, mkTranslationMatch.
  cbn [full head src dst].
  destruct Hr as [<-|[<-|[]]].
  - destruct (old_new_anatomy _ _ Hm) as (Hw & Hs & Hd & Hh).
    repeat split; try assumption. left. exact Hh.
  - destruct (say_anatomy _ _ Hm) as (Hw & Hs & Hd & Hh).
    repeat split; try assumption. right. exact Hh.
Qed.

Lemma entry_anatomy_witness :
  In long_entry (iter_tl default_Pattern long_text)
  /\ exists raw,
       full long_entry = head long_entry ++ [QUOTE] ++ raw ++ [QUOTE]
       /\ dst long_entry = Re.sub PERCENT (py "%%") raw
       /\ (LF ∉ src long_entry) /\ (LF ∉ raw)
       /\ (old_new_head long_entry \/ say_head long_entry).
Proof.
  assert (H : In long_entry (iter_tl default_Pattern long_text))
    by (vm_compute; left; reflexivity).
  split; [exact H|].
  exact (entry_anatomy long_text long_entry H).
Defined.

(** A chunk without a double quote holds no entry. *)
Lemma no_quote_no_entry (text : str) :
  QUOTE ∉ text -> iter_tl default_Pattern text = [].
Proof.
  intros Hq. destruct (iter_tl default_Pattern text) as [|m l] eqn:E; [reflexivity|].
  exfalso. assert (Hin : In m (iter_tl default_Pattern text))
    by (rewrite E; left; reflexivity).
  apply iter_tl_inv in Hin as (r & rm & Hr & Hm & _).
  assert (Hw : Re.whole rm
               = Re.group rm "head" ++ [QUOTE] ++ Re.group rm "dst" ++ [QUOTE]).
  { destruct Hr as [<-|[<-|[]]];
      [apply (old_new_anatomy text)|apply (say_anatomy text)]; exact Hm. }
  destruct Hm as (a & b & Ht & _).
  apply Hq. rewrite Ht, Hw.
  rewrite !elem_of_app. right. left. right. left. left.
Qed.

Lemma loop_map_same {A} (f : A -> M A) (l : list A) st :
  (forall x, In x l -> f x st = (Ok x, st)) -> loop_map f l st = (Ok l, st).
Proof.
  induction l as [|x l IH]; intros H; [reflexivity|].
  simpl. unfold mbind, M_bind, bind.
  rewrite (H x) by (left; reflexivity).
  rewrite IH by (intros y Hy; apply H; right; exact Hy). reflexivity.
Qed.

Lemma concat_elem {A} (x : A) (l : list A) (ls : list (list A)) :
  In l ls -> x ∈ l -> x ∈ concat ls.
Proof.
  induction ls as [|l0 ls IH]; intros [] Hx; simpl; rewrite elem_of_app.
  - subst. left. exact Hx.
  - right. apply IH; assumption.
Qed.

(** X3: a file without a double quote holds no entry: with the patterns of
    the module the pass returns its content as it is and leaves the state
    as it is (the characters are not looked up), and the step of the run for
    that file writes and deletes nothing. *)
Theorem file_without_quote_untouched self (p : path) (content : str) st :
  pattern self = default_Pattern ->
  1 <= batch_size (conf self) ->
  fs st !! p = Some (Text content) ->
  QUOTE ∉ content ->
  rpy self p st = (Ok content, st)
  /\ rewrite_file self p st = (Ok tt, st).
Proof.
  intros Hpat Hn Hp Hq.
  assert (Hr : rpy self p st = (Ok content, st)).
  { unfold rpy, mbind, M_bind, bind.
    rewrite (RpyReader_ok p _ content st Hn Hp).
    rewrite loop_map_same.
    - unfold ret. rewrite reader_chunks_concat. reflexivity.
    - intros chunk Hc. unfold _rpy. rewrite Hpat.
      rewrite no_quote_no_entry; [reflexivity|].
      intros Hin. apply Hq.
      rewrite <- (reader_chunks_concat (Z.to_nat (batch_size (conf self))) content).
      eapply concat_elem; eassumption. }
  split; [exact Hr|].
  unfold rewrite_file, mbind, M_bind, bind. rewrite Hr.
  unfold FS.read_text. rewrite Hp.
  rewrite bool_decide_eq_false_2 by (intros H; apply H; reflexivity).
  reflexivity.
Qed.

Lemma file_without_quote_untouched_witness :
  rpy test_self (tl_file "notes.txt") (fresh notes_fs)
  = (Ok (py "todo"), fresh notes_fs)
  /\ rewrite_file test_self (tl_file "notes.txt") (fresh notes_fs)
     = (Ok tt, fresh notes_fs).
Proof.
  apply (file_without_quote_untouched test_self (tl_file "notes.txt") (py "todo")
           (fresh notes_fs)).
  - reflexivity.
  - vm_compute. discriminate.
  - vm_compute. reflexivity.
  - intros H. apply list_elem_of_In in H. simpl in H.
    repeat destruct H as [H|H]; try discriminate H. exact H.
Defined.

(** ** Normalising twice, and reading a merged entry again *)

Lemma double_at_head prev (x : ascii) (d : str) :
  double_at prev (x :: d) !! O = Some x.
Proof.
  rewrite double_at_cons.
  destruct (isolated_in prev (x :: d) 0) eqn:E; [|reflexivity].
  unfold isolated_in in E. simpl in E.
  apply andb_true_iff in E as [E _]. apply andb_true_iff in E as [E _].
  apply chr_eqb_eq in E. subst x. reflexivity.
Qed.

(** After the substitution no percent sign stands alone. *)
Lemma double_at_settled (d : str) :
  forall prev i, isolated_in prev (double_at prev d) i = false.
Proof.
  induction d as [|c d IH]; intros prev i.
  - unfold double_at, isolated_in. simpl. reflexivity.
  - rewrite double_at_cons.
    destruct (isolated_in prev (c :: d) 0) eqn:E.
    + assert (Hc : c = PCT).
      { unfold isolated_in in E. simpl in E.
        apply andb_true_iff in E as [E _]. apply andb_true_iff in E as [E _].
        apply chr_eqb_eq in E. exact E. }
      subst c. simpl app.
      destruct i as [|[|j]].
      * unfold isolated_in. simpl. apply andb_false_r.
      * rewrite isolated_in_S. unfold isolated_in. simpl. reflexivity.
      * rewrite !isolated_in_S. apply IH.
    + simpl app. destruct i as [|j]; [|rewrite isolated_in_S; apply IH].
      unfold isolated_in in *. simpl in *.
      destruct (chr_eqb c PCT) eqn:Ec; [|reflexivity].
      destruct (is_pct prev) eqn:Ep; [reflexivity|]. simpl in *.
      destruct d as [|y d]; [discriminate E|].
      rewrite double_at_head. simpl in E. simpl.
      destruct (chr_eqb y PCT); [reflexivity|discriminate E].
Qed.

(** X4: the normalisation of the constructor settles: in the stored
    translation no percent sign stands alone, and an entry constructed from
    a stored translation stores it unchanged. *)
Theorem percent_normalisation_settles (f h s f' h' s' d : str) :
  (forall i, isolated (dst (mkTranslationMatch f h s d)) i = false)
  /\ dst (mkTranslationMatch f' h' s' (dst (mkTranslationMatch f h s d)))
     = dst (mkTranslationMatch f h s d).
Proof.
  unfold mkTranslationMatch. cbn [dst]. rewrite !sub_PERCENT. split.
  - intros i. apply double_at_settled.
  - apply double_at_none. intros i. apply double_at_settled.
Qed.

Lemma replace_scan_elem (old new s : str) (skip : nat) (x : ascii) :
  x ∈ Str.replace_scan old new s skip -> x ∈ new \/ x ∈ s.
Proof.
  revert skip. induction s as [|c s IH]; intros skip; simpl.
  - intros H. right. exact H.
  - destruct skip as [|k].
    + destruct (Str.startswith old (c :: s)).
      * rewrite elem_of_app. intros [H|H]; [left; exact H|].
        apply IH in H as [H|H]; [left; exact H|right; right; exact H].
      * rewrite elem_of_cons. intros [->|H]; [right; left|].
        apply IH in H as [H|H]; [left; exact H|right; right; exact H].
    + intros H. apply IH in H as [H|H]; [left; exact H|right; right; exact H].
Qed.

Lemma replace_elem (old new s : str) (x : ascii) :
  x ∈ Str.replace old new s -> x ∈ new \/ x ∈ s.
Proof.
  unfold Str.replace. destruct old as [|a old]; [|apply replace_scan_elem].
  rewrite elem_of_app. intros [H|H]; [left; exact H|].
  induction s as [|c s IH]; simpl in H; [right; exact H|].
  rewrite elem_of_cons, elem_of_app in H.
  destruct H as [->|[H|H]]; [right; left|left; exact H|].
  apply IH in H as [H|H]; [left; exact H|right; right; exact H].
Qed.

Lemma unbreak_no_percent (s : str) : PCT ∉ s -> PCT ∉ unbreak s.
Proof.
  intros Hs H. unfold unbreak in H.
  apply replace_elem in H as [H|H].
  - apply list_elem_of_In in H. simpl in H.
    repeat destruct H as [H|H]; try discriminate H. exact H.
  - apply replace_elem in H as [H|H]; [inversion H|exact (Hs H)].
Qed.

Lemma sub_no_percent_prefix (s tail : str) :
  PCT ∉ s -> Str.startswith s (Re.sub PERCENT (py "%%") (s ++ tail)) = true.
Proof.
  intros Hs. rewrite sub_PERCENT, startswith_double_at by exact Hs.
  apply startswith_app.
Qed.

Lemma guard_after_source (f h s tail : str) :
  PCT ∉ s -> noop_guard (mkTranslationMatch f h s (s ++ tail)) = true.
Proof.
  intros Hs. unfold noop_guard, mkTranslationMatch. cbn [src dst].
  rewrite sub_no_percent_prefix by exact Hs. reflexivity.
Qed.

(** X5: an entry whose source holds no percent sign, once merged, is left
    alone when it is read again.  When [_edit] rewrites, it writes the head,
    a quote, a text and a quote; an entry with the same source and that text
    as its translation makes [_edit], in the state the first edit left,
    return [None] and leave the state as it is. *)
Theorem merged_entry_is_kept self text m preserve st t st' :
  PCT ∉ src m ->
  _edit self text m preserve st = (Ok (Some t), st') ->
  exists lit,
    t = Str.replace (full m) (head m ++ [QUOTE] ++ lit ++ [QUOTE]) text
    /\ forall text' f' h',
         _edit self text' (mkTranslationMatch f' h' (src m) lit) preserve st'
         = (Ok None, st').
Proof.
  intros Hp. unfold _edit at 1.
  destruct (noop_guard m) eqn:Hg; [discriminate|].
  assert (Hsrc : forall tail text' f' h',
            _edit self text' (mkTranslationMatch f' h' (src m) (src m ++ tail))
              preserve st' = (Ok None, st')).
  { intros tail text' f' h'. unfold _edit.
    rewrite guard_after_source by exact Hp. reflexivity. }
  destruct (preserve || _) eqn:Hpw.
  - intros [= <- <-]. exists (src m). split; [reflexivity|].
    intros text' f' h'. rewrite <- (app_nil_r (src m)) at 2. apply Hsrc.
  - unfold _edit_side_by_side, mbind, M_bind, bind.
    destruct (characters self st) as [[cs|e] st1] eqn:Ec; [|discriminate].
    destruct (bool_decide (_ ∈ cs)) eqn:Hch.
    + destruct (Re.matches _ _); intros [= <- <-].
      * exists (src m). split; [reflexivity|].
        intros text' f' h'. rewrite <- (app_nil_r (src m)) at 2. apply Hsrc.
      * exists (src m ++ py " (" ++ dst m ++ py ")"). split.
        -- unfold fmt_paren. rewrite <- !app_assoc. reflexivity.
        -- intros text' f' h'. apply Hsrc.
    + destruct (_ <=? _) eqn:Hlen.
      * intros [= <- <-].
        exists (src m ++ py "  |  " ++ dst m). split.
        -- unfold fmt_bar. rewrite <- !app_assoc. reflexivity.
        -- intros text' f' h'. apply Hsrc.
      * destruct (negb _); [|discriminate]. intros [= <- <-].
        exists (unbreak (src m) ++ [BACKSLASH; "n"%char] ++ dst m). split.
        -- unfold fmt_newline. rewrite <- !app_assoc. reflexivity.
        -- intros text' f' h'. unfold _edit.
           match goal with
           | |- context [noop_guard ?x] => destruct (noop_guard x)
           end; [reflexivity|].
           unfold mkTranslationMatch. cbn [src]. rewrite Hpw.
           unfold _edit_side_by_side, mbind, M_bind, bind.
           rewrite (characters_cached self st1 cs (characters_stores _ _ _ _ Ec)).
           cbn [src dst]. rewrite Hch, Hlen.
           rewrite sub_no_percent_prefix by (apply unbreak_no_percent, Hp).
           reflexivity.
Qed.

Lemma merged_entry_is_kept_witness :
  (PCT ∉ src long_entry)
  /\ exists lit,
       pyq "    old 'long{p}string{w}'
    new 'long / string\n%%translated'
" = Str.replace (full long_entry) (head long_entry ++ [QUOTE] ++ lit ++ [QUOTE]) long_text
       /\ forall text' f' h',
            _edit test_self text' (mkTranslationMatch f' h' (src long_entry) lit) false
              (snd (_edit test_self long_text long_entry false (fresh test_fs)))
            = (Ok None, snd (_edit test_self long_text long_entry false (fresh test_fs))).
Proof.
  assert (Hp : PCT ∉ src long_entry).
  { intros H. apply list_elem_of_In in H. simpl in H.
    repeat destruct H as [H|H]; try discriminate H. exact H. }
  split; [exact Hp|].
  apply (merged_entry_is_kept test_self long_text long_entry false (fresh test_fs)
           _ _ Hp).
  vm_compute. reflexivity.
Defined.

(** ** Stripping, and the decisions on words and characters *)

Lemma lstrip_by_all (p : ascii -> bool) (a s : str) :
  Forall (fun c => p c = true) a -> Str.lstrip_by p (a ++ s) = Str.lstrip_by p s.
Proof.
  induction 1 as [|c a Hc _ IH]; [reflexivity|].
  simpl. rewrite Hc. exact IH.
Qed.

Lemma lstrip_by_stop (p : ascii -> bool) (x : ascii) (s : str) :
  p x = false -> Str.lstrip_by p (x :: s) = x :: s.
Proof. intros H. simpl. rewrite H. reflexivity. Qed.

Lemma hd_error_app {A} (w s : list A) (x : A) :
  hd_error w = Some x -> exists w', w ++ s = x :: w' ++ s /\ w = x :: w'.
Proof.
  destruct w as [|y w]; [discriminate|].
  intros [= ->]. exists w. split; reflexivity.
Qed.

(** [strip] on a text wrapped in characters of the class. *)
Lemma strip_by_core (p : ascii -> bool) (a w b : str) :
  Forall (fun c => p c = true) a -> Forall (fun c => p c = true) b ->
  edges p w -> Str.strip_by p (a ++ w ++ b) = w.
Proof.
  intros Ha Hb (x & y & Hx & Hy & Hpx & Hpy).
  unfold Str.strip_by, Str.rstrip_by.
  rewrite lstrip_by_all by exact Ha.
  destruct (hd_error_app w b x Hx) as (w' & E & Hw). rewrite E.
  rewrite lstrip_by_stop by exact Hpx. rewrite <- E.
  rewrite rev_app_distr.
  rewrite lstrip_by_all by (apply Forall_rev; exact Hb).
  destruct (hd_error_app (rev w) [] y Hy) as (r' & _ & Hr). rewrite Hr.
  rewrite lstrip_by_stop by exact Hpy. rewrite <- Hr.
  apply rev_involutive.
Qed.

Lemma edges_wrapped (p q : ascii -> bool) (d1 w d2 : str) :
  (forall c, q c = true -> p c = false) ->
  Forall (fun c => q c = true) d1 -> Forall (fun c => q c = true) d2 ->
  edges p w -> edges p (d1 ++ w ++ d2).
Proof.
  intros Hq H1 H2 (x & y & Hx & Hy & Hpx & Hpy).
  assert (Hfront : forall (d u : str) z, Forall (fun c => q c = true) d ->
            hd_error u = Some z -> p z = false ->
            exists z', hd_error (d ++ u) = Some z' /\ p z' = false).
  { intros d u z Hd Hu Hz. destruct Hd as [|c d Hc _].
    - exists z. split; assumption.
    - exists c. split; [reflexivity|apply Hq, Hc]. }
  destruct (Hfront d1 (w ++ d2) x H1) as (x' & Hx' & Hpx'); [|exact Hpx|].
  { destruct w; [discriminate|exact Hx]. }
  destruct (Hfront (rev d2) (rev w ++ rev d1) y) as (y' & Hy' & Hpy');
    [apply Forall_rev; exact H2| |exact Hpy|].
  { destruct (rev w); [discriminate|exact Hy]. }
  exists x', y'. repeat split; try assumption.
  rewrite !rev_app_distr, <- app_assoc. exact Hy'.
Qed.

(** X6: a preserved word stays as it is, however it is wrapped.  When the
    source is a preserved word between periods, and that between white
    space, [_edit] puts the head and the quoted source in place of the full
    match, in any file and without looking up the characters, unless the
    guard at its head keeps the entry. *)
Theorem preserved_word_source_only self text m preserve st (w sp1 d1 d2 sp2 : str) :
  w ∈ preserve_words self ->
  edges Str.isspace w -> edges is_period w ->
  Forall (fun c => Str.isspace c = true) sp1 ->
  Forall (fun c => Str.isspace c = true) sp2 ->
  Forall (fun c => is_period c = true) d1 ->
  Forall (fun c => is_period c = true) d2 ->
  src m = sp1 ++ (d1 ++ w ++ d2) ++ sp2 ->
  noop_guard m = false ->
  _edit self text m preserve st
  = (Ok (Some (Str.replace (full m) (head m ++ [QUOTE] ++ src m ++ [QUOTE]) text)), st).
Proof.
  intros Hw Hes Hep Hs1 Hs2 Hd1 Hd2 Hsrc Hg.
  unfold _edit. rewrite Hg.
  assert (E : Str.strip_chars (py ".") (Str.strip (src m)) = w).
  { rewrite Hsrc. unfold Str.strip.
    rewrite strip_by_core; try assumption.
    - apply (strip_by_core is_period); assumption.
    - apply (edges_wrapped Str.isspace is_period); try assumption.
      intros c Hc. unfold is_period in Hc. simpl in Hc.
      rewrite orb_false_r in Hc. apply chr_eqb_eq in Hc. subst c. reflexivity. }
  rewrite E, (bool_decide_eq_true_2 _ Hw), orb_true_r. reflexivity.
Qed.

Lemma preserved_word_source_only_witness :
  (py "Save" ∈ preserve_words test_self)
  /\ src save_entry = py " " ++ (py ".." ++ py "Save" ++ py ".") ++ py " "
  /\ noop_guard save_entry = false
  /\ _edit test_self (pyq "x") save_entry false (fresh test_fs)
     = (Ok (Some (Str.replace (full save_entry)
                    (head save_entry ++ [QUOTE] ++ src save_entry ++ [QUOTE])
                    (pyq "x"))), fresh test_fs).
Proof.
  assert (Hw : py "Save" ∈ preserve_words test_self) by decide_by_computing.
  split; [exact Hw|]. split; [reflexivity|]. split; [reflexivity|].
  apply (preserved_word_source_only test_self (pyq "x") save_entry false
           (fresh test_fs) (py "Save") (py " ") (py "..") (py ".") (py " ") Hw).
  - exists "S"%char, "e"%char. repeat split.
  - exists "S"%char, "e"%char. repeat split.
  - repeat constructor.
  - repeat constructor.
  - repeat constructor.
  - repeat constructor.
  - reflexivity.
  - reflexivity.
Defined.

Lemma star_greedy_fallback {R} p (pre s : str) (k : str -> str -> option R) :
  is_Some (k pre s) -> is_Some (Re.star_greedy p pre s k).
Proof.
  intros H. destruct s as [|c s]; simpl; [exact H|].
  destruct (p c); [|exact H].
  destruct (Re.star_greedy p (c :: pre) s k); [eexists; reflexivity|exact H].
Qed.

(** A greedy star finds a match whenever some run of the class, however
    long, lets the rest of the pattern match. *)
Lemma star_greedy_complete {R} p (w s pre : str) (k : str -> str -> option R) :
  Forall (fun c => p c = true) w ->
  is_Some (k (rev w ++ pre) s) ->
  is_Some (Re.star_greedy p pre (w ++ s) k).
Proof.
  intros Hw. revert pre. induction Hw as [|c w Hc _ IH]; intros pre Hk.
  - apply star_greedy_fallback, Hk.
  - simpl. rewrite Hc.
    destruct (Re.star_greedy p (c :: pre) (w ++ s) k) eqn:E; [eexists; reflexivity|].
    exfalso. simpl in Hk. rewrite <- app_assoc in Hk. simpl in Hk.
    specialize (IH (c :: pre) Hk). rewrite E in IH. destruct IH as [? [=]].
Qed.

Lemma bracketed_matches (mid : str) :
  LF ∉ mid -> Re.matches PATTERN_BRACKETED (py "[" ++ mid ++ py "]") = true.
Proof.
  intros Hm. unfold Re.matches, Re.match_at, PATTERN_BRACKETED.
  cbn [Re.seq Re.run app py list_ascii_of_string].
  unfold chr_eqb at 1. rewrite Ascii.eqb_refl.
  match goal with
  | |- match Re.star_greedy ?p ?pre (mid ++ ?s) ?k with _ => _ end = true =>
      destruct (star_greedy_complete p mid s pre k) as [r Hr]
  end.
  - rewrite Forall_forall. intros c Hc. unfold Re.dot.
    destruct (chr_eqb c LF) eqn:E; [|reflexivity].
    apply chr_eqb_eq in E. subst c. exfalso. exact (Hm Hc).
  - cbn. eexists. reflexivity.
  - rewrite Hr. reflexivity.
Qed.

Lemma bracketed_needs_bracket (s : str) :
  edges is_bracket s -> Re.matches PATTERN_BRACKETED s = false.
Proof.
  intros (x & y & Hx & _ & Hpx & _).
  destruct s as [|c s]; [discriminate|]. injection Hx as ->.
  unfold Re.matches, Re.match_at, PATTERN_BRACKETED.
  cbn [Re.seq Re.run].
  unfold is_bracket in Hpx. simpl in Hpx.
  apply orb_false_iff in Hpx as [Hpx _]. rewrite Hpx. reflexivity.
Qed.

Lemma strip_brackets_clean (name : str) :
  edges is_bracket name -> Str.strip_chars (py "[]") name = name.
Proof.
  intros He.
  pose proof (strip_by_core is_bracket [] name [] (Forall_nil_2 _) (Forall_nil_2 _) He) as E.
  simpl in E. rewrite app_nil_r in E. exact E.
Qed.

Lemma strip_brackets_wrapped (name : str) :
  edges is_bracket name ->
  Str.strip_chars (py "[]") (py "[" ++ name ++ py "]") = name.
Proof.
  intros He. apply (strip_by_core is_bracket (py "[") name (py "]")).
  - repeat constructor.
  - repeat constructor.
  - exact He.
Qed.

(** X7: the two decisions on a character.  For a name of the characters
    that neither starts nor ends with a square bracket and holds no newline:
    an entry whose source is the name gets the translation added in
    parentheses; an entry whose source is the name in square brackets is
    rewritten to its source alone. *)
Theorem character_decisions self text m st cs st1 (name : str) :
  characters self st = (Ok cs, st1) ->
  name ∈ cs -> edges is_bracket name -> LF ∉ name ->
  (src m = name ->
   _edit_side_by_side self text m st
   = (Ok (Some (Str.replace (full m)
                  (head m ++ [QUOTE] ++ name ++ py " (" ++ dst m ++ py ")" ++ [QUOTE])
                  text)), st1))
  /\ (src m = py "[" ++ name ++ py "]" ->
      _edit_side_by_side self text m st
      = (Ok (Some (Str.replace (full m)
                     (head m ++ [QUOTE] ++ py "[" ++ name ++ py "]" ++ [QUOTE])
                     text)), st1)).
Proof.
  intros Hc Hin He Hlf. split; intros Hsrc;
    unfold _edit_side_by_side, mbind, M_bind, bind; rewrite Hc, Hsrc.
  - rewrite (strip_brackets_clean name He).
    rewrite (bool_decide_eq_true_2 _ Hin).
    rewrite (bracketed_needs_bracket name He).
    unfold fmt_paren. rewrite Hsrc. reflexivity.
  - rewrite (strip_brackets_wrapped name He).
    rewrite (bool_decide_eq_true_2 _ Hin).
    rewrite (bracketed_matches name Hlf).
    unfold fmt_src, ret. rewrite Hsrc, <- !app_assoc. reflexivity.
Qed.

Lemma character_decisions_witness :
  characters test_self (warm test_fs) = (Ok test_characters, warm test_fs)
  /\ (py "character1" ∈ test_characters)
  /\ fst (_edit_side_by_side test_self (pyq "x") name_entry (warm test_fs))
     = Ok (Some (Str.replace (full name_entry)
                   (head name_entry ++ pyq "'character1 (character2)'") (pyq "x")))
  /\ fst (_edit_side_by_side test_self (pyq "x") bracket_entry (warm test_fs))
     = Ok (Some (Str.replace (full bracket_entry)
                   (head bracket_entry ++ pyq "'[character1]'") (pyq "x"))).
Proof.
  assert (Hc : characters test_self (warm test_fs) = (Ok test_characters, warm test_fs))
    by (apply characters_cached; reflexivity).
  assert (Hin : py "character1" ∈ test_characters) by decide_by_computing.
  assert (He : edges is_bracket (py "character1"))
    by (exists "c"%char, "1"%char; repeat split).
  assert (Hlf : LF ∉ py "character1").
  { intros H. apply list_elem_of_In in H. simpl in H.
    repeat destruct H as [H|H]; try discriminate H. exact H. }
  split; [exact Hc|]. split; [exact Hin|]. split.
  - rewrite (proj1 (character_decisions test_self (pyq "x") name_entry (warm test_fs)
                      test_characters (warm test_fs) (py "character1") Hc Hin He Hlf)
               eq_refl).
    reflexivity.
  - rewrite (proj2 (character_decisions test_self (pyq "x") bracket_entry (warm test_fs)
                      test_characters (warm test_fs) (py "character1") Hc Hin He Hlf)
               eq_refl).
    reflexivity.
Defined.

(** X8: the short merge.  For an entry the guard does not keep, in a file
    that is not preserved, whose source is no preserved word, names no
    character and is not longer than the threshold, [_edit] puts the head,
    a quote, the source, two blanks, a bar, two blanks, the translation and
    a quote in place of the full match. *)
Theorem short_string_merge self text m st cs st1 :
  characters self st = (Ok cs, st1) ->
  noop_guard m = false ->
  Str.strip_chars (py ".") (Str.strip (src m)) ∉ preserve_words self ->
  Str.strip_chars (py "[]") (src m) ∉ cs ->
  Str.len (src m) <= linebreak_threshold (conf self) ->
  _edit self text m false st
  = (Ok (Some (Str.replace (full m)
                 (head m ++ [QUOTE] ++ src m ++ py "  |  " ++ dst m ++ [QUOTE])
                 text)), st1).
Proof.
  intros Hc Hg Hw Hn Hl.
  unfold _edit. rewrite Hg. simpl orb.
  rewrite (bool_decide_eq_false_2 _ Hw).
  unfold _edit_side_by_side, mbind, M_bind, bind. cbn beta iota delta [orb].
  rewrite Hc, (bool_decide_eq_false_2 _ Hn).
  rewrite (proj2 (Z.leb_le _ _) Hl). reflexivity.
Qed.

Lemma short_string_merge_witness :
  characters test_self (warm test_fs) = (Ok test_characters, warm test_fs)
  /\ noop_guard short_entry = false
  /\ Str.len (src short_entry) <= linebreak_threshold (conf test_self)
  /\ fst (_edit test_self (full short_entry) short_entry false (warm test_fs))
     = Ok (Some (pyq "old 's1'
    new 's1  |  s2'")).
Proof.
  assert (Hc : characters test_self (warm test_fs) = (Ok test_characters, warm test_fs))
    by (apply characters_cached; reflexivity).
  split; [exact Hc|]. split; [reflexivity|]. split; [vm_compute; discriminate|].
  rewrite (short_string_merge test_self (full short_entry) short_entry (warm test_fs)
             test_characters (warm test_fs) Hc).
  - vm_compute. reflexivity.
  - reflexivity.
  - decide_by_computing.
  - decide_by_computing.
  - vm_compute. discriminate.
Defined.

(** ** Errors of the pass, and the pass over a preserved file *)



Lemma loop_fold_same_state {A B} (f : B -> A -> M B) (l : list A) st :
  (forall b a, exists b', f b a st = (Ok b', st)) ->
  forall b, exists b', loop_fold f l b st = (Ok b', st).
Proof.
  intros Hf. induction l as [|x l IH]; intros b; simpl.
  - exists b. reflexivity.
  - unfold mbind, M_bind, bind. destruct (Hf b x) as [b1 E]. rewrite E. apply IH.
Qed.

Lemma loop_map_same_state {A B} (f : A -> M B) (l : list A) st :
  (forall a, exists b, f a st = (Ok b, st)) ->
  exists bs, loop_map f l st = (Ok bs, st).
Proof.
  intros Hf. induction l as [|x l [bs IH]]; simpl.
  - exists []. reflexivity.
  - unfold mbind, M_bind, bind. destruct (Hf x) as [b E]. rewrite E, IH.
    eexists. reflexivity.
Qed.

(** X10: the pass over a preserved file needs nothing but the file.  With
    the patterns of the module, for a file whose stem is preserved, that is
    there as text, and a batch size of at least one, the pass returns a text
    and leaves the state as it was: the characters are never looked up, so a
    missing script cannot make it fail. *)
Theorem preserved_file_pass self (p : path) (content : str) st :
  pattern self = default_Pattern ->
  PathLib.stem p ∈ preserve_files self ->
  1 <= batch_size (conf self) ->
  fs st !! p = Some (Text content) ->
  exists t, rpy self p st = (Ok t, st).
Proof.
  intros _ Hs Hn Hp. unfold rpy, mbind, M_bind, bind.
  rewrite (RpyReader_ok p _ content st Hn Hp).
  rewrite (bool_decide_eq_true_2 _ Hs).
  destruct (loop_map_same_state (fun text => _rpy self text true)
              (reader_chunks (Z.to_nat (batch_size (conf self))) content) st)
    as [ts E].
  - intros text. unfold _rpy. apply loop_fold_same_state.
    intros b m. unfold _rpy_step, mbind, M_bind, bind, _edit.
    destruct (noop_guard m); simpl; eexists; reflexivity.
  - rewrite E. eexists. reflexivity.
Qed.

Lemma preserved_file_pass_witness :
  (PathLib.stem (tl_file "gui.rpy") ∈ preserve_files test_self)
  /\ no_script_fs !! script_path = None
  /\ exists t, rpy test_self (tl_file "gui.rpy") (fresh no_script_fs)
               = (Ok t, fresh no_script_fs).
Proof.
  assert (Hs : PathLib.stem (tl_file "gui.rpy") ∈ preserve_files test_self)
    by decide_by_computing.
  split; [exact Hs|]. split; [vm_compute; reflexivity|].
  apply (preserved_file_pass test_self (tl_file "gui.rpy") RPY (fresh no_script_fs)
           eq_refl Hs).
  - vm_compute. discriminate.
  - vm_compute. reflexivity.
Defined.

(** ** The steps of the run *)

Lemma with_suffix_plain (d : path) (nm s : str) :
  nm ≠ [] -> PathLib.suffix (d ++ [nm]) = [] ->
  PathLib.with_suffix (d ++ [nm]) s = Some (d ++ [nm ++ s]).
Proof.
  intros Hnm Hs. unfold PathLib.with_suffix, PathLib.name, PathLib.parent.
  rewrite last_snoc, removelast_last, Hs.
  destruct nm as [|x nm]; [congruence|].
  simpl length. rewrite Nat.sub_0_r.
  change (S (length nm)) with (length (x :: nm)).
  rewrite take_ge by lia. reflexivity.
Qed.

Lemma text_members_hold (d q : path) (t : str) (m : gmap path node) :
  q ≠ [] -> m !! (d ++ q) = Some (Text t) -> (q, t) ∈ FS.text_members d m.
Proof.
  intros Hq Hm. unfold FS.text_members.
  apply list_elem_of_omap. exists (d ++ q, Text t). split.
  - apply elem_of_map_to_list. exact Hm.
  - assert (E : PathLib.under d (d ++ q) = true).
    { unfold PathLib.under. rewrite length_app, take_app_length.
      rewrite bool_decide_eq_true_2 by reflexivity.
      rewrite andb_true_r. apply Nat.ltb_lt.
      destruct q; [congruence|simpl; lia]. }
    rewrite E, drop_app_length. reflexivity.
Qed.

(** X11: the backup step.  With a backup name configured, and no dot in the
    middle of the directory name followed by it, the step looks for the
    archive where it would write it.  If something is there the state stays
    as it is.  If nothing is there and the language directory is, the
    archive is added, holding the text of every file under the language
    directory, nothing else changes, and a second backup step changes
    nothing.  If nothing is there and the language directory is not, the
    step raises, [FileNotFoundError] for the directory, or
    [NotADirectoryError] when a file stands in its place or above it, and
    the state stays as it is. *)
Theorem backup_step_once self st (c : ascii) (b : str) :
  backup (paths self) = Some (c :: b) ->
  PathLib.suffix (tl_dir self ++ [language (conf self) ++ c :: b]) = [] ->
  (FS.exists_ (tl_dir self ++ [(language (conf self) ++ c :: b) ++ py ".zip"]) st
   = (Ok true, st) ->
   backup_step self st = (Ok tt, st))
  /\ (FS.exists_ (tl_dir self ++ [(language (conf self) ++ c :: b) ++ py ".zip"]) st
      = (Ok false, st) ->
      FS.is_dir (language_dir self) st = true ->
      exists members,
        backup_step self st
        = (Ok tt,
           archived (tl_dir self ++ [(language (conf self) ++ c :: b) ++ py ".zip"])
             members st)
        /\ (forall q t, q ≠ [] -> fs st !! (language_dir self ++ q) = Some (Text t) ->
                        (q, t) ∈ members)
        /\ backup_step self
             (archived (tl_dir self ++ [(language (conf self) ++ c :: b) ++ py ".zip"])
                members st)
           = (Ok tt,
              archived (tl_dir self ++ [(language (conf self) ++ c :: b) ++ py ".zip"])
                members st))
  /\ (FS.exists_ (tl_dir self ++ [(language (conf self) ++ c :: b) ++ py ".zip"]) st
      = (Ok false, st) ->
      FS.is_dir (language_dir self) st = false ->
      backup_step self st
      = (Raise (no_directory (language_dir self) (language_dir self) st), st)).
Proof.
  intros Hb Hs.
  assert (Hnm : language (conf self) ++ c :: b ≠ [])
    by (destruct (language (conf self)); discriminate).
  assert (Hstep : forall s,
            backup_step self s
            = (e ← FS.exists_ (tl_dir self
                                 ++ [(language (conf self) ++ c :: b) ++ py ".zip"]);
               if negb e
               then FS.make_archive (tl_dir self ++ [language (conf self) ++ c :: b])
                      (language_dir self)
               else ret tt) s).
  { intros s. unfold backup_step. rewrite Hb.
    rewrite (with_suffix_plain _ _ _ Hnm Hs). reflexivity. }
  split; [|split].
  - intros He. rewrite Hstep. unfold mbind, M_bind, bind. rewrite He. reflexivity.
  - intros He Hd. rewrite Hstep. unfold mbind, M_bind, bind. rewrite He.
    cbn [negb]. unfold FS.make_archive, PathLib.parent, PathLib.name.
    rewrite last_snoc, removelast_last, Hd.
    eexists. split; [reflexivity|]. split.
    + intros q t Hq Hm. apply text_members_hold; assumption.
    + rewrite Hstep. unfold mbind, M_bind, bind, FS.exists_, archived. cbn [fs].
      rewrite lookup_insert_eq.
      rewrite bool_decide_eq_true_2 by (eexists; reflexivity). reflexivity.
  - intros He Hd. rewrite Hstep. unfold mbind, M_bind, bind. rewrite He.
    cbn [negb]. unfold FS.make_archive, no_directory. rewrite Hd.
    destruct (FS.blocked _ _); reflexivity.
Qed.

Lemma backup_step_once_witness :
  backup (paths test_self) = Some (py "Backup")
  /\ PathLib.suffix (tl_dir test_self ++ [language (conf test_self) ++ py "Backup"]) = []
  /\ FS.exists_ backup_zip (fresh test_fs) = (Ok false, fresh test_fs)
  /\ FS.is_dir (language_dir test_self) (fresh test_fs) = true
  /\ (exists members,
        backup_step test_self (fresh test_fs)
        = (Ok tt, archived backup_zip members (fresh test_fs))
        /\ backup_step test_self (archived backup_zip members (fresh test_fs))
           = (Ok tt, archived backup_zip members (fresh test_fs)))
  /\ FS.exists_ backup_zip (fresh (∅ : gmap path node))
     = (Ok false, fresh (∅ : gmap path node))
  /\ FS.is_dir (language_dir test_self) (fresh (∅ : gmap path node)) = false
  /\ no_directory (language_dir test_self) (language_dir test_self)
       (fresh (∅ : gmap path node))
     = FileNotFoundError (language_dir test_self)
  /\ backup_step test_self (fresh (∅ : gmap path node))
     = (Raise (no_directory (language_dir test_self) (language_dir test_self)
                 (fresh (∅ : gmap path node))),
        fresh (∅ : gmap path node)).
Proof.
  assert (He : FS.exists_ backup_zip (fresh test_fs) = (Ok false, fresh test_fs))
    by (vm_compute; reflexivity).
  assert (Hd : FS.is_dir (language_dir test_self) (fresh test_fs) = true)
    by (vm_compute; reflexivity).
  assert (He0 : FS.exists_ backup_zip (fresh (∅ : gmap path node))
                = (Ok false, fresh (∅ : gmap path node)))
    by (vm_compute; reflexivity).
  assert (Hd0 : FS.is_dir (language_dir test_self) (fresh (∅ : gmap path node)) = false)
    by (vm_compute; reflexivity).
  assert (Hb : backup (paths test_self) = Some (py "Backup")) by reflexivity.
  assert (Hs : PathLib.suffix (tl_dir test_self
                                 ++ [language (conf test_self) ++ py "Backup"]) = [])
    by (vm_compute; reflexivity).
  split; [exact Hb|]. split; [exact Hs|].
  split; [exact He|]. split; [exact Hd|].
  destruct (backup_step_once test_self (fresh test_fs) "B"%char (py "ackup") Hb Hs)
    as (_ & H2 & _).
  destruct (backup_step_once test_self (fresh (∅ : gmap path node)) "B"%char
              (py "ackup") Hb Hs) as (_ & _ & H3).
  split.
  - destruct (H2 He Hd) as (members & H & _ & H').
    exists members. split; [exact H|exact H'].
  - split; [exact He0|]. split; [exact Hd0|].
    split; [vm_compute; reflexivity|]. exact (H3 He0 Hd0).
Defined.

(** X12: the developer-mode step never overwrites.  When the step is
    switched off, or something stands at the developer-mode path, the state
    stays as it is.  Otherwise the script of the configuration is written to
    that path, and nothing else changes, provided the directory of the path
    is there; without that directory the step raises, [FileNotFoundError]
    for the path, or [NotADirectoryError] when a file stands in the way, and
    the state stays as it is. *)
Theorem dev_step_keeps_existing self st (dev : path) :
  PathLib.with_suffix (root self ++ dev_mode_path (paths self)) (py ".rpy") = Some dev ->
  (dev_mode (conf self) = false \/ FS.exists_ dev st = (Ok true, st) ->
   dev_step self st = (Ok tt, st))
  /\ (dev_mode (conf self) = true ->
      FS.exists_ dev st = (Ok false, st) ->
      FS.is_dir (PathLib.parent dev) st = true ->
      dev_step self st = (Ok tt, written dev (dev_script (conf self)) st)
      /\ (forall p, p ≠ dev ->
            fs (written dev (dev_script (conf self)) st) !! p = fs st !! p))
  /\ (dev_mode (conf self) = true ->
      FS.exists_ dev st = (Ok false, st) ->
      FS.is_dir (PathLib.parent dev) st = false ->
      dev_step self st = (Raise (no_directory (PathLib.parent dev) dev st), st)).
Proof.
  intros Hd. unfold dev_step. rewrite Hd. split; [|split].
  - intros [Hoff|He].
    + rewrite Hoff. reflexivity.
    + destruct (dev_mode (conf self)); [|reflexivity]. cbn [negb].
      unfold mbind, M_bind, bind. rewrite He. reflexivity.
  - intros Hon He Hp. rewrite Hon. cbn [negb].
    unfold mbind, M_bind, bind. rewrite He.
    unfold FS.write_text. rewrite Hp. split; [reflexivity|].
    intros p Hne. unfold written. cbn [fs]. apply lookup_insert_ne. congruence.
  - intros Hon He Hp. rewrite Hon. cbn [negb].
    unfold mbind, M_bind, bind. rewrite He.
    unfold FS.write_text, no_directory. rewrite Hp.
    destruct (FS.blocked _ _); reflexivity.
Qed.

Lemma dev_step_keeps_existing_witness :
  PathLib.with_suffix (root test_self ++ dev_mode_path (paths test_self)) (py ".rpy")
  = Some [py "tmp"; py "game"; py "__dev_mode.rpy"]
  /\ FS.exists_ [py "tmp"; py "game"; py "__dev_mode.rpy"] (fresh own_dev_fs)
     = (Ok true, fresh own_dev_fs)
  /\ dev_step test_self (fresh own_dev_fs) = (Ok tt, fresh own_dev_fs)
  /\ text_at [py "tmp"; py "game"; py "__dev_mode.rpy"] (fresh own_dev_fs) = py "mine"
  /\ dev_step test_self (fresh test_fs)
     = (Ok tt, written [py "tmp"; py "game"; py "__dev_mode.rpy"]
                 (dev_script (conf test_self)) (fresh test_fs))
  /\ no_directory (PathLib.parent [py "tmp"; py "game"; py "__dev_mode.rpy"])
       [py "tmp"; py "game"; py "__dev_mode.rpy"] (fresh (∅ : gmap path node))
     = FileNotFoundError [py "tmp"; py "game"; py "__dev_mode.rpy"]
  /\ dev_step test_self (fresh (∅ : gmap path node))
     = (Raise (no_directory (PathLib.parent [py "tmp"; py "game"; py "__dev_mode.rpy"])
                 [py "tmp"; py "game"; py "__dev_mode.rpy"]
                 (fresh (∅ : gmap path node))),
        fresh (∅ : gmap path node)).
Proof.
  assert (Hw : PathLib.with_suffix (root test_self ++ dev_mode_path (paths test_self))
                 (py ".rpy")
               = Some [py "tmp"; py "game"; py "__dev_mode.rpy"])
    by (vm_compute; reflexivity).
  assert (He : FS.exists_ [py "tmp"; py "game"; py "__dev_mode.rpy"] (fresh own_dev_fs)
               = (Ok true, fresh own_dev_fs)) by (vm_compute; reflexivity).
  split; [exact Hw|]. split; [exact He|].
  destruct (dev_step_keeps_existing test_self (fresh own_dev_fs) _ Hw) as (H1 & _ & _).
  destruct (dev_step_keeps_existing test_self (fresh test_fs) _ Hw) as (_ & H2 & _).
  destruct (dev_step_keeps_existing test_self (fresh (∅ : gmap path node)) _ Hw)
    as (_ & _ & H3).
  split; [apply H1; right; exact He|].
  split; [vm_compute; reflexivity|].
  split.
  - refine (proj1 (H2 eq_refl _ _)); vm_compute; reflexivity.
  - split; [vm_compute; reflexivity|].
    refine (H3 eq_refl _ _); vm_compute; reflexivity.
Defined.

(** ** What the run touches, and where the characters come from *)

Lemma backup_step_touch self st r st' (p : path) :
  backup_step self st = (r, st') -> ¬ may_touch self p ->
  fs st' !! p = fs st !! p.
Proof.
  intros H Hp. unfold backup_step in H.
  destruct (backup (paths self)) as [[|c b]|] eqn:Hb;
    [injection H as <- <-; reflexivity| |injection H as <- <-; reflexivity].
  destruct (PathLib.with_suffix _ _) as [z|];
    [|injection H as <- <-; reflexivity].
  unfold mbind, M_bind, bind, FS.exists_ in H.
  match type of H with context [negb ?e] => destruct e end;
    cbn [negb] in H; [injection H as <- <-; reflexivity|].
  unfold FS.make_archive, PathLib.parent, PathLib.name in H.
  rewrite last_snoc, removelast_last in H.
  destruct (FS.is_dir _ _);
    [|destruct (FS.blocked _ _); injection H as <- <-; reflexivity].
  injection H as <- <-. cbn [fs].
  apply lookup_insert_ne. intros <-. apply Hp. left.
  exists (c :: b). split; [exact Hb|]. rewrite <- app_assoc. reflexivity.
Qed.

Lemma rewrite_file_touch self (q : path) st r st' (p : path) :
  rewrite_file self q st = (r, st') ->
  p ≠ q -> PathLib.with_suffix q (py ".rpyc") ≠ Some p ->
  fs st' !! p = fs st !! p.
Proof.
  intros H Hq Hc. unfold rewrite_file, mbind, M_bind, bind in H.
  destruct (rpy self q st) as [[text|e] st1] eqn:Er;
    apply rpy_frame in Er as [Hfs _];
    [|injection H as <- <-; rewrite Hfs; reflexivity].
  unfold FS.read_text in H.
  destruct (fs st1 !! q) as [[cur|z]|];
    [|injection H as <- <-; rewrite Hfs; reflexivity
     |injection H as <- <-; rewrite Hfs; reflexivity].
  destruct (bool_decide _); [|injection H as <- <-; rewrite Hfs; reflexivity].
  unfold FS.write_text in H.
  destruct (FS.is_dir _ _);
    [|destruct (FS.blocked _ _); injection H as <- <-; rewrite Hfs; reflexivity].
  destruct (PathLib.with_suffix q (py ".rpyc")) as [c|];
    [|injection H as <- <-; cbn [fs]; rewrite lookup_insert_ne, Hfs by congruence;
      reflexivity].
  unfold FS.unlink in H. cbn [fs] in H.
  destruct (<[q:=Text text]> (fs st1) !! c);
    injection H as <- <-; cbn [fs].
  - rewrite lookup_delete_ne by congruence.
    rewrite lookup_insert_ne, Hfs by congruence. reflexivity.
  - rewrite lookup_insert_ne, Hfs by congruence. reflexivity.
Qed.

Lemma loop_rewrite_touch self (ps : list path) st r st' (p : path) :
  Forall (fun q => FS.rpy_under (language_dir self) q = true) ps ->
  loop_each ps (rewrite_file self) st = (r, st') ->
  ¬ may_touch self p -> fs st' !! p = fs st !! p.
Proof.
  intros Hps. revert st. induction Hps as [|q ps Hq _ IH]; intros st H Hp.
  - injection H as <- <-. reflexivity.
  - simpl in H. unfold mbind, M_bind, bind in H.
    destruct (rewrite_file self q st) as [[[]|e] st1] eqn:E.
    + rewrite (IH _ H Hp).
      eapply rewrite_file_touch; [exact E| |].
      * intros ->. apply Hp. right. left. exists q. split; [exact Hq|left; reflexivity].
      * intros Hc. apply Hp. right. left. exists q. split; [exact Hq|right; exact Hc].
    + injection H as <- <-.
      eapply rewrite_file_touch; [exact E| |].
      * intros ->. apply Hp. right. left. exists q. split; [exact Hq|left; reflexivity].
      * intros Hc. apply Hp. right. left. exists q. split; [exact Hq|right; exact Hc].
Qed.

Lemma dev_step_touch self st r st' (p : path) :
  dev_step self st = (r, st') -> ¬ may_touch self p -> fs st' !! p = fs st !! p.
Proof.
  intros H Hp. unfold dev_step in H.
  destruct (negb _); [injection H as <- <-; reflexivity|].
  destruct (PathLib.with_suffix _ _) as [dev|] eqn:Ed;
    [|injection H as <- <-; reflexivity].
  unfold mbind, M_bind, bind, FS.exists_ in H.
  destruct (_ || _); [injection H as <- <-; reflexivity|].
  unfold FS.write_text in H.
  destruct (FS.is_dir _ _);
    [|destruct (FS.blocked _ _); injection H as <- <-; reflexivity].
  injection H as <- <-.
  cbn [fs]. apply lookup_insert_ne. intros <-. apply Hp. right. right. exact Ed.
Qed.

(** X13: what a run may touch.  Whether it ends well or raises, a run
    leaves every path as it was, except the backup archive, the translation
    scripts under the language directory with their compiled siblings, and
    the developer-mode file. *)
Theorem run_touches_only self st r st' (p : path) :
  call self st = (r, st') -> ¬ may_touch self p -> fs st' !! p = fs st !! p.
Proof.
  intros H Hp. unfold call, mbind, M_bind, bind in H.
  destruct (backup_step self st) as [[[]|e] st1] eqn:Eb;
    pose proof (backup_step_touch _ _ _ _ p Eb Hp) as H1;
    [|injection H as <- <-; exact H1].
  unfold FS.rglob_rpy in H.
  destruct (List.filter _ _) as [|q ps] eqn:Ef;
    [injection H as <- <-; exact H1|].
  assert (Hall : Forall (fun x => FS.rpy_under (language_dir self) x = true) (q :: ps)).
  { rewrite <- Ef, Forall_forall. intros x Hx.
    apply list_elem_of_In, filter_In in Hx. apply Hx. }
  destruct (loop_each (q :: ps) (rewrite_file self) st1) as [[[]|e] st2] eqn:El;
    pose proof (loop_rewrite_touch _ _ _ _ _ p Hall El Hp) as H2;
    [|injection H as <- <-; rewrite H2; exact H1].
  rewrite (dev_step_touch _ _ _ _ p H Hp), H2. exact H1.
Qed.

Lemma run_touches_only_witness :
  ¬ may_touch test_self script_path
  /\ fs (snd (call test_self (fresh test_fs))) !! script_path = Some (Text SCRIPT).
Proof.
  assert (Hp : ¬ may_touch test_self script_path).
  { intros [(b & _ & H)|[(q & Hq & [H|H])|H]].
    - vm_compute in H. discriminate H.
    - subst q. vm_compute in Hq. discriminate Hq.
    - assert (Hlen : (4 < length q)%nat).
      { unfold FS.rpy_under, PathLib.under in Hq.
        apply andb_true_iff in Hq as [Hq _]. apply andb_true_iff in Hq as [Hq _].
        apply Nat.ltb_lt in Hq. exact Hq. }
      assert (Hq' : q ≠ []) by (intros ->; simpl in Hlen; lia).
      pose proof (f_equal (@length str) (app_removelast_last [] Hq')) as Hl.
      rewrite length_app in Hl. simpl in Hl.
      unfold PathLib.with_suffix, PathLib.parent in H.
      destruct (PathLib.name q); [discriminate H|].
      injection H as H. apply (f_equal (@length str)) in H.
      rewrite length_app in H. simpl in H. lia.
    - vm_compute in H. discriminate H. }
  split; [exact Hp|].
  rewrite (run_touches_only test_self (fresh test_fs) _ _ script_path
             (surjective_pairing _) Hp).
  vm_compute. reflexivity.
Defined.

Lemma character_anatomy (text : str) (rm : Re.Match) :
  match_in PATTERN_CHARACTER text rm ->
  Re.group rm "1" ≠ [] /\ (LF ∉ Re.group rm "1")
  /\ exists a b,
       text = a ++ py "Character(" ++ [QUOTE] ++ Re.group rm "1" ++ [QUOTE] ++ b.
Proof.
  intros (a & b & Ht & H). destruct rm as [w g]. simpl in H, Ht.
  unfold PATTERN_CHARACTER in H. cbn [Re.seq] in H. unfold Re.PlusLazy in H.
  takes_inv. unfold Re.group.
  cbn [Re.groups Re.lookup String.eqb Ascii.eqb Bool.eqb default from_option id].
  split; [discriminate|]. split.
  - apply dot_no_newline. constructor; assumption.
  - exists (a ++ w1), (w5 ++ b).
    simpl. rewrite <- !app_assoc. simpl. rewrite <- ?app_assoc. simpl.
    rewrite <- ?app_assoc. reflexivity.
Qed.

(** X14: where the characters come from.  On the first access, with the
    source file there as text, the cached property is computed from it and
    stored, and the files stay as they are; each character is a name that is
    not empty and holds no newline, and it stands in the source file between
    [Character(], a quote and a quote. *)
Theorem characters_come_from_script self st (rpy : path) (text : str) :
  character (pattern self) = PATTERN_CHARACTER ->
  cache st = None ->
  or_path (characters_path (paths self)) (script (paths self)) = Some rpy ->
  fs st !! (root self ++ rpy) = Some (Text text) ->
  exists cs,
    characters self st
    = (Ok cs, {| fs := fs st; dirs := dirs st; cache := Some cs; log := log st |})
    /\ forall c, c ∈ cs ->
         c ≠ [] /\ (LF ∉ c)
         /\ exists a b, text = a ++ py "Character(" ++ [QUOTE] ++ c ++ [QUOTE] ++ b.
Proof.
  intros Hpat Hc Hp Hf. eexists. split.
  - unfold characters. rewrite Hc, Hp.
    unfold mbind, M_bind, bind, FS.exists_, FS.read_text. rewrite Hf.
    rewrite bool_decide_eq_true_2 by (eexists; reflexivity).
    cbn beta iota delta [negb orb]. rewrite Hf. reflexivity.
  - intros c Hin. cbv beta in Hin. rewrite Hpat in Hin.
    apply elem_of_list_to_set, list_elem_of_In, in_map_iff in Hin
      as (rm & <- & Hrm).
    apply character_anatomy, finditer_sound, Hrm.
Qed.

Lemma characters_come_from_script_witness :
  exists cs,
    characters test_self (fresh test_fs)
    = (Ok cs, {| fs := test_fs; dirs := ∅; cache := Some cs; log := [] |})
    /\ forall c, c ∈ cs ->
         c ≠ [] /\ (LF ∉ c)
         /\ exists a b, SCRIPT = a ++ py "Character(" ++ [QUOTE] ++ c ++ [QUOTE] ++ b.
Proof.
  apply (characters_come_from_script test_self (fresh test_fs)
           [py "game"; py "script.rpy"] SCRIPT).
  - reflexivity.
  - reflexivity.
  - reflexivity.
  - vm_compute. reflexivity.
Defined.

(** ** Counting blocks *)

Lemma iter_chunk_from_count (lines rest : list str) :
  length (iter_chunk_from lines rest) = S (length (List.filter blank rest)).
Proof.
  revert lines. induction rest as [|l rest IH]; intros lines; simpl.
  - reflexivity.
  - destruct (blank l); simpl; rewrite IH; reflexivity.
Qed.

Lemma batched_from_count {A} (n : nat) (l : list A) :
  forall cur : list A,
    (length cur < n)%nat ->
    (length cur + length l <= n * length (batched_from n cur l))%nat
    /\ (n * length (batched_from n cur l) < length cur + length l + n)%nat.
Proof.
  induction l as [|x l IH]; intros cur Hc; simpl.
  - destruct cur as [|y cur]; simpl in *; lia.
  - destruct (_ =? _)%nat eqn:E.
    + apply Nat.eqb_eq in E. rewrite length_app in E. simpl in E.
      destruct (IH [] ltac:(simpl; lia)) as [H1 H2]. simpl in *. lia.
    + apply Nat.eqb_neq in E. rewrite length_app in E. simpl in E.
      destruct (IH (cur ++ [x])) as [H1 H2].
      * rewrite length_app. simpl. lia.
      * rewrite length_app in H1, H2. simpl in *. lia.
Qed.

(** X15: how many blocks and chunks a file gives.  There is one block more
    than the file has blank lines, so at least one, also for an empty file;
    with a batch size [n >= 1] the number of chunks is the number of blocks
    divided by [n], rounded up. *)
Theorem blocks_and_chunks (n : nat) (content : str) :
  (1 <= n)%nat ->
  length (iter_chunk content) = S (length (List.filter blank (readlines content)))
  /\ (length (iter_chunk content) <= n * length (reader_chunks n content))%nat
  /\ (n * length (reader_chunks n content) < length (iter_chunk content) + n)%nat.
Proof.
  intros Hn. split; [apply iter_chunk_from_count|].
  unfold reader_chunks, batched. rewrite length_map.
  apply (batched_from_count n (iter_chunk content) []). simpl. lia.
Qed.

Lemma blocks_and_chunks_witness :
  (1 <= 2)%nat
  /\ length (iter_chunk RPY) = 11%nat
  /\ length (reader_chunks 2 RPY) = 6%nat.
Proof.
  destruct (blocks_and_chunks 2 RPY) as (H1 & H2 & H3); [lia|].
  split; [lia|].
  assert (E : length (List.filter blank (readlines RPY)) = 10%nat)
    by (vm_compute; reflexivity).
  rewrite E in H1. split; [exact H1|]. rewrite H1 in H2, H3. lia.
Defined.
